(** * SyncRep: the synchronisation engine of the plugin, embedded in Rocq

    The development follows the three TypeScript modules of the plugin:
    [fileSync.ts] (class [FileSync]), [directorySync.ts] (class
    [DirectorySync]) and [main.ts] (class [SyncRepPlugin]).

    - JavaScript strings are [string], held as their UTF-8 encoding; the
      primitives of [String.prototype] used by the code ([startsWith],
      [includes], [split], [replace], [toLowerCase]) and the decoding of
      a buffer as UTF-8 are written out in [Module Js].
    - Node's [path] module is written out in [Module Path], in its POSIX
      flavour, following the algorithm of Node's [lib/path.js].
    - The external store is a directory tree ([enode]); the managed store
      (the vault of the host application) is a finite map from paths to
      nodes.
    - Effects are threaded through a state-and-exception monad over the
      record [world]; every call that mutates one of the two stores is
      logged, with its success, so that statements about "calls issued"
      can be made about the log. *)

From Stdlib Require Import String Ascii Bool Lia.
From stdpp Require Import gmap strings list.

Local Open Scope string_scope.
Local Open Scope list_scope.

(** ** JavaScript string primitives *)

Module Js.

(** [s.startsWith(p)] *)
Definition startsWith (s p : string) : bool := String.prefix p s.

(** [s.includes(sub)] *)
Definition includes (s sub : string) : bool :=
  match String.index 0 sub s with
  | Some _ => true
  | None => false
  end.

(** [s.replace(/\\/g, '/')] *)
Fixpoint replaceBackslashes (s : string) : string :=
  match s with
  | EmptyString => EmptyString
  | String c s' =>
      String (if Ascii.eqb c "\"%char then "/"%char else c)
             (replaceBackslashes s')
  end.

Definition lowerChar (c : ascii) : ascii :=
  let n := nat_of_ascii c in
  if (65 <=? n)%nat && (n <=? 90)%nat then ascii_of_nat (n + 32) else c.

(** The Kelvin sign U+212A, in UTF-8. *)
Definition isKelvinSign (c0 c1 c2 : ascii) : bool :=
  Ascii.eqb c0 "226"%char && Ascii.eqb c1 "132"%char
  && Ascii.eqb c2 "170"%char.

(** [s.toLowerCase()], on a string held as its UTF-8 encoding: the letters
    A-Z are lowered and the Kelvin sign, the one character outside ASCII
    whose lower case is an ASCII letter, becomes [k].  The other
    characters outside ASCII are left as they are: their lower-case forms
    lie outside ASCII as well, and the code compares the result with
    ASCII strings only. *)
Fixpoint toLowerCase (s : string) : string :=
  match s with
  | EmptyString => EmptyString
  | String c0 s0 =>
      match s0 with
      | String c1 (String c2 s2) =>
          if isKelvinSign c0 c1 c2 then String "k"%char (toLowerCase s2)
          else String (lowerChar c0) (toLowerCase s0)
      | _ => String (lowerChar c0) (toLowerCase s0)
      end
  end.

(** [s.split(sep)] for a one-character separator: never the empty list. *)
Fixpoint split (sep : ascii) (s : string) : list string :=
  match s with
  | EmptyString => [EmptyString]
  | String c s' =>
      if Ascii.eqb c sep then EmptyString :: split sep s'
      else match split sep s' with
           | h :: t => String c h :: t
           | [] => [String c EmptyString]
           end
  end.

(** [l.join(sep)] *)
Fixpoint join (sep : string) (l : list string) : string :=
  match l with
  | [] => EmptyString
  | [x] => x
  | x :: rest => x +:+ sep +:+ join sep rest
  end.

(** A string is falsy exactly when it is empty. *)
Definition truthy (s : string) : bool := negb (String.eqb s "").

(** The value of a byte. *)
Definition code (c : ascii) : nat := nat_of_ascii c.

Definition between (lo hi : nat) (c : ascii) : bool :=
  (lo <=? code c)%nat && (code c <=? hi)%nat.

(** U+FFFD, the replacement character, in UTF-8, before [s]. *)
Definition replacement (s : string) : string :=
  String "239"%char (String "191"%char (String "189"%char s)).

(** [buffer.toString('utf8')], the decoding that [fs.readFile(p, 'utf8')]
    applies to the bytes of a file.  The string that results is held as
    its UTF-8 encoding: the well-formed sequences of the input are kept,
    and each maximal ill-formed run is replaced by U+FFFD, the byte that
    ends the run being read again. *)
Fixpoint decodeUtf8 (s : string) : string :=
  match s with
  | EmptyString => EmptyString
  | String b0 s0 =>
      if (code b0 <? 128)%nat then String b0 (decodeUtf8 s0)
      else if between 194 223 b0 then
        match s0 with
        | String b1 s1 =>
            if between 128 191 b1 then String b0 (String b1 (decodeUtf8 s1))
            else replacement (decodeUtf8 s0)
        | EmptyString => replacement EmptyString
        end
      else if between 224 239 b0 then
        let lo := if (code b0 =? 224)%nat then 160 else 128 in
        let hi := if (code b0 =? 237)%nat then 159 else 191 in
        match s0 with
        | String b1 s1 =>
            if between lo hi b1 then
              match s1 with
              | String b2 s2 =>
                  if between 128 191 b2 then
                    String b0 (String b1 (String b2 (decodeUtf8 s2)))
                  else replacement (decodeUtf8 s1)
              | EmptyString => replacement EmptyString
              end
            else replacement (decodeUtf8 s0)
        | EmptyString => replacement EmptyString
        end
      else if between 240 244 b0 then
        let lo := if (code b0 =? 240)%nat then 144 else 128 in
        let hi := if (code b0 =? 244)%nat then 143 else 191 in
        match s0 with
        | String b1 s1 =>
            if between lo hi b1 then
              match s1 with
              | String b2 s2 =>
                  if between 128 191 b2 then
                    match s2 with
                    | String b3 s3 =>
                        if between 128 191 b3 then
                          String b0
                            (String b1 (String b2 (String b3 (decodeUtf8 s3))))
                        else replacement (decodeUtf8 s2)
                    | EmptyString => replacement EmptyString
                    end
                  else replacement (decodeUtf8 s1)
              | EmptyString => replacement EmptyString
              end
            else replacement (decodeUtf8 s0)
        | EmptyString => replacement EmptyString
        end
      else replacement (decodeUtf8 s0)
  end.

End Js.

(** ** Node's [path] module (POSIX) *)

Module Path.

Definition isSlash (c : ascii) : bool := Ascii.eqb c "/"%char.

(** [normalizeString]: the segments of a path with the empty and ["."]
    segments dropped and [".."] resolved; [acc] is the result so far,
    last segment first. *)
Fixpoint normalizeSegments (allowAboveRoot : bool) (acc segs : list string)
  : list string :=
  match segs with
  | [] => rev acc
  | s :: rest =>
      if String.eqb s "" || String.eqb s "." then
        normalizeSegments allowAboveRoot acc rest
      else if String.eqb s ".." then
        match acc with
        | top :: acc' =>
            if String.eqb top ".." then
              normalizeSegments allowAboveRoot
                (if allowAboveRoot then ".." :: acc else acc) rest
            else normalizeSegments allowAboveRoot acc' rest
        | [] =>
            normalizeSegments allowAboveRoot
              (if allowAboveRoot then [".."] else []) rest
        end
      else normalizeSegments allowAboveRoot (s :: acc) rest
  end.

Definition lastChar (s : string) : option ascii :=
  last (list_ascii_of_string s).

Definition endsWithSlash (s : string) : bool :=
  match lastChar s with
  | Some c => isSlash c
  | None => false
  end.

(** [path.normalize] *)
Definition normalize (p : string) : string :=
  if String.eqb p "" then "."
  else
    let isAbsolute := Js.startsWith p "/" in
    let trailingSeparator := endsWithSlash p in
    let body :=
      Js.join "/" (normalizeSegments (negb isAbsolute) [] (Js.split "/" p)) in
    if String.eqb body "" then
      if isAbsolute then "/" else if trailingSeparator then "./" else "."
    else
      let body' := if trailingSeparator then body +:+ "/" else body in
      if isAbsolute then "/" +:+ body' else body'.

(** [path.join(a, b)]: the non-empty arguments joined by a slash, then
    normalised. *)
Definition join (a b : string) : string :=
  if String.eqb a "" then
    if String.eqb b "" then "." else normalize b
  else if String.eqb b "" then normalize a
  else normalize (a +:+ "/" +:+ b).

(** The loop of [path.dirname], run over the characters from index
    [length - 1] down to index 1, given last first: the characters that
    precede the slash where the loop stops, last first. *)
Fixpoint dirnameScan (r : list ascii) (matchedSlash : bool)
  : option (list ascii) :=
  match r with
  | [] => None
  | c :: r' =>
      if isSlash c then
        if matchedSlash then dirnameScan r' true else Some r'
      else dirnameScan r' false
  end.

(** [path.dirname] *)
Definition dirname (p : string) : string :=
  match list_ascii_of_string p with
  | [] => "."
  | c0 :: tl =>
      let hasRoot := isSlash c0 in
      match dirnameScan (rev tl) true with
      | None => if hasRoot then "/" else "."
      | Some r' =>
          if hasRoot && bool_decide (r' = []) then "//"
          else string_of_list_ascii (c0 :: rev r')
      end
  end.

Fixpoint dropWhile {A} (f : A -> bool) (l : list A) : list A :=
  match l with
  | [] => []
  | x :: l' => if f x then dropWhile f l' else l
  end.

Fixpoint takeWhile {A} (f : A -> bool) (l : list A) : list A :=
  match l with
  | [] => []
  | x :: l' => if f x then x :: takeWhile f l' else []
  end.

(** The characters of the last segment of [p], last first, trailing
    slashes ignored. *)
Definition basenameRev (p : string) : list ascii :=
  takeWhile (fun c => negb (isSlash c))
            (dropWhile isSlash (rev (list_ascii_of_string p))).

(** [path.basename] *)
Definition basename (p : string) : string :=
  string_of_list_ascii (rev (basenameRev p)).

Definition isDot (c : ascii) : bool := Ascii.eqb c "."%char.

(** [path.extname]: from the last dot of the last segment, unless there is
    no dot, the dot opens the segment, or the segment is [".."]. *)
Definition extname (p : string) : string :=
  let r := basenameRev p in
  let ext := takeWhile (fun c => negb (isDot c)) r in
  match dropWhile (fun c => negb (isDot c)) r with
  | [] => ""
  | _dot :: before =>
      if bool_decide (before = []) then ""
      else if String.eqb (string_of_list_ascii (rev r)) ".." then ""
      else string_of_list_ascii ("."%char :: rev ext)
  end.

Fixpoint stripCommon (a b : list string) : list string * list string :=
  match a, b with
  | x :: a', y :: b' =>
      if String.eqb x y then stripCommon a' b' else (a, b)
  | _, _ => (a, b)
  end.

(** [path.relative(from, to)], both taken from the same directory (the
    code passes absolute paths). *)
Definition relative (from to : string) : string :=
  if String.eqb from to then ""
  else
    let f := normalizeSegments false [] (Js.split "/" from) in
    let t := normalizeSegments false [] (Js.split "/" to) in
    let '(f', t') := stripCommon f t in
    Js.join "/" (List.map (fun _ => "..") f' ++ t').

End Path.

(** ** Settings ([settings.ts]) *)

Inductive SyncMode := ModeAll | ModeInclude.

Record SyncRepSettings := {
  syncFolderPath : string;
  syncOnSave : bool;
  syncInterval : nat;
  excludedFolders : list string;
  includedFolders : list string;
  externalIncludedFolders : list string;
  syncMode : SyncMode;
  debugMode : bool;
  highlightColor : string
}.


(** ** Path policy ([FileSync], first part) *)

Section Policy.

Variable settings : SyncRepSettings.

Definition binaryExtensions : list string :=
  [ ".png"; ".jpg"; ".jpeg"; ".gif"; ".bmp"; ".tiff"; ".webp";
    ".pdf"; ".doc"; ".docx"; ".xls"; ".xlsx"; ".ppt"; ".pptx";
    ".zip"; ".rar"; ".7z"; ".tar"; ".gz";
    ".mp3"; ".wav"; ".ogg"; ".flac"; ".m4a";
    ".mp4"; ".avi"; ".mov"; ".wmv"; ".mkv"; ".webm";
    ".exe"; ".dll"; ".so"; ".dylib";
    ".ttf"; ".otf"; ".woff"; ".woff2" ].

Definition isBinaryFileType (filePath : string) : bool :=
  let extension := Js.toLowerCase (Path.extname filePath) in
  existsb (String.eqb extension) binaryExtensions.

(** The test shared by the three folder lists: the path is the folder or
    lies under it. *)
Definition isUnder (filePath folder : string) : bool :=
  String.eqb filePath folder || Js.startsWith filePath (folder +:+ "/").

(** The [for] loop of [isIncluded], leaving at the first match. *)
Fixpoint isIncludedIn (folders : list string) (filePath : string) : bool :=
  match folders with
  | [] => false
  | includedFolder :: rest =>
      if String.eqb includedFolder "" then true
      else if isUnder filePath includedFolder then true
      else isIncludedIn rest filePath
  end.

Definition isIncluded (filePath : string) : bool :=
  isIncludedIn (includedFolders settings) filePath.

(** The [for] loop of [isExternalIncluded]. *)
Fixpoint isExternalIncludedIn (folders : list string) (filePath : string)
  : bool :=
  match folders with
  | [] => false
  | externalFolder :: rest =>
      let folderName := Path.basename externalFolder in
      if isUnder filePath folderName then true
      else isExternalIncludedIn rest filePath
  end.

Definition isExternalIncluded (filePath : string) : bool :=
  isExternalIncludedIn (externalIncludedFolders settings) filePath.

Definition isExcluded (filePath : string) : bool :=
  existsb (fun folder =>
             String.eqb filePath folder
             || Js.startsWith filePath (folder +:+ "/")
             || Js.startsWith filePath (folder +:+ "\"))
          (excludedFolders settings).

Definition shouldSyncFile (filePath : string) : bool :=
  match syncMode settings with
  | ModeAll => negb (isExcluded filePath)
  | ModeInclude => isIncluded filePath || isExternalIncluded filePath
  end.

(** The [for] loop of [getExternalPath]. *)
Fixpoint getExternalPathIn (folders : list string) (vaultPath : string)
  : string :=
  match folders with
  | [] => Path.join (syncFolderPath settings) vaultPath
  | externalFolder :: rest =>
      let folderName := Path.basename externalFolder in
      if isUnder vaultPath folderName then
        let relativeToParent :=
          String.substring (String.length folderName + 1)
                           (String.length vaultPath) vaultPath in
        Path.join externalFolder relativeToParent
      else getExternalPathIn rest vaultPath
  end.

(** [undefined] is [None]. *)
Definition getExternalPath (vaultPath : string) : option string :=
  if negb (Js.truthy (syncFolderPath settings)) then None
  else Some (getExternalPathIn (externalIncludedFolders settings) vaultPath).

End Policy.

(** ** The two stores

    The external store is a directory tree.  File contents are byte
    strings.  Reading a file as a buffer yields its bytes; reading it as
    text yields the string that the bytes decode to ([Js.decodeUtf8]),
    itself held as its UTF-8 encoding, which is what writing that string
    stores.  A content or a listing of [None] stands for a file or a
    directory whose read fails (an I/O or permission error). *)

#[local] Unset Elimination Schemes.
Inductive enode :=
| EFile (content : option string)
| EDir (entries : option (list (string * enode)))
| EOther.
#[local] Set Elimination Schemes.

(** [Dirent.isDirectory()], [Dirent.isFile()], [Stats.isDirectory()] *)
Definition isDirectory (n : enode) : bool :=
  match n with EDir _ => true | _ => false end.

Definition isFile (n : enode) : bool :=
  match n with EFile _ => true | _ => false end.

Definition children (n : enode) : option (list (string * enode)) :=
  match n with EDir (Some l) => Some l | _ => None end.

Fixpoint assoc (name : string) (l : list (string * enode)) : option enode :=
  match l with
  | [] => None
  | (k, v) :: l' => if String.eqb k name then Some v else assoc name l'
  end.

Fixpoint setEntry (name : string) (v : enode) (l : list (string * enode))
  : list (string * enode) :=
  match l with
  | [] => [(name, v)]
  | (k, x) :: l' =>
      if String.eqb k name then (k, v) :: l' else (k, x) :: setEntry name v l'
  end.

Fixpoint removeEntry (name : string) (l : list (string * enode))
  : list (string * enode) :=
  match l with
  | [] => []
  | (k, x) :: l' =>
      if String.eqb k name then removeEntry name l'
      else (k, x) :: removeEntry name l'
  end.

(** The segments by which the file system resolves a path, from the root
    of the tree. *)
Definition fsSegments (p : string) : list string :=
  Path.normalizeSegments false [] (Js.split "/" p).

Fixpoint lookupAt (segs : list string) (n : enode) : option enode :=
  match segs with
  | [] => Some n
  | s :: rest =>
      match children n with
      | Some l =>
          match assoc s l with
          | Some c => lookupAt rest c
          | None => None
          end
      | None => None
      end
  end.

(** Set ([Some]) or remove ([None]) the entry at [segs]; [None] when the
    parent is missing or cannot be listed. *)
Fixpoint putAt (segs : list string) (new : option enode) (n : enode)
  : option enode :=
  match segs with
  | [] => None
  | [s] =>
      match children n with
      | Some l =>
          Some (EDir (Some (match new with
                            | Some v => setEntry s v l
                            | None => removeEntry s l
                            end)))
      | None => None
      end
  | s :: rest =>
      match children n with
      | Some l =>
          match assoc s l with
          | Some c =>
              match putAt rest new c with
              | Some c' => Some (EDir (Some (setEntry s c' l)))
              | None => None
              end
          | None => None
          end
      | None => None
      end
  end.

(** [mkdir -p]: [None] when a non-directory is in the way. *)
Fixpoint mkdirAt (segs : list string) (n : enode) : option enode :=
  match segs with
  | [] => if isDirectory n then Some n else None
  | s :: rest =>
      match children n with
      | Some l =>
          let c := default (EDir (Some [])) (assoc s l) in
          match mkdirAt rest c with
          | Some c' => Some (EDir (Some (setEntry s c' l)))
          | None => None
          end
      | None => None
      end
  end.

Definition fsLookup (root : enode) (p : string) : option enode :=
  if String.eqb p "" then None else lookupAt (fsSegments p) root.

(** The managed store: the vault of the host application, as the contract
    of the host describes it (resolve a path to a file, a folder or
    nothing; create, which fails on an occupied path; modify; trash). *)
Inductive vnode :=
| VFile (data : string)
| VFolder.

(** The handles the host returns ([instanceof TFile], [instanceof
    TFolder]). *)
Inductive TAbstractFile :=
| TFile (path : string)
| TFolder (path : string).

Definition pathOf (f : TAbstractFile) : string :=
  match f with TFile p => p | TFolder p => p end.

Inductive encoding := Utf8 | Buffer.

(** What a read yields of the bytes [data]: the bytes, or their decoding
    as text. *)
Definition decodeAs (enc : encoding) (data : string) : string :=
  match enc with
  | Buffer => data
  | Utf8 => Js.decodeUtf8 data
  end.

(** The calls that mutate a store. *)
Inductive call :=
| VaultCreate (path data : string)
| VaultCreateBinary (path data : string)
| VaultModify (path data : string)
| VaultModifyBinary (path data : string)
| VaultCreateFolder (path : string)
| VaultTrash (path : string)
| FsMkdir (path : string)
| FsWriteFile (path data : string) (enc : encoding)
| FsRename (oldPath newPath : string)
| FsUnlink (path : string)
| FsCopyFile (src dst : string)
| FsRmdir (path : string) (recursive : bool).

(** What [setTimeout] defers, and what a confirmation modal waits for. *)
Inductive task :=
| TaskExternalFileChange (fullPath relativePath : string)
| TaskClearGuard.

Inductive modal :=
| ConfirmUnlink (externalPath : string)
| ConfirmRmdir (externalPath : string).

Record world := {
  vault : gmap string vnode;
  vaultFaults : list string;       (* paths at which a vault write fails *)
  extfs : enode;
  isProcessingExternalChange : bool;
  timers : list (nat * task);
  modals : list modal;
  fileWatchers : list (string * bool); (* directory watched, recursive *)
  recursiveWatchSupported : bool
}.

Definition withVault (v : gmap string vnode) (w : world) : world :=
  {| vault := v; vaultFaults := vaultFaults w; extfs := extfs w;
     isProcessingExternalChange := isProcessingExternalChange w;
     timers := timers w; modals := modals w;
     fileWatchers := fileWatchers w;
     recursiveWatchSupported := recursiveWatchSupported w |}.

Definition withExtfs (fs : enode) (w : world) : world :=
  {| vault := vault w; vaultFaults := vaultFaults w; extfs := fs;
     isProcessingExternalChange := isProcessingExternalChange w;
     timers := timers w; modals := modals w;
     fileWatchers := fileWatchers w;
     recursiveWatchSupported := recursiveWatchSupported w |}.

Definition withGuard (b : bool) (w : world) : world :=
  {| vault := vault w; vaultFaults := vaultFaults w; extfs := extfs w;
     isProcessingExternalChange := b;
     timers := timers w; modals := modals w;
     fileWatchers := fileWatchers w;
     recursiveWatchSupported := recursiveWatchSupported w |}.

Definition withTimers (t : list (nat * task)) (w : world) : world :=
  {| vault := vault w; vaultFaults := vaultFaults w; extfs := extfs w;
     isProcessingExternalChange := isProcessingExternalChange w;
     timers := t; modals := modals w;
     fileWatchers := fileWatchers w;
     recursiveWatchSupported := recursiveWatchSupported w |}.

Definition withModals (m : list modal) (w : world) : world :=
  {| vault := vault w; vaultFaults := vaultFaults w; extfs := extfs w;
     isProcessingExternalChange := isProcessingExternalChange w;
     timers := timers w; modals := m;
     fileWatchers := fileWatchers w;
     recursiveWatchSupported := recursiveWatchSupported w |}.

Definition withWatchers (l : list (string * bool)) (w : world) : world :=
  {| vault := vault w; vaultFaults := vaultFaults w; extfs := extfs w;
     isProcessingExternalChange := isProcessingExternalChange w;
     timers := timers w; modals := modals w;
     fileWatchers := l;
     recursiveWatchSupported := recursiveWatchSupported w |}.

(** ** The monad of the engine: state, exceptions, and the log of calls *)

Inductive outcome (A : Type) :=
| Ok (a : A)
| Throw (message : string).
Arguments Ok {A} a.
Arguments Throw {A} message.

Record run (A : Type) := Run {
  value : outcome A;
  after : world;
  issued : list (call * bool)      (* the calls, with their success *)
}.
Arguments Run {A}.
Arguments value {A}.
Arguments after {A}.
Arguments issued {A}.

Definition M (A : Type) : Type := world -> run A.

Definition ret {A} (a : A) : M A := fun w => Run (Ok a) w [].

Definition throw {A} (message : string) : M A :=
  fun w => Run (Throw message) w [].

Definition bind {A B} (m : M A) (f : A -> M B) : M B :=
  fun w =>
    let r := m w in
    match value r with
    | Ok a =>
        let r' := f a (after r) in
        Run (value r') (after r') (issued r ++ issued r')
    | Throw e => Run (Throw e) (after r) (issued r)
    end.

(** [try { m } catch (e) { h e }] *)
Definition tryCatch {A} (m : M A) (h : string -> M A) : M A :=
  fun w =>
    let r := m w in
    match value r with
    | Ok a => r
    | Throw e =>
        let r' := h e (after r) in
        Run (value r') (after r') (issued r ++ issued r')
    end.

(** [try { m } finally { f }] *)
Definition tryFinally {A} (m : M A) (f : M unit) : M A :=
  fun w =>
    let r := m w in
    let r' := f (after r) in
    Run (match value r' with Ok _ => value r | Throw e => Throw e end)
        (after r') (issued r ++ issued r').

Declare Scope sync_scope.
Delimit Scope sync_scope with sync.
Notation "x <- m ;; k" := (bind m (fun x => k))
  (at level 100, m at next level, right associativity) : sync_scope.
Notation "m ;;; k" := (bind m (fun _ => k))
  (at level 100, right associativity) : sync_scope.
Local Open Scope sync_scope.

Definition get : M world := fun w => Run (Ok w) w [].
Definition put (w' : world) : M unit := fun _ => Run (Ok tt) w' [].
Definition logCall (c : call) (ok : bool) : M unit :=
  fun w => Run (Ok tt) w [(c, ok)].

(** [for (const x of l) { body x }] *)
Fixpoint forEach {A} (body : A -> M unit) (l : list A) : M unit :=
  match l with
  | [] => ret tt
  | x :: l' => body x ;;; forEach body l'
  end.

Definition when (b : bool) (m : M unit) : M unit := if b then m else ret tt.

(** [await new Promise(resolve => setTimeout(resolve, ms))] *)
Definition sleep (ms : nat) : M unit := ret tt.

(** ** The primitives of the managed store *)

Definition getAbstractFileByPath (p : string) : M (option TAbstractFile) :=
  w <- get ;;
  ret (match vault w !! p with
       | Some (VFile _) => Some (TFile p)
       | Some VFolder => Some (TFolder p)
       | None => None
       end).

Definition faulty (w : world) (p : string) : bool :=
  existsb (String.eqb p) (vaultFaults w).

(** [vault.readBinary]: the bytes of the file. *)
Definition vaultReadBinary (file : TAbstractFile) : M string :=
  w <- get ;;
  match vault w !! pathOf file with
  | Some (VFile data) => ret data
  | _ => throw "ENOENT: no such file"
  end.

(** [vault.read]: the text of the file. *)
Definition vaultRead (file : TAbstractFile) : M string :=
  data <- vaultReadBinary file ;; ret (Js.decodeUtf8 data).

Definition failing {A} (c : call) (message : string) : M A :=
  logCall c false ;;; throw message.

(** [vault.create] and [vault.createBinary]: fail on an occupied path. *)
Definition vaultCreateAs (c : call) (p data : string) : M unit :=
  w <- get ;;
  if faulty w p then failing c "EIO: write failed"
  else match vault w !! p with
       | Some _ => failing c "File already exists."
       | None =>
           put (withVault (<[p := VFile data]> (vault w)) w) ;;;
           logCall c true
       end.

Definition vaultCreate (p data : string) : M unit :=
  vaultCreateAs (VaultCreate p data) p data.

Definition vaultCreateBinary (p data : string) : M unit :=
  vaultCreateAs (VaultCreateBinary p data) p data.

(** [vault.modify] and [vault.modifyBinary] *)
Definition vaultModifyAs (c : call) (file : TAbstractFile) (data : string)
  : M unit :=
  w <- get ;;
  if faulty w (pathOf file) then failing c "EIO: write failed"
  else match vault w !! pathOf file with
       | Some (VFile _) =>
           put (withVault (<[pathOf file := VFile data]> (vault w)) w) ;;;
           logCall c true
       | _ => failing c "ENOENT: no such file"
       end.

Definition vaultModify (file : TAbstractFile) (data : string) : M unit :=
  vaultModifyAs (VaultModify (pathOf file) data) file data.

Definition vaultModifyBinary (file : TAbstractFile) (data : string)
  : M unit :=
  vaultModifyAs (VaultModifyBinary (pathOf file) data) file data.

(** [vault.createFolder]: fails if already present. *)
Definition vaultCreateFolder (p : string) : M unit :=
  w <- get ;;
  if faulty w p then failing (VaultCreateFolder p) "EIO: write failed"
  else match vault w !! p with
       | Some _ => failing (VaultCreateFolder p) "Folder already exists."
       | None =>
           put (withVault (<[p := VFolder]> (vault w)) w) ;;;
           logCall (VaultCreateFolder p) true
       end.

(** [vault.trash(file, true)]: the item and what it contains leave the
    vault for the trash. *)
Definition vaultTrash (file : TAbstractFile) : M unit :=
  w <- get ;;
  let p := pathOf file in
  if faulty w p then failing (VaultTrash p) "EIO: write failed"
  else match vault w !! p with
       | Some _ =>
           put (withVault
                  (filter (fun kv => isUnder kv.1 p = false) (vault w)) w) ;;;
           logCall (VaultTrash p) true
       | None => failing (VaultTrash p) "ENOENT: no such file"
       end.

(** [folder.children], flattened by [getAllFilesInFolder]: the files
    below a folder. *)
Definition filesBelow (v : gmap string vnode) (p : string)
  : list TAbstractFile :=
  omap (fun kv => match kv.2 with
                  | VFile _ =>
                      if Js.startsWith kv.1 (p +:+ "/") then Some (TFile kv.1)
                      else None
                  | VFolder => None
                  end)
       (map_to_list v).

(** ** The primitives of the external store ([fs]) *)

Definition existsSync (p : string) : M bool :=
  w <- get ;;
  ret (match fsLookup (extfs w) p with Some _ => true | None => false end).

(** A mutating call: logged, and an exception when the file system
    refuses it. *)
Definition fsMutate (c : call) (p : string) (f : enode -> option enode)
  : M unit :=
  w <- get ;;
  match (if String.eqb p "" then None else f (extfs w)) with
  | Some fs' => put (withExtfs fs' w) ;;; logCall c true
  | None => failing c "EIO: file system call failed"
  end.

(** [fs.mkdirSync(p, { recursive: true })] *)
Definition mkdirSync (p : string) : M unit :=
  fsMutate (FsMkdir p) p (mkdirAt (fsSegments p)).

(** [fs.writeFile(p, data, enc)]: the parent must be a directory and [p]
    must not be one. *)
Definition fsWriteFile (p data : string) (enc : encoding) : M unit :=
  fsMutate (FsWriteFile p data enc) p
    (fun root =>
       match lookupAt (fsSegments p) root with
       | Some (EDir _) => None
       | _ => putAt (fsSegments p) (Some (EFile (Some data))) root
       end).

(** [fs.unlinkSync(p)] *)
Definition unlinkSync (p : string) : M unit :=
  fsMutate (FsUnlink p) p
    (fun root =>
       match lookupAt (fsSegments p) root with
       | Some (EFile _) | Some EOther => putAt (fsSegments p) None root
       | _ => None
       end).

(** May [src] take the place of what is at the target of a rename? *)
Definition renameAllowed (src : enode) (target : option enode) : bool :=
  match target with
  | None => true
  | Some t =>
      match src, t with
      | EDir _, EDir (Some []) => true
      | EDir _, _ => false
      | _, EDir _ => false
      | _, _ => true
      end
  end.

(** [fs.renameSync(oldPath, newPath)] *)
Definition renameSync (oldPath newPath : string) : M unit :=
  fsMutate (FsRename oldPath newPath) oldPath
    (fun root =>
       if String.eqb newPath "" then None else
       match lookupAt (fsSegments oldPath) root with
       | None => None
       | Some src =>
           if bool_decide (fsSegments oldPath = fsSegments newPath)
           then Some root
           else if renameAllowed src (lookupAt (fsSegments newPath) root)
           then match putAt (fsSegments oldPath) None root with
                | Some root' => putAt (fsSegments newPath) (Some src) root'
                | None => None
                end
           else None
       end).

(** [fs.copyFileSync(src, dst)] *)
Definition copyFileSync (src dst : string) : M unit :=
  fsMutate (FsCopyFile src dst) src
    (fun root =>
       if String.eqb dst "" then None else
       match lookupAt (fsSegments src) root with
       | Some (EFile (Some data)) =>
           match lookupAt (fsSegments dst) root with
           | Some (EDir _) => None
           | _ => putAt (fsSegments dst) (Some (EFile (Some data))) root
           end
       | _ => None
       end).

(** [fs.rmdirSync(p)] and [fs.rmdirSync(p, { recursive: true })] *)
Definition rmdirSync (p : string) (recursive : bool) : M unit :=
  fsMutate (FsRmdir p recursive) p
    (fun root =>
       match lookupAt (fsSegments p) root with
       | Some (EDir (Some [])) => putAt (fsSegments p) None root
       | Some (EDir _) =>
           if recursive then putAt (fsSegments p) None root else None
       | _ => None
       end).

(** [Dirent]s carry the node they name. *)
Definition readdirOf (n : option enode) : M (list (string * enode)) :=
  match n with
  | Some (EDir (Some l)) => ret l
  | _ => throw "readdir failed"
  end.

Definition readFileOf (n : option enode) (enc : encoding) : M string :=
  match n with
  | Some (EFile (Some data)) => ret (decodeAs enc data)
  | _ => throw "read failed"
  end.

(** [fsReaddir(p, { withFileTypes: true })], [fs.readdirSync] *)
Definition fsReaddir (p : string) : M (list (string * enode)) :=
  w <- get ;; readdirOf (fsLookup (extfs w) p).

(** [fsReadFile(p)], with [Buffer] for [enc], and [fsReadFile(p, 'utf8')] *)
Definition fsReadFile (p : string) (enc : encoding) : M string :=
  w <- get ;; readFileOf (fsLookup (extfs w) p) enc.

(** [fsStat(p)] *)
Definition fsStat (p : string) : M enode :=
  w <- get ;;
  match fsLookup (extfs w) p with
  | Some n => ret n
  | None => throw "ENOENT: no such file or directory"
  end.

(** The node at a path, for the walks that recurse on it; a missing path
    yields a node every read of which fails. *)
Definition nodeAt (p : string) : M enode :=
  w <- get ;; ret (default EOther (fsLookup (extfs w) p)).

(** ** Timers, modals, the guard *)

Definition setTimeout (t : task) (ms : nat) : M unit :=
  w <- get ;; put (withTimers (timers w ++ [(ms, t)]) w).

Definition openModal (m : modal) : M unit :=
  w <- get ;; put (withModals (modals w ++ [m]) w).

Definition setProcessingExternalChange (value : bool) : M unit :=
  w <- get ;; put (withGuard value w).

Definition getProcessingExternalChange : M bool :=
  w <- get ;; ret (isProcessingExternalChange w).

(** ** [FileSync] ([fileSync.ts]) *)

Section Engine.

Variable settings : SyncRepSettings.

(** [currentPath ? `${currentPath}/${dir}` : dir] *)
Definition nextPath (currentPath dir : string) : string :=
  if Js.truthy currentPath then currentPath +:+ "/" +:+ dir else dir.

(** The loop of [ensureVaultDirectory] over the segments of the path. *)
Fixpoint ensureVaultDirectoryFrom (currentPath : string) (dirs : list string)
  : M unit :=
  match dirs with
  | [] => ret tt
  | dir :: rest =>
      let currentPath := nextPath currentPath dir in
      existingDir <- getAbstractFileByPath currentPath ;;
      match existingDir with
      | None =>
          tryCatch (vaultCreateFolder currentPath)
            (fun message =>
               if negb (Js.truthy message)
                  || negb (Js.includes message "already exists")
               then throw message
               else ret tt)
      | Some _ => ret tt
      end ;;;
      ensureVaultDirectoryFrom currentPath rest
  end.

Definition ensureVaultDirectory (dirPath : string) : M unit :=
  ensureVaultDirectoryFrom "" (Js.split "/" dirPath).

(** The branch shared by the inbound handlers once the external content
    is read: write on difference, create (with its parent directories)
    when the vault has no file there, and retry as a modification when
    the creation reports a file that already exists.  The binary and the
    text branch of the source differ in the reads and in the vault calls
    made: buffers on one side, text on the other. *)
Definition writeIfDifferent (isBinaryFile : bool) (file : TAbstractFile)
    (content : string) : M unit :=
  currentContent <-
    (if isBinaryFile then vaultReadBinary file else vaultRead file) ;;
  if negb (String.eqb currentContent content) then
    if isBinaryFile then vaultModifyBinary file content
    else vaultModify file content
  else ret tt.

Definition syncContent (isBinaryFile : bool) (vaultPath content : string)
    (existingFile : option TAbstractFile) : M unit :=
  match existingFile with
  | Some (TFile p) => writeIfDifferent isBinaryFile (TFile p) content
  | _ =>
      let parentDir := Path.dirname vaultPath in
      when (Js.truthy parentDir && negb (String.eqb parentDir "."))
           (ensureVaultDirectory parentDir) ;;;
      tryCatch
        (if isBinaryFile then vaultCreateBinary vaultPath content
         else vaultCreate vaultPath content)
        (fun message =>
           if Js.truthy message && Js.includes message "already exists" then
             sleep 200 ;;;
             fileAfterError <- getAbstractFileByPath vaultPath ;;
             match fileAfterError with
             | Some (TFile p) => writeIfDifferent isBinaryFile (TFile p) content
             | _ => ret tt
             end
           else throw message)
  end.

(** The loop of [handleExternalFileChange] that maps a file under a
    configured external folder to its vault path. *)
Fixpoint vaultPathFor (folders : list string) (fullPath relativePath : string)
  : string :=
  match folders with
  | [] => relativePath
  | externalFolder :: rest =>
      if Js.startsWith fullPath externalFolder then
        let folderName := Path.basename externalFolder in
        let relativeToExternal := Path.relative externalFolder fullPath in
        if Js.truthy relativeToExternal then
          Js.replaceBackslashes (Path.join folderName relativeToExternal)
        else folderName
      else vaultPathFor rest fullPath relativePath
  end.

Definition handleExternalFileChange (fullPath relativePath : string)
  : M unit :=
  tryFinally
    (tryCatch
       (setProcessingExternalChange true ;;;
        if negb (shouldSyncFile settings relativePath) then ret tt
        else
          let vaultPath :=
            vaultPathFor (externalIncludedFolders settings)
                         fullPath relativePath in
          existingFile <- getAbstractFileByPath vaultPath ;;
          let isBinaryFile := isBinaryFileType vaultPath in
          tryCatch
            (content <-
               fsReadFile fullPath (if isBinaryFile then Buffer else Utf8) ;;
             syncContent isBinaryFile vaultPath content existingFile)
            (fun _ => ret tt))
       (fun _ => ret tt))
    (setProcessingExternalChange false).

Definition moveFileToTrash (filePath : string) : M unit :=
  tryCatch
    (file <- getAbstractFileByPath filePath ;;
     match file with
     | Some f => vaultTrash f
     | None => ret tt
     end)
    (fun _ => ret tt).

Definition handleExternalFileDeletion (relativePath : string) : M unit :=
  tryFinally
    (tryCatch
       (setProcessingExternalChange true ;;;
        if negb (shouldSyncFile settings relativePath) then ret tt
        else
          existingFile <- getAbstractFileByPath relativePath ;;
          match existingFile with
          | Some (TFile _) => moveFileToTrash relativePath
          | _ => ret tt
          end)
       (fun _ => ret tt))
    (setTimeout TaskClearGuard 500).

(** [if (!destPath) return]: [undefined] and the empty string are falsy. *)
Definition resolved (p : option string) : option string :=
  match p with
  | Some d => if Js.truthy d then Some d else None
  | None => None
  end.

Definition syncFile (file : TAbstractFile) : M unit :=
  tryCatch
    (if negb (shouldSyncFile settings (pathOf file)) then ret tt
     else
       match resolved (getExternalPath settings (pathOf file)) with
       | None => ret tt
       | Some destPath =>
           let destDir := Path.dirname destPath in
           dirExists <- existsSync destDir ;;
           when (negb dirExists) (mkdirSync destDir) ;;;
           let isBinaryFile := isBinaryFileType (pathOf file) in
           if isBinaryFile then
             content <- vaultReadBinary file ;;
             fsWriteFile destPath content Buffer
           else
             content <- vaultRead file ;;
             fsWriteFile destPath content Utf8
       end)
    (fun _ => ret tt).

Definition handleFileDeletion (filePath : string) : M unit :=
  tryCatch
    (match resolved (getExternalPath settings filePath) with
     | None => ret tt
     | Some externalPath =>
         fileExists <- existsSync externalPath ;;
         when fileExists (openModal (ConfirmUnlink externalPath))
     end)
    (fun _ => ret tt).

(** The callback of the confirmation modal, run with the user's answer. *)
Definition onConfirm (m : modal) (confirmed : bool) : M unit :=
  match m with
  | ConfirmUnlink externalPath =>
      if confirmed then tryCatch (unlinkSync externalPath) (fun _ => ret tt)
      else ret tt
  | ConfirmRmdir externalPath =>
      if confirmed then tryCatch (rmdirSync externalPath true) (fun _ => ret tt)
      else ret tt
  end.

Definition syncFolder (folder : TAbstractFile) : M unit :=
  tryCatch
    (if negb (shouldSyncFile settings (pathOf folder)) then ret tt
     else
       match resolved (getExternalPath settings (pathOf folder)) with
       | None => ret tt
       | Some destPath =>
           dirExists <- existsSync destPath ;;
           when (negb dirExists) (mkdirSync destPath)
       end)
    (fun _ => ret tt).

(** The result is [None] for [undefined]. *)
Definition handleFileRename (oldPath newPath : string) : M (option bool) :=
  tryCatch
    (match resolved (getExternalPath settings oldPath),
           resolved (getExternalPath settings newPath) with
     | Some oldExternalPath, Some newExternalPath =>
         sourceExists <- existsSync oldExternalPath ;;
         if sourceExists then
           let newParentDir := Path.dirname newExternalPath in
           parentExists <- existsSync newParentDir ;;
           when (negb parentExists) (mkdirSync newParentDir) ;;;
           renameSync oldExternalPath newExternalPath ;;;
           ret (Some true)
         else ret (Some false)
     | _, _ => ret None
     end)
    (fun _ => ret (Some false)).

End Engine.

(** ** [DirectorySync] ([directorySync.ts]) *)

Section Directory.

Variable settings : SyncRepSettings.

Definition isNone {A} (o : option A) : bool :=
  match o with None => true | Some _ => false end.

(** [fs.watch(p, { recursive }, callback)] followed by
    [this.fileWatchers.push(watcher)]. *)
Definition fsWatch (p : string) (recursive : bool) : M unit :=
  w <- get ;;
  if recursive && negb (recursiveWatchSupported w) then
    throw "ERR_FEATURE_UNAVAILABLE_ON_PLATFORM"
  else match fsLookup (extfs w) p with
       | Some _ => put (withWatchers (fileWatchers w ++ [(p, recursive)]) w)
       | None => throw "ENOENT: no such file or directory"
       end.

Definition closeFileWatchers : M unit :=
  w <- get ;; put (withWatchers [] w).

Definition isDirectoryWatched (dirPath : string) : bool := false.

(** The try block of [syncDirectoryFromExternal] for one file entry. *)
Definition syncFileEntry (entry : enode)
    (normalizedEntryRelativePath : string) : M unit :=
  let isBinaryFile := isBinaryFileType normalizedEntryRelativePath in
  tryCatch
    (content <-
       readFileOf (Some entry) (if isBinaryFile then Buffer else Utf8) ;;
     existingFile <- getAbstractFileByPath normalizedEntryRelativePath ;;
     syncContent isBinaryFile normalizedEntryRelativePath content existingFile)
    (fun _ => ret tt).

(** [relativeDirPath ? path.join(relativeDirPath, name) : name] *)
Definition entryRelativePath (relativeDirPath name : string) : string :=
  if Js.truthy relativeDirPath then Path.join relativeDirPath name else name.

(** The body of the [for] loop of [syncDirectoryFromExternal]; [recur] is
    the function itself, for the sub-directories. *)
Definition syncEntry (recur : enode -> string -> M unit)
    (relativeDirPath : string) (e : string * enode) : M unit :=
  let '(name, entry) := e in
  let normalizedEntryRelativePath :=
    Js.replaceBackslashes (entryRelativePath relativeDirPath name) in
  if negb (shouldSyncFile settings normalizedEntryRelativePath) then ret tt
  else match entry with
       | EDir _ => recur entry normalizedEntryRelativePath
       | EFile _ => syncFileEntry entry normalizedEntryRelativePath
       | EOther => ret tt
       end.

(** [const existingDir = getAbstractFileByPath(p);
     if (!existingDir) await ensureVaultDirectory(p)] *)
Definition createIfMissing (p : string) : M unit :=
  existingDir <- getAbstractFileByPath p ;;
  when (isNone existingDir) (ensureVaultDirectory p).

(** [dir] is the external directory at [dirPath]. *)
Fixpoint syncDirectoryFromExternal (dir : enode) (relativeDirPath : string)
  {struct dir} : M unit :=
  tryCatch
    (if negb (shouldSyncFile settings relativeDirPath) then ret tt
     else
       createIfMissing relativeDirPath ;;;
       match dir with
       | EDir (Some entries) =>
           forEach (syncEntry syncDirectoryFromExternal relativeDirPath)
                   entries
       | _ => throw "readdir failed"
       end)
    (fun message => throw message).

(** The body of the [for] loop of [scanAndCreateAllDirectories]. *)
Definition scanEntry (recur : enode -> string -> M unit)
    (relativePath : string) (e : string * enode) : M unit :=
  let '(name, entry) := e in
  if isDirectory entry then recur entry (entryRelativePath relativePath name)
  else ret tt.

(** The first part of [scanAndCreateAllDirectories]: the directory itself;
    the result tells whether its entries are to be explored. *)
Definition scanDirectoryItself (relativePath : string) : M bool :=
  if Js.truthy relativePath then
    let normalizedRelativePath := Js.replaceBackslashes relativePath in
    if shouldSyncFile settings normalizedRelativePath then
      createIfMissing normalizedRelativePath ;;; ret true
    else ret false
  else ret true.

(** [base] is the external directory at [basePath], which exists. *)
Fixpoint scanAndCreateAllDirectories (base : enode) (relativePath : string)
  {struct base} : M unit :=
  tryCatch
    (explore <- scanDirectoryItself relativePath ;;
     if explore then
       match base with
       | EDir (Some entries) =>
           forEach (scanEntry scanAndCreateAllDirectories relativePath)
                   entries
       | _ => throw "readdir failed"
       end
     else ret tt)
    (fun _ => ret tt).

Definition scanAndCreateAllDirectoriesAt (basePath relativePath : string)
  : M unit :=
  found <- existsSync basePath ;;
  if found then
    base <- nodeAt basePath ;; scanAndCreateAllDirectories base relativePath
  else ret tt.

Definition syncDirectoryFromExternalAt (dirPath relativeDirPath : string)
  : M unit :=
  dir <- nodeAt dirPath ;; syncDirectoryFromExternal dir relativeDirPath.

(** [normalizedRelativePath || path.basename(externalFolder)] *)
Definition externalFolderRelativePath (externalFolder : string) : string :=
  let relativePath :=
    Path.relative (syncFolderPath settings) externalFolder in
  let normalizedRelativePath := Js.replaceBackslashes relativePath in
  if Js.truthy normalizedRelativePath then normalizedRelativePath
  else Path.basename externalFolder.

(** Step 1 of the full synchronisation: the structure of the folders. *)
Definition createDirectoryStructure : M unit :=
  scanAndCreateAllDirectoriesAt (syncFolderPath settings) "" ;;;
  forEach
    (fun externalFolder =>
       found <- existsSync externalFolder ;;
       if found then
         scanAndCreateAllDirectoriesAt
           externalFolder (externalFolderRelativePath externalFolder)
       else ret tt)
    (externalIncludedFolders settings).

(** Step 2: the files. *)
Definition synchronizeFiles : M unit :=
  syncDirectoryFromExternalAt (syncFolderPath settings) "" ;;;
  forEach
    (fun externalFolder =>
       found <- existsSync externalFolder ;;
       if found then
         syncDirectoryFromExternalAt
           externalFolder (externalFolderRelativePath externalFolder)
       else ret tt)
    (externalIncludedFolders settings).

Definition syncAllExternalDirectories : M unit :=
  configured <-
    (if Js.truthy (syncFolderPath settings)
     then existsSync (syncFolderPath settings) else ret false) ;;
  if negb configured then ret tt
  else tryCatch (createDirectoryStructure ;;; synchronizeFiles)
                (fun _ => ret tt).

Definition handleExternalDirectoryCreation (fullPath relativePath : string)
  : M unit :=
  tryCatch
    (if negb (shouldSyncFile settings relativePath) then ret tt
     else
       createIfMissing relativePath ;;;
       syncDirectoryFromExternalAt fullPath relativePath)
    (fun _ => ret tt).

Definition checkForRenamedDirectory (oldRelativePath : string) : M bool :=
  ret false.

Definition moveFolderToTrash (folderPath : string) : M unit :=
  tryCatch
    (folder <- getAbstractFileByPath folderPath ;;
     match folder with
     | Some (TFolder p) =>
         w <- get ;;
         let notesToTrash := filesBelow (vault w) p in
         forEach (fun note => tryCatch (vaultTrash note) (fun _ => ret tt))
                 notesToTrash ;;;
         vaultTrash (TFolder p)
     | _ => ret tt
     end)
    (fun _ => ret tt).

Definition handleExternalDirectoryDeletion (relativePath : string)
  : M unit :=
  tryCatch
    (if negb (shouldSyncFile settings relativePath) then ret tt
     else
       wasRenamed <- checkForRenamedDirectory relativePath ;;
       if wasRenamed then ret tt
       else
         existingDir <- getAbstractFileByPath relativePath ;;
         match existingDir with
         | Some (TFolder _) => moveFolderToTrash relativePath
         | _ => ret tt
         end)
    (fun _ => ret tt).

(** The recursion of [moveDirectoryContents] re-reads the source from the
    store at every level; [fuel] bounds its depth. *)
Fixpoint moveDirectoryContents (fuel : nat) (sourceDir targetDir : string)
  : M unit :=
  match fuel with
  | O => throw "ENAMETOOLONG: recursion too deep"
  | S fuel' =>
      tryCatch
        (targetExists <- existsSync targetDir ;;
         when (negb targetExists) (mkdirSync targetDir) ;;;
         entries <- fsReaddir sourceDir ;;
         forEach
           (fun '(name, entry) =>
              let sourcePath := Path.join sourceDir name in
              let targetPath := Path.join targetDir name in
              if isDirectory entry then
                moveDirectoryContents fuel' sourcePath targetPath ;;;
                tryCatch
                  (remainingFiles <- fsReaddir sourcePath ;;
                   when (Nat.eqb (length remainingFiles) 0)
                        (rmdirSync sourcePath false))
                  (fun _ => ret tt)
              else if isFile entry then
                copyFileSync sourcePath targetPath ;;;
                unlinkSync sourcePath
              else ret tt)
           entries)
        (fun message => throw message)
  end.

(** The height of a tree bounds the depth of the directories in it. *)
Fixpoint height (n : enode) : nat :=
  match n with
  | EDir (Some entries) =>
      S (list_max (List.map (fun '(_, entry) => height entry) entries))
  | _ => 1
  end.

Definition handleFolderRename (folder : TAbstractFile) (oldPath : string)
  : M unit :=
  tryCatch
    (match resolved (getExternalPath settings oldPath),
           resolved (getExternalPath settings (pathOf folder)) with
     | Some oldExternalPath, Some newExternalPath =>
         sourceExists <- existsSync oldExternalPath ;;
         targetExists <- existsSync newExternalPath ;;
         if sourceExists then
           if targetExists then
             source <- nodeAt oldExternalPath ;;
             moveDirectoryContents
               (height source) oldExternalPath newExternalPath
           else renameSync oldExternalPath newExternalPath
         else when (negb targetExists) (mkdirSync newExternalPath)
     | _, _ => ret tt
     end)
    (fun _ => ret tt).

Definition handleFolderDeletion (folderPath : string) : M unit :=
  tryCatch
    (if negb (shouldSyncFile settings folderPath) then ret tt
     else
       match resolved (getExternalPath settings folderPath) with
       | None => ret tt
       | Some externalPath =>
           dirExists <- existsSync externalPath ;;
           when dirExists (openModal (ConfirmRmdir externalPath))
       end)
    (fun _ => ret tt).

(** [dir] is the external directory at [dirPath]. *)
Fixpoint watchDirectory (dir : enode) (dirPath : string) {struct dir}
  : M unit :=
  tryCatch
    (fsWatch dirPath false ;;;
     tryCatch
       (match dir with
        | EDir (Some entries) =>
            forEach
              (fun '(name, entry) =>
                 if isDirectory entry then
                   let subDirPath := Path.join dirPath name in
                   let relativePath :=
                     Js.replaceBackslashes
                       (Path.relative (syncFolderPath settings) subDirPath) in
                   if negb (isExcluded settings relativePath)
                      && negb (isDirectoryWatched subDirPath)
                   then watchDirectory entry subDirPath
                   else ret tt
                 else ret tt)
              entries
        | _ => throw "readdir failed"
        end)
       (fun _ => ret tt))
    (fun _ => ret tt).

Definition watchDirectoryAt (dirPath : string) : M unit :=
  dir <- nodeAt dirPath ;; watchDirectory dir dirPath.

(** The callback that [setupExternalWatcher] registers on the external
    root; [filename] is [None] for [null], and [if (!filename) return]
    leaves on the empty string as well. *)
Definition onExternalEvent (eventType : string) (filename : option string)
  : M unit :=
  match filename with
  | None => ret tt
  | Some filename =>
      if negb (Js.truthy filename) then ret tt else
      processing <- getProcessingExternalChange ;;
      if processing then ret tt
      else
        let normalizedFilename := Js.replaceBackslashes filename in
        if isExcluded settings normalizedFilename then ret tt
        else
          let fullPath := Path.join (syncFolderPath settings) filename in
          tryCatch
            (stats <- fsStat fullPath ;;
             if isDirectory stats then
               when (negb (isDirectoryWatched fullPath))
                    (watchDirectoryAt fullPath) ;;;
               when (String.eqb eventType "rename")
                    (handleExternalDirectoryCreation
                       fullPath normalizedFilename)
             else
               setTimeout
                 (TaskExternalFileChange fullPath normalizedFilename) 500)
            (fun _ =>
               if String.eqb eventType "rename" then
                 let dirPath := Path.dirname fullPath in
                 let baseName := Path.basename fullPath in
                 tryCatch
                   (parentDirEntries <- fsReaddir dirPath ;;
                    let dirExists :=
                      existsb (fun '(name, entry) =>
                                 isDirectory entry && String.eqb name baseName)
                              parentDirEntries in
                    if negb dirExists then
                      let relativeDirPath :=
                        Js.replaceBackslashes
                          (Path.relative (syncFolderPath settings) fullPath) in
                      existingDir <- getAbstractFileByPath relativeDirPath ;;
                      match existingDir with
                      | Some (TFolder _) =>
                          handleExternalDirectoryDeletion relativeDirPath
                      | _ =>
                          handleExternalFileDeletion
                            settings normalizedFilename
                      end
                    else ret tt)
                   (fun _ =>
                      handleExternalFileDeletion settings normalizedFilename)
               else ret tt)
  end.

(** The callback that [watchDirectory] registers on [dirPath]. *)
Definition onDirectoryEvent (dirPath eventType : string)
    (filename : option string) : M unit :=
  match filename with
  | None => ret tt
  | Some filename =>
      if negb (Js.truthy filename) then ret tt else
      processing <- getProcessingExternalChange ;;
      if processing then ret tt
      else
        let fullPath := Path.join dirPath filename in
        let relativePath :=
          Js.replaceBackslashes
            (Path.relative (syncFolderPath settings) fullPath) in
        if isExcluded settings relativePath then ret tt
        else
          tryCatch
            (stats <- fsStat fullPath ;;
             if isDirectory stats then
               when (negb (isDirectoryWatched fullPath))
                    (watchDirectoryAt fullPath)
             else
               setTimeout (TaskExternalFileChange fullPath relativePath) 500)
            (fun _ =>
               if String.eqb eventType "rename" then
                 handleExternalFileDeletion settings relativePath
               else ret tt)
  end.

Definition setupFallbackWatcher : M unit :=
  tryCatch (watchDirectoryAt (syncFolderPath settings)) (fun _ => ret tt).

Definition setupExternalWatcher : M unit :=
  closeFileWatchers ;;;
  configured <-
    (if Js.truthy (syncFolderPath settings)
     then existsSync (syncFolderPath settings) else ret false) ;;
  if negb configured then ret tt
  else tryCatch (fsWatch (syncFolderPath settings) true)
                (fun _ => setupFallbackWatcher).

(** What a timer runs when it fires. *)
Definition runTask (t : task) : M unit :=
  match t with
  | TaskExternalFileChange fullPath relativePath =>
      handleExternalFileChange settings fullPath relativePath
  | TaskClearGuard => setProcessingExternalChange false
  end.

(** ** [SyncRepPlugin] ([main.ts]) *)

Definition syncFromExternal : M unit :=
  configured <-
    (if Js.truthy (syncFolderPath settings)
     then existsSync (syncFolderPath settings) else ret false) ;;
  if negb configured then ret tt
  else
    tryCatch
      (setProcessingExternalChange true ;;;
       tryFinally syncAllExternalDirectories
                  (setTimeout TaskClearGuard 500))
      (fun _ => ret tt).

Definition isTFile (f : TAbstractFile) : bool :=
  match f with TFile _ => true | TFolder _ => false end.

(** The handlers that [registerFileEvents] registers on the vault. *)
Definition onModify (file : TAbstractFile) : M unit :=
  if isTFile file && syncOnSave settings
     && shouldSyncFile settings (pathOf file)
  then syncFile settings file else ret tt.

Definition onCreate (file : TAbstractFile) : M unit :=
  match file with
  | TFile p =>
      if shouldSyncFile settings p then syncFile settings file else ret tt
  | TFolder p =>
      if shouldSyncFile settings p then syncFolder settings file else ret tt
  end.

Definition onDelete (file : TAbstractFile) : M unit :=
  match file with
  | TFile p =>
      if shouldSyncFile settings p then handleFileDeletion settings p
      else ret tt
  | TFolder p =>
      if shouldSyncFile settings p then handleFolderDeletion p else ret tt
  end.

Definition onRename (file : TAbstractFile) (oldPath : string) : M unit :=
  match file with
  | TFile p =>
      let oldShouldSync := shouldSyncFile settings oldPath in
      let newShouldSync := shouldSyncFile settings p in
      if oldShouldSync && newShouldSync then
        renamed <- handleFileRename settings oldPath p ;;
        match renamed with
        | Some true => ret tt
        | _ => syncFile settings file
        end
      else if oldShouldSync then handleFileDeletion settings oldPath
      else if newShouldSync then syncFile settings file
      else ret tt
  | TFolder p =>
      if shouldSyncFile settings oldPath || shouldSyncFile settings p
      then handleFolderRename file oldPath
      else ret tt
  end.

End Directory.

(** [SyncRepPlugin.syncAllFiles]: the outbound full synchronisation. *)
Section Plugin.

Variable settings : SyncRepSettings.

(** [vault.getFiles()]: the host decides in which order the files of the
    vault are listed, so the enumeration is a parameter. *)
Variable getFiles : gmap string vnode -> list TAbstractFile.

Definition syncAllFiles : M unit :=
  if negb (Js.truthy (syncFolderPath settings)) then ret tt
  else
    tryCatch
      (rootExists <- existsSync (syncFolderPath settings) ;;
       when (negb rootExists) (mkdirSync (syncFolderPath settings)) ;;;
       w <- get ;;
       let files := getFiles (vault w) in
       forEach
         (fun file =>
            if shouldSyncFile settings (pathOf file)
            then syncFile settings file else ret tt)
         files)
      (fun _ => ret tt).

End Plugin.

(** An enumeration of the files of a vault, in the order of the keys. *)
Definition vaultFiles (v : gmap string vnode) : list TAbstractFile :=
  omap (fun kv => match kv.2 with
                  | VFile _ => Some (TFile kv.1)
                  | VFolder => None
                  end)
       (map_to_list v).

(** The settings with another list of excluded folders. *)
Definition withExcludedFolders (excluded : list string)
    (s : SyncRepSettings) : SyncRepSettings := {|
  syncFolderPath := syncFolderPath s;
  syncOnSave := syncOnSave s;
  syncInterval := syncInterval s;
  excludedFolders := excluded;
  includedFolders := includedFolders s;
  externalIncludedFolders := externalIncludedFolders s;
  syncMode := syncMode s;
  debugMode := debugMode s;
  highlightColor := highlightColor s
|}.

(** ** Vocabulary of the statements *)

(** A logged call that did not throw. *)
Definition succeeded (c : call * bool) : Prop := c.2 = true.

(** The calls that write the content of a managed file. *)
Definition isFileWrite (c : call) : bool :=
  match c with
  | VaultCreate _ _ | VaultCreateBinary _ _
  | VaultModify _ _ | VaultModifyBinary _ _ => true
  | _ => false
  end.

(** The calls that write to the managed store. *)
Definition isVaultWrite (c : call) : bool :=
  match c with
  | VaultCreateFolder _ => true
  | _ => isFileWrite c
  end.

Definition isCreateFolder (c : call) : bool :=
  match c with VaultCreateFolder _ => true | _ => false end.

(** The managed path a file write targets. *)
Definition fileWritePath (c : call) : option string :=
  match c with
  | VaultCreate p _ | VaultCreateBinary p _
  | VaultModify p _ | VaultModifyBinary p _ => Some p
  | _ => None
  end.

(** An operation left both stores alone: no call, no pending
    confirmation, the two stores as they were. *)
Definition untouched {A} (w : world) (r : run A) : Prop :=
  issued r = [] /\ vault (after r) = vault w /\ extfs (after r) = extfs w
  /\ modals (after r) = modals w.

(** The paths that [ensureVaultDirectory] looks up, in order. *)
Fixpoint ensurePathsFrom (currentPath : string) (dirs : list string)
  : list string :=
  match dirs with
  | [] => []
  | dir :: rest =>
      let currentPath := nextPath currentPath dir in
      currentPath :: ensurePathsFrom currentPath rest
  end.

Definition ensurePaths (dirPath : string) : list string :=
  ensurePathsFrom "" (Js.split "/" dirPath).

(** What the engine reads of a file at [p] that holds [data]: its bytes
    for a binary extension, its text otherwise. *)
Definition contentOf (p data : string) : string :=
  decodeAs (if isBinaryFileType p then Buffer else Utf8) data.

(** What a walk of the external store asks of the managed store: a path
    that is occupied (by itself or down to its last segment), a file that
    reads as a given content. *)
Inductive item :=
| NeedDir (p : string)
| NeedFile (p content : string).

Definition occupied (v : gmap string vnode) (p : string) : Prop :=
  is_Some (v !! p).

Definition satisfied (v : gmap string vnode) (i : item) : Prop :=
  match i with
  | NeedDir p => occupied v p \/ Forall (occupied v) (ensurePaths p)
  | NeedFile p content =>
      exists data, v !! p = Some (VFile data) /\ contentOf p data = content
  end.

(** The items a walk visits and the way it ends, when no call to the
    managed store fails: both depend on the external store only. *)
Definition plan : Type := list item * outcome unit.

Definition planSeq (a b : plan) : plan :=
  match snd a with
  | Ok _ => (fst a ++ fst b, snd b)
  | Throw e => (fst a, Throw e)
  end.

Fixpoint planEach {A} (f : A -> plan) (l : list A) : plan :=
  match l with
  | [] => ([], Ok tt)
  | x :: l' => planSeq (f x) (planEach f l')
  end.

Definition planCatch (a : plan) : plan := (fst a, Ok tt).

Definition nodeOf (fs : enode) (p : string) : enode :=
  default EOther (fsLookup fs p).

Section Plans.

Variable settings : SyncRepSettings.

Definition syncEntryPlan (recur : enode -> string -> plan)
    (relativeDirPath : string) (e : string * enode) : plan :=
  let '(name, entry) := e in
  let p := Js.replaceBackslashes (entryRelativePath relativeDirPath name) in
  if negb (shouldSyncFile settings p) then ([], Ok tt)
  else match entry with
       | EDir _ => recur entry p
       | EFile (Some data) => ([NeedFile p (contentOf p data)], Ok tt)
       | _ => ([], Ok tt)
       end.

Fixpoint syncPlan (dir : enode) (relativeDirPath : string) {struct dir}
  : plan :=
  if negb (shouldSyncFile settings relativeDirPath) then ([], Ok tt)
  else
    planSeq ([NeedDir relativeDirPath], Ok tt)
      match dir with
      | EDir (Some entries) =>
          planEach (syncEntryPlan syncPlan relativeDirPath) entries
      | _ => ([], Throw "readdir failed")
      end.

Definition scanEntryPlan (recur : enode -> string -> plan)
    (relativePath : string) (e : string * enode) : plan :=
  let '(name, entry) := e in
  if isDirectory entry then recur entry (entryRelativePath relativePath name)
  else ([], Ok tt).

Fixpoint scanPlan (base : enode) (relativePath : string) {struct base}
  : plan :=
  let entriesPlan :=
    match base with
    | EDir (Some entries) =>
        planEach (scanEntryPlan scanPlan relativePath) entries
    | _ => ([], Throw "readdir failed")
    end in
  planCatch
    (if Js.truthy relativePath then
       let normalizedRelativePath := Js.replaceBackslashes relativePath in
       if shouldSyncFile settings normalizedRelativePath then
         planSeq ([NeedDir normalizedRelativePath], Ok tt) entriesPlan
       else ([], Ok tt)
     else entriesPlan).

Definition exists_ (fs : enode) (p : string) : bool :=
  match fsLookup fs p with Some _ => true | None => false end.

(** The directories that step 1 of the full synchronisation visits. *)
Definition structurePlan (fs : enode) : plan :=
  planSeq
    (if exists_ fs (syncFolderPath settings)
     then scanPlan (nodeOf fs (syncFolderPath settings)) "" else ([], Ok tt))
    (planEach
       (fun externalFolder =>
          if exists_ fs externalFolder then
            scanPlan (nodeOf fs externalFolder)
                     (externalFolderRelativePath settings externalFolder)
          else ([], Ok tt))
       (externalIncludedFolders settings)).

(** The directories and files that step 2 visits. *)
Definition filesPlan (fs : enode) : plan :=
  planSeq
    (syncPlan (nodeOf fs (syncFolderPath settings)) "")
    (planEach
       (fun externalFolder =>
          if exists_ fs externalFolder then
            syncPlan (nodeOf fs externalFolder)
                     (externalFolderRelativePath settings externalFolder)
          else ([], Ok tt))
       (externalIncludedFolders settings)).

Definition fullSyncPlan (fs : enode) : plan :=
  if Js.truthy (syncFolderPath settings)
     && exists_ fs (syncFolderPath settings)
  then planCatch (planSeq (structurePlan fs) (filesPlan fs))
  else ([], Ok tt).

End Plans.

(** No two external files that a walk visits are mapped to one managed
    path with different contents. *)
Definition consistentTargets (I : list item) : Prop :=
  forall p d d', NeedFile p d ∈ I -> NeedFile p d' ∈ I -> d = d'.

(** The managed store only gained entries: what was there is still
    there, a folder is still a folder, a file that reads as [I] asks
    still does, and a path that was free is free, or a folder, or a file
    that reads as [I] asks. *)
Definition grows (I : list item) (w w' : world) : Prop :=
  w' = withVault (vault w') w
  /\ (forall p, occupied (vault w) p -> occupied (vault w') p)
  /\ (forall p c, NeedFile p c ∈ I ->
        satisfied (vault w) (NeedFile p c) ->
        satisfied (vault w') (NeedFile p c))
  /\ (forall p, vault w !! p = Some VFolder -> vault w' !! p = Some VFolder)
  /\ (forall p, vault w !! p = None ->
        vault w' !! p = None \/ vault w' !! p = Some VFolder
        \/ exists c, NeedFile p c ∈ I
                     /\ satisfied (vault w') (NeedFile p c)).

(** The targets of [I] are consistent, decided. *)
Fixpoint targetOf (I : list item) (p : string) : option string :=
  match I with
  | [] => None
  | NeedFile q d :: rest => if String.eqb q p then Some d else targetOf rest p
  | NeedDir _ :: rest => targetOf rest p
  end.

Definition consistentTargetsb (I : list item) : bool :=
  forallb (fun i => match i with
                    | NeedFile p d =>
                        match targetOf I p with
                        | Some d' => String.eqb d d'
                        | None => false
                        end
                    | NeedDir _ => true
                    end) I.

(** [m] carries out [pl] over the external store [fs]: when none of its
    calls fails it ends as planned with every item satisfied, and where
    every item is satisfied already it issues no call. *)
Definition follows (fs : enode) (I : list item) (m : M unit) (pl : plan)
  : Prop :=
  (forall w,
      extfs w = fs ->
      Forall succeeded (issued (m w)) ->
      (forall i, i ∈ fst pl -> i ∈ I) ->
      grows I w (after (m w))
      /\ Forall (satisfied (vault (after (m w)))) (fst pl)
      /\ value (m w) = snd pl)
  /\ (forall w,
        extfs w = fs ->
        Forall (satisfied (vault w)) (fst pl) -> m w = Run (snd pl) w []).

(** An operation that changes nothing of the world but the vault. *)
Definition vaultOnly {A} (m : M A) : Prop :=
  forall w, after (m w) = withVault (vault (after (m w))) w.

(** Every call that an operation issues satisfies [Q], from any world. *)
Definition issuesOnly {A} (Q : call * bool -> Prop) (m : M A) : Prop :=
  forall w, Forall Q (issued (m w)).

(** A call that is no file write, or a file write to a path that passes
    the policy. *)
Definition withinPolicy (s : SyncRepSettings) (c : call * bool) : Prop :=
  forall q, fileWritePath c.1 = Some q -> shouldSyncFile s q = true.

(** A call that is no file write, or a file write to the path [p]. *)
Definition writesAt (p : string) (c : call * bool) : Prop :=
  forall q, fileWritePath c.1 = Some q -> q = p.

(** An external tree without regular files. *)
Fixpoint noFiles (n : enode) : bool :=
  match n with
  | EFile _ => false
  | EDir (Some entries) => forallb (fun '(_, entry) => noFiles entry) entries
  | _ => true
  end.

(** From one world to another, the external store is the same and the
    folders of the vault are still folders. *)
Definition keeps (w w' : world) : Prop :=
  extfs w' = extfs w
  /\ forall p, vault w !! p = Some VFolder -> vault w' !! p = Some VFolder.

(** An operation after which this holds, from any world. *)
Definition keeping {A} (m : M A) : Prop := forall w, keeps w (after (m w)).

(** An operation under which a property of the world is kept. *)
Definition preserves {A} (Inv : world -> Prop) (m : M A) : Prop :=
  forall w, Inv w -> Inv (after (m w)).

(** The items that ask for a directory. *)
Definition isNeedDir (i : item) : bool :=
  match i with NeedDir _ => true | NeedFile _ _ => false end.

(** ** Concrete stores and settings for the examples *)

Definition settingsAll (excluded : list string) : SyncRepSettings := {|
  syncFolderPath := "/ext";
  syncOnSave := true;
  syncInterval := 0;
  excludedFolders := excluded;
  includedFolders := [];
  externalIncludedFolders := [];
  syncMode := ModeAll;
  debugMode := false;
  highlightColor := "#50fa7b"
|}.

Definition settingsInclude (included external : list string)
  : SyncRepSettings := {|
  syncFolderPath := "/ext";
  syncOnSave := true;
  syncInterval := 0;
  excludedFolders := ["docs"];
  includedFolders := included;
  externalIncludedFolders := external;
  syncMode := ModeInclude;
  debugMode := false;
  highlightColor := "#50fa7b"
|}.

Definition worldOf (v : gmap string vnode) (fs : enode) : world := {|
  vault := v;
  vaultFaults := [];
  extfs := fs;
  isProcessingExternalChange := false;
  timers := [];
  modals := [];
  fileWatchers := [];
  recursiveWatchSupported := true
|}.

Definition dirOf (l : list (string * enode)) : enode := EDir (Some l).
Definition fileOf (data : string) : enode := EFile (Some data).

(** [/ext] holds a folder [private] with one note. *)
Definition privateStore : enode :=
  dirOf [("ext", dirOf [("private", dirOf [("f.md", fileOf "secret")])])].

(** [/ext] holds a file named [notes]; the vault holds a folder of that
    name. *)
Definition notesStore : enode :=
  dirOf [("ext", dirOf [("notes", fileOf "n")])].

Definition notesVault : gmap string vnode := {["notes" := VFolder]}.

(** [/ext] holds a directory that cannot be listed, then a note. *)
Definition lockedStore : enode :=
  dirOf [("ext", dirOf [("a", EDir None); ("b.md", fileOf "bee")])].

(** [/ext] holds the folder [old] (a note, a sub-folder with a note) and
    an empty folder [new]. *)
Definition mergeStore : enode :=
  dirOf [("ext",
          dirOf [("old", dirOf [("f.md", fileOf "1");
                                ("sub", dirOf [("g.md", fileOf "2")])]);
                 ("new", dirOf [])])].

(** [/ext] holds a note, a picture, a folder with a note and an empty
    folder. *)
Definition sampleStore : enode :=
  dirOf [("ext",
          dirOf [("a", dirOf [("x.md", fileOf "hello"); ("e", dirOf [])]);
                 ("b.md", fileOf "bee");
                 ("img.png", fileOf "PNG")])].

(** [/ext] holds only an empty folder. *)
Definition emptyDirStore : enode :=
  dirOf [("ext", dirOf [("e", dirOf [])])].



(** The external root configured as an external folder of its own: its
    content is mirrored under the vault folder [ext] as well. *)
Definition settingsAlias : SyncRepSettings := {|
  syncFolderPath := "/ext";
  syncOnSave := true;
  syncInterval := 0;
  excludedFolders := [];
  includedFolders := [];
  externalIncludedFolders := ["/ext"];
  syncMode := ModeAll;
  debugMode := false;
  highlightColor := "#50fa7b"
|}.

(** [/ext/x.md] and [/ext/ext/x.md] differ. *)
Definition aliasStore : enode :=
  dirOf [("ext", dirOf [("x.md", fileOf "1");
                        ("ext", dirOf [("x.md", fileOf "2")])])].

(** The external folder [/ext/shared/docs] is mirrored under the vault
    folder [docs], which is excluded. *)
Definition settingsShared : SyncRepSettings := {|
  syncFolderPath := "/ext";
  syncOnSave := true;
  syncInterval := 0;
  excludedFolders := ["docs"];
  includedFolders := [];
  externalIncludedFolders := ["/ext/shared/docs"];
  syncMode := ModeAll;
  debugMode := false;
  highlightColor := "#50fa7b"
|}.

Definition sharedStore : enode :=
  dirOf [("ext",
          dirOf [("shared",
                  dirOf [("docs", dirOf [("x.md", fileOf "leak")])])])].

(** [/ext/a/b] holds a folder and a note. *)
Definition nestedStore : enode :=
  dirOf [("ext",
          dirOf [("a", dirOf [("b", dirOf [("c", dirOf []);
                                           ("n.md", fileOf "nested")])])])].


(** * Properties *)

(** ** The path policy *)

Section PolicyFacts.

Variable s : SyncRepSettings.

Lemma isIncludedIn_member (folders : list string) (p f : string) :
  f ∈ folders -> isUnder p f = true -> isIncludedIn folders p = true.
Proof.
  induction 1 as [f rest | f g rest _ IH]; intros Hunder; simpl.
  - destruct (String.eqb f ""); [reflexivity |]. now rewrite Hunder.
  - destruct (String.eqb g ""); [reflexivity |].
    destruct (isUnder p g); [reflexivity | now apply IH].
Qed.

Lemma isExternalIncludedIn_member (folders : list string) (p e : string) :
  e ∈ folders -> isUnder p (Path.basename e) = true ->
  isExternalIncludedIn folders p = true.
Proof.
  induction 1 as [e rest | e g rest _ IH]; intros Hunder; simpl.
  - now rewrite Hunder.
  - destruct (isUnder p (Path.basename g)); [reflexivity | now apply IH].
Qed.

(** C10. In 'include' mode the policy never reads the list of excluded
    folders: a path that is an included folder or lies under one, or that
    is or lies under the folder named after a configured external folder,
    is synchronised, whatever the excluded folders are. *)
Theorem include_mode_ignores_exclusions (p : string) :
  syncMode s = ModeInclude ->
  (exists f, f ∈ includedFolders s /\ isUnder p f = true)
  \/ (exists e, e ∈ externalIncludedFolders s
                /\ isUnder p (Path.basename e) = true) ->
  shouldSyncFile s p = true
  /\ forall excluded,
       shouldSyncFile (withExcludedFolders excluded s) p = shouldSyncFile s p.
Proof.
  intros Hmode Hunder. split.
  - unfold shouldSyncFile. rewrite Hmode.
    destruct Hunder as [(f & Hin & Hu) | (e & Hin & Hu)].
    + unfold isIncluded. now rewrite (isIncludedIn_member _ _ _ Hin Hu).
    + unfold isExternalIncluded.
      rewrite (isExternalIncludedIn_member _ _ _ Hin Hu).
      apply orb_true_r.
  - intros excluded. unfold shouldSyncFile. simpl. now rewrite Hmode.
Qed.

End PolicyFacts.

(** A note under a folder that is both included and excluded. *)
Lemma include_mode_ignores_exclusions_witness :
  isExcluded (settingsInclude ["docs"] []) "docs/a.md" = true
  /\ shouldSyncFile (settingsInclude ["docs"] []) "docs/a.md" = true.
Proof.
  split; [reflexivity |].
  apply (include_mode_ignores_exclusions
           (settingsInclude ["docs"] []) "docs/a.md").
  - reflexivity.
  - left. exists "docs". split; [constructor | reflexivity].
Defined.

(** ** The monad *)

Lemma run_eta {A} (r : run A) : Run (value r) (after r) (issued r) = r.
Proof. now destruct r. Qed.

Lemma bind_ok {A B} (m : M A) (f : A -> M B) (w : world) (a : A) :
  value (m w) = Ok a ->
  bind m f w = Run (value (f a (after (m w)))) (after (f a (after (m w))))
                   (issued (m w) ++ issued (f a (after (m w)))).
Proof. intros H. unfold bind. now rewrite H. Qed.

Lemma bind_throw {A B} (m : M A) (f : A -> M B) (w : world) (e : string) :
  value (m w) = Throw e ->
  bind m f w = Run (Throw e) (after (m w)) (issued (m w)).
Proof. intros H. unfold bind. now rewrite H. Qed.

Lemma bind_noop {A B} (m : M A) (f : A -> M B) (w : world) (a : A) :
  m w = Run (Ok a) w [] -> bind m f w = f a w.
Proof.
  intros H. unfold bind. rewrite H. simpl. apply run_eta.
Qed.

Lemma bind_assoc {A B C} (m : M A) (f : A -> M B) (g : B -> M C) (w : world) :
  bind (bind m f) g w = bind m (fun a => bind (f a) g) w.
Proof.
  unfold bind. destruct (value (m w)); simpl; [|reflexivity].
  destruct (value (f a (after (m w)))); simpl; [|reflexivity].
  now rewrite app_assoc.
Qed.

Lemma tryCatch_rethrow (m : M unit) (w : world) :
  tryCatch m (fun message => throw message) w = m w.
Proof.
  unfold tryCatch, throw. destruct (m w) as [[[]|e] w' t]; simpl;
    [reflexivity |]. now rewrite app_nil_r.
Qed.

Lemma tryCatch_noop {A} (m : M A) (h : string -> M A) (w : world) (a : A) :
  m w = Run (Ok a) w [] -> tryCatch m h w = Run (Ok a) w [].
Proof. intros H. unfold tryCatch. now rewrite H. Qed.

Lemma forEach_app {A} (body : A -> M unit) (l1 l2 : list A) (w : world) :
  forEach body (l1 ++ l2) w
  = bind (forEach body l1) (fun _ => forEach body l2) w.
Proof.
  revert w. induction l1 as [|x l1 IH]; intros w; simpl.
  - unfold bind, ret. simpl. symmetry. apply run_eta.
  - rewrite bind_assoc.
    change (bind (body x) (fun _ => forEach body (l1 ++ l2)) w
            = bind (body x)
                   (fun _ => bind (forEach body l1)
                                  (fun _ => forEach body l2)) w).
    destruct (value (body x w)) as [a|e] eqn:Hx.
    + rewrite !(bind_ok _ _ _ _ Hx). now rewrite IH.
    + now rewrite !(bind_throw _ _ _ _ Hx).
Qed.

(** ** Operations that change the vault only *)

Lemma withVault_withVault v v' w : withVault v (withVault v' w) = withVault v w.
Proof. reflexivity. Qed.

Lemma withVault_id w : withVault (vault w) w = w.
Proof. now destruct w. Qed.

Lemma vaultOnly_ret {A} (a : A) : vaultOnly (ret a).
Proof. intros w. simpl. symmetry. apply withVault_id. Qed.

Lemma vaultOnly_throw {A} (e : string) : vaultOnly (@throw A e).
Proof. intros w. simpl. symmetry. apply withVault_id. Qed.

Lemma vaultOnly_bind {A B} (m : M A) (f : A -> M B) :
  vaultOnly m -> (forall a, vaultOnly (f a)) -> vaultOnly (bind m f).
Proof.
  intros Hm Hf w. unfold bind. destruct (value (m w)) as [a|e]; simpl.
  - etransitivity; [apply Hf |].
    generalize (vault (after (f a (after (m w))))). intros v.
    now rewrite (Hm w).
  - apply Hm.
Qed.

Lemma vaultOnly_tryCatch {A} (m : M A) (h : string -> M A) :
  vaultOnly m -> (forall e, vaultOnly (h e)) -> vaultOnly (tryCatch m h).
Proof.
  intros Hm Hh w. unfold tryCatch. destruct (value (m w)) as [a|e]; simpl.
  - apply Hm.
  - etransitivity; [apply Hh |].
    generalize (vault (after (h e (after (m w))))). intros v.
    now rewrite (Hm w).
Qed.

Lemma vaultOnly_get : vaultOnly get.
Proof. intros w. simpl. symmetry. apply withVault_id. Qed.

Lemma vaultOnly_logCall c ok : vaultOnly (logCall c ok).
Proof. intros w. simpl. symmetry. apply withVault_id. Qed.

Lemma vaultOnly_state {A} (f : world -> M A) :
  (forall w, after (f w w) = withVault (vault (after (f w w))) w) ->
  vaultOnly (bind get f).
Proof. intros H w. unfold bind, get. simpl. apply H. Qed.

Lemma vaultOnly_when (b : bool) (m : M unit) :
  vaultOnly m -> vaultOnly (when b m).
Proof. destruct b; [auto | apply vaultOnly_ret]. Qed.

Lemma vaultOnly_forEach {A} (body : A -> M unit) (l : list A) :
  (forall x, x ∈ l -> vaultOnly (body x)) -> vaultOnly (forEach body l).
Proof.
  induction l as [|x l IH]; intros H; simpl.
  - apply vaultOnly_ret.
  - apply vaultOnly_bind.
    + apply H. constructor.
    + intros _. apply IH. intros y Hy. apply H. now constructor.
Qed.

Create HintDb frame.
#[local] Hint Resolve vaultOnly_ret vaultOnly_throw vaultOnly_get
  vaultOnly_logCall vaultOnly_when : frame.

Lemma vaultOnly_getAbstractFileByPath p : vaultOnly (getAbstractFileByPath p).
Proof. apply vaultOnly_state. intros w. simpl. symmetry. apply withVault_id. Qed.

Lemma vaultOnly_vaultReadBinary f : vaultOnly (vaultReadBinary f).
Proof.
  apply vaultOnly_state. intros w.
  destruct (vault w !! pathOf f) as [[]|]; simpl; symmetry; apply withVault_id.
Qed.

Lemma vaultOnly_vaultRead f : vaultOnly (vaultRead f).
Proof.
  apply vaultOnly_bind; [apply vaultOnly_vaultReadBinary |].
  intros data. apply vaultOnly_ret.
Qed.

Lemma vaultOnly_failing {A} c e : vaultOnly (@failing A c e).
Proof. intros w. simpl. symmetry. apply withVault_id. Qed.

Lemma vaultOnly_vaultCreateAs c p data : vaultOnly (vaultCreateAs c p data).
Proof.
  apply vaultOnly_state. intros w.
  destruct (faulty w p); [apply vaultOnly_failing |].
  destruct (vault w !! p); [apply vaultOnly_failing | reflexivity].
Qed.

Lemma vaultOnly_vaultModifyAs c f data : vaultOnly (vaultModifyAs c f data).
Proof.
  apply vaultOnly_state. intros w.
  destruct (faulty w (pathOf f)); [apply vaultOnly_failing |].
  destruct (vault w !! pathOf f) as [[]|];
    [reflexivity | apply vaultOnly_failing | apply vaultOnly_failing].
Qed.

Lemma vaultOnly_vaultCreateFolder p : vaultOnly (vaultCreateFolder p).
Proof.
  apply vaultOnly_state. intros w.
  destruct (faulty w p); [apply vaultOnly_failing |].
  destruct (vault w !! p); [apply vaultOnly_failing | reflexivity].
Qed.

#[local] Hint Resolve vaultOnly_getAbstractFileByPath vaultOnly_vaultRead
  vaultOnly_vaultReadBinary vaultOnly_vaultCreateAs vaultOnly_vaultModifyAs vaultOnly_vaultCreateFolder
  : frame.

Lemma vaultOnly_ensureVaultDirectoryFrom cur dirs :
  vaultOnly (ensureVaultDirectoryFrom cur dirs).
Proof.
  revert cur. induction dirs as [|dir rest IH]; intros cur; simpl.
  - auto with frame.
  - apply vaultOnly_bind; [auto with frame |]. intros existingDir.
    apply vaultOnly_bind; [| intros _; apply IH].
    destruct existingDir; [auto with frame |].
    apply vaultOnly_tryCatch; [auto with frame |].
    intros e. destruct (_ || _); auto with frame.
Qed.

Lemma vaultOnly_ensureVaultDirectory p : vaultOnly (ensureVaultDirectory p).
Proof. apply vaultOnly_ensureVaultDirectoryFrom. Qed.

Lemma vaultOnly_writeIfDifferent b f content :
  vaultOnly (writeIfDifferent b f content).
Proof.
  unfold writeIfDifferent. apply vaultOnly_bind.
  - destruct b; auto with frame.
  - intros cur. destruct (negb _); [|auto with frame].
    destruct b; unfold vaultModifyBinary, vaultModify; auto with frame.
Qed.

#[local] Hint Resolve vaultOnly_ensureVaultDirectory vaultOnly_writeIfDifferent
  : frame.

Lemma vaultOnly_syncContent b p content existing :
  vaultOnly (syncContent b p content existing).
Proof.
  unfold syncContent.
  assert (Hcreate : vaultOnly
    (let parentDir := Path.dirname p in
     bind (when (Js.truthy parentDir && negb (String.eqb parentDir "."))
                (ensureVaultDirectory parentDir))
       (fun _ =>
          tryCatch
            (if b then vaultCreateBinary p content else vaultCreate p content)
            (fun message =>
               if Js.truthy message && Js.includes message "already exists"
               then bind (sleep 200) (fun _ =>
                      bind (getAbstractFileByPath p) (fun fileAfterError =>
                        match fileAfterError with
                        | Some (TFile p0) =>
                            writeIfDifferent b (TFile p0) content
                        | _ => ret tt
                        end))
               else throw message)))).
  { simpl. apply vaultOnly_bind; [auto with frame |]. intros _.
    apply vaultOnly_tryCatch.
    - destruct b; unfold vaultCreateBinary, vaultCreate; auto with frame.
    - intros e. destruct (_ && _); [|auto with frame].
      apply vaultOnly_bind; [unfold sleep; auto with frame |]. intros _.
      apply vaultOnly_bind; [auto with frame |].
      intros [[]|]; auto with frame. }
  destruct existing as [[]|]; auto with frame.
Qed.

#[local] Hint Resolve vaultOnly_syncContent : frame.

Lemma vaultOnly_vaultTrash f : vaultOnly (vaultTrash f).
Proof.
  apply vaultOnly_state. intros w. cbv zeta.
  destruct (faulty w (pathOf f)); [apply vaultOnly_failing |].
  destruct (vault w !! pathOf f); [reflexivity | apply vaultOnly_failing].
Qed.

Lemma vaultOnly_moveFileToTrash p : vaultOnly (moveFileToTrash p).
Proof.
  apply vaultOnly_tryCatch; [| auto with frame].
  apply vaultOnly_bind; [auto with frame |].
  intros [f|]; [apply vaultOnly_vaultTrash | auto with frame].
Qed.

Lemma vaultOnly_timers {A} (m : M A) (w : world) :
  vaultOnly m -> timers (after (m w)) = timers w.
Proof. intros H. now rewrite (H w). Qed.

Lemma vaultOnly_guard {A} (m : M A) (w : world) :
  vaultOnly m ->
  isProcessingExternalChange (after (m w)) = isProcessingExternalChange w.
Proof. intros H. now rewrite (H w). Qed.

(** ** The change guard *)

Section Guard.

Variable s : SyncRepSettings.

(** C4. A raw watch event that fires while the change guard is set is
    dropped by both watch callbacks (the one on the external root and the
    one registered per directory): the callback returns with the world as
    it was, so that no call is issued, nothing is deferred to a timer and
    no inbound handler runs. *)
Theorem guard_drops_watch_events
    (dirPath eventType : string) (filename : option string) (w : world) :
  isProcessingExternalChange w = true ->
  onExternalEvent s eventType filename w = Run (Ok tt) w []
  /\ onDirectoryEvent s dirPath eventType filename w = Run (Ok tt) w [].
Proof.
  intros Hguard. destruct filename as [filename|]; [|split; reflexivity].
  split.
  - unfold onExternalEvent.
    destruct (negb (Js.truthy filename)); [reflexivity |].
    unfold getProcessingExternalChange, bind, get, ret.
    simpl. now rewrite Hguard.
  - unfold onDirectoryEvent.
    destruct (negb (Js.truthy filename)); [reflexivity |].
    unfold getProcessingExternalChange, bind, get, ret.
    simpl. now rewrite Hguard.
Qed.

(** The part of the two handlers that runs with the guard set. *)
Lemma guarded_body_frame (b : bool) (body : M unit) (w : world) :
  vaultOnly body ->
  let r := tryCatch (bind (setProcessingExternalChange b) (fun _ => body))
                    (fun _ => ret tt) w in
  isProcessingExternalChange (after r) = b /\ timers (after r) = timers w.
Proof.
  intros Hbody. unfold tryCatch, bind, setProcessingExternalChange, get, put.
  simpl.
  pose proof (vaultOnly_guard body (withGuard b w) Hbody) as Hg.
  pose proof (vaultOnly_timers body (withGuard b w) Hbody) as Ht.
  destruct (value (body (withGuard b w))); simpl; auto.
Qed.

(** C5 (where the code departs from the claim).  [handleExternalFileChange]
    sets the guard and clears it in its [finally] block, at once: when the
    handler returns the guard is down and no timer has been added, for
    every input.  Its sibling [handleExternalFileDeletion] does what the
    claim says: it returns with the guard still set and the clearing
    deferred by 500 ms. *)
Theorem handleExternalFileChange_clears_guard_at_once
    (fullPath relativePath : string) (w : world) :
  (let r := handleExternalFileChange s fullPath relativePath w in
   isProcessingExternalChange (after r) = false
   /\ timers (after r) = timers w)
  /\ (let r := handleExternalFileDeletion s relativePath w in
      isProcessingExternalChange (after r) = true
      /\ timers (after r) = timers w ++ [(500, TaskClearGuard)]).
Proof.
  split.
  - unfold handleExternalFileChange, tryFinally.
    match goal with
    | |- context [tryCatch (bind _ (fun _ => ?body)) _ w] =>
        destruct (guarded_body_frame true body w) as [_ Ht]
    end.
    { destruct (negb _); [auto with frame |].
      apply vaultOnly_bind; [auto with frame |]. intros existing.
      apply vaultOnly_tryCatch; [| auto with frame].
      apply vaultOnly_bind; [| auto with frame].
      unfold fsReadFile. apply vaultOnly_bind; [auto with frame |].
      intros w0. unfold readFileOf.
      destruct (fsLookup _ _) as [[[]| |]|]; auto with frame. }
    revert Ht.
    match goal with
    | |- context [tryCatch ?m ?h w] => generalize (tryCatch m h w)
    end.
    intros r0 Ht. simpl. split; [reflexivity | exact Ht].
  - unfold handleExternalFileDeletion, tryFinally.
    match goal with
    | |- context [tryCatch (bind _ (fun _ => ?body)) _ w] =>
        destruct (guarded_body_frame true body w) as [Hg Ht]
    end.
    { destruct (negb _); [auto with frame |].
      apply vaultOnly_bind; [auto with frame |].
      intros [[]|]; auto using vaultOnly_moveFileToTrash with frame. }
    revert Hg Ht.
    match goal with
    | |- context [tryCatch ?m ?h w] => generalize (tryCatch m h w)
    end.
    intros r0 Hg Ht. unfold setTimeout, bind, get, put. simpl.
    split; [exact Hg | now rewrite Ht].
Qed.

End Guard.

(** With the guard set, a change of [b.md] is dropped. *)
Lemma guard_drops_watch_events_witness :
  let w := withGuard true (worldOf ∅ sampleStore) in
  onExternalEvent (settingsAll []) "change" (Some "b.md") w = Run (Ok tt) w []
  /\ onDirectoryEvent (settingsAll []) "/ext" "change" (Some "b.md") w
     = Run (Ok tt) w [].
Proof.
  apply (guard_drops_watch_events (settingsAll []) "/ext" "change"
           (Some "b.md") (withGuard true (worldOf ∅ sampleStore))).
  reflexivity.
Defined.

(** Without the guard the same event defers the handling of the file. *)
Example unguarded_event_is_deferred :
  timers (after (onExternalEvent (settingsAll []) "change" (Some "b.md")
                   (worldOf ∅ sampleStore)))
  = [(500, TaskExternalFileChange "/ext/b.md" "b.md")].
Proof. reflexivity. Qed.

(** [syncFromExternal] returns with the guard set and its clearing
    deferred, as [handleExternalFileDeletion] does; the handling of a
    changed file, run from the same state, returns with the guard down
    and nothing deferred. *)
Example guard_after_inbound_operations :
  let s := settingsAll [] in
  let w := worldOf ∅ sampleStore in
  (let r := syncFromExternal s w in
   isProcessingExternalChange (after r) = true
   /\ timers (after r) = [(500, TaskClearGuard)])
  /\ (let r := handleExternalFileChange s "/ext/b.md" "b.md" w in
      issued r = [(VaultCreate "b.md" "bee", true)]
      /\ isProcessingExternalChange (after r) = false
      /\ timers (after r) = []).
Proof. vm_compute. repeat split. Qed.

(** ** Renaming a folder *)

(** C8 (where the code departs from the claim).  Both [/ext/old] and
    [/ext/new] exist: [handleFolderRename] merges the content of the
    first into the second, file by file and folder by folder, every call
    succeeding; the emptied sub-folder [old/sub] is removed, but the
    merged source [/ext/old] itself is still on disk afterwards, empty. *)
Theorem folder_rename_merge_leaves_empty_source :
  let r := handleFolderRename (settingsAll []) (TFolder "new") "old"
             (worldOf ∅ mergeStore) in
  value r = Ok tt
  /\ issued r
     = [(FsCopyFile "/ext/old/f.md" "/ext/new/f.md", true);
        (FsUnlink "/ext/old/f.md", true);
        (FsMkdir "/ext/new/sub", true);
        (FsCopyFile "/ext/old/sub/g.md" "/ext/new/sub/g.md", true);
        (FsUnlink "/ext/old/sub/g.md", true);
        (FsRmdir "/ext/old/sub" false, true)]
  /\ fsLookup (extfs (after r)) "/ext/new"
     = Some (dirOf [("f.md", fileOf "1");
                    ("sub", dirOf [("g.md", fileOf "2")])])
  /\ fsLookup (extfs (after r)) "/ext/old" = Some (dirOf []).
Proof. vm_compute. repeat split. Qed.

(** ** Outbound synchronisation of files *)

Lemma append_nonempty_r (a b : string) : b <> "" -> a +:+ b <> "".
Proof. destruct a; simpl; [auto | discriminate]. Qed.

Lemma normalize_nonempty (p : string) : Path.normalize p <> "".
Proof.
  unfold Path.normalize.
  destruct (String.eqb p ""); [discriminate |].
  destruct (Js.startsWith p "/"), (Path.endsWithSlash p); simpl;
    match goal with
    | |- context [String.eqb ?b ""] => destruct (String.eqb_spec b "")
    end; try discriminate; try assumption.
  apply append_nonempty_r. discriminate.
Qed.

Lemma join_truthy (a b : string) : Js.truthy (Path.join a b) = true.
Proof.
  unfold Js.truthy, Path.join.
  destruct (String.eqb a ""), (String.eqb b ""); try reflexivity;
    match goal with
    | |- negb (String.eqb ?x "") = true =>
        destruct (String.eqb_spec x "") as [E|]; [|reflexivity];
        now apply normalize_nonempty in E
    end.
Qed.

Lemma getExternalPathIn_truthy s folders p :
  Js.truthy (getExternalPathIn s folders p) = true.
Proof.
  induction folders as [|f rest IH]; simpl; [apply join_truthy |].
  destruct (isUnder p (Path.basename f)); [apply join_truthy | apply IH].
Qed.

(** An external path that resolves is never the empty string. *)
Lemma resolved_getExternalPath s p d :
  getExternalPath s p = Some d -> resolved (getExternalPath s p) = Some d.
Proof.
  intros H. rewrite H. unfold getExternalPath in H.
  destruct (negb _); [discriminate |]. injection H as <-.
  unfold resolved. now rewrite getExternalPathIn_truthy.
Qed.

Lemma existsSync_run (p : string) (w : world) :
  existsSync p w = Run (Ok (exists_ (extfs w) p)) w [].
Proof. reflexivity. Qed.

Lemma fsMutate_cases c p f w :
  (exists fs', fsMutate c p f w = Run (Ok tt) (withExtfs fs' w) [(c, true)])
  \/ fsMutate c p f w
     = Run (Throw "EIO: file system call failed") w [(c, false)].
Proof.
  unfold fsMutate, bind, get. simpl.
  destruct (if String.eqb p "" then None else f (extfs w)) as [fs'|]; simpl;
    [left; now exists fs' | now right].
Qed.


Lemma vault_withExtfs fs w : vault (withExtfs fs w) = vault w.
Proof. reflexivity. Qed.

Lemma assoc_setEntry_eq s v l : assoc s (setEntry s v l) = Some v.
Proof.
  induction l as [|[k x] l IH]; simpl.
  - now rewrite String.eqb_refl.
  - destruct (String.eqb k s) eqn:E; simpl; rewrite E; [reflexivity | exact IH].
Qed.

Lemma putAt_lookupAt segs n root root' :
  putAt segs (Some n) root = Some root' -> lookupAt segs root' = Some n.
Proof.
  revert root root'. induction segs as [|s rest IH]; intros root root' H.
  - discriminate.
  - simpl in H. destruct rest as [|s2 rest].
    + destruct (children root) as [l|]; [|discriminate].
      injection H as Heq; subst root'. simpl. now rewrite assoc_setEntry_eq.
    + destruct (children root) as [l|]; [|discriminate].
      destruct (assoc s l) as [c|]; [|discriminate].
      destruct (putAt (s2 :: rest) (Some n) c) as [c'|] eqn:Hc; [|discriminate].
      injection H as Heq; subst root'.
      change (lookupAt (s :: s2 :: rest) (EDir (Some (setEntry s c' l))) = Some n).
      simpl lookupAt at 1. simpl children. rewrite assoc_setEntry_eq. now apply (IH c).
Qed.


Lemma tryCatch_swallow_run (m : M unit) (w : world) (ok : bool) e t :
  m w = Run (if ok then Ok tt else Throw e) (after (m w)) t ->
  tryCatch m (fun _ => ret tt) w = Run (Ok tt) (after (m w)) t.
Proof.
  intros H. unfold tryCatch. rewrite H. destruct ok; simpl; [reflexivity |].
  now rewrite app_nil_r.
Qed.

Lemma bind_step {A B} (m : M A) (f : A -> M B) (w w1 : world) (a : A) t :
  m w = Run (Ok a) w1 t ->
  bind m f w = Run (value (f a w1)) (after (f a w1)) (t ++ issued (f a w1)).
Proof. intros H. unfold bind. now rewrite H. Qed.


Lemma bind_throw_step {A B} (m : M A) (f : A -> M B) (w w1 : world) e t :
  m w = Run (Throw e) w1 t -> bind m f w = Run (Throw e) w1 t.
Proof. intros H. unfold bind. now rewrite H. Qed.

Lemma tryCatch_throw_step {A} (m : M A) (h : string -> M A) w w1 e t :
  m w = Run (Throw e) w1 t ->
  tryCatch m h w
  = Run (value (h e w1)) (after (h e w1)) (t ++ issued (h e w1)).
Proof. intros H. unfold tryCatch. now rewrite H. Qed.

Section Outbound.

Variable s : SyncRepSettings.

(** What the two reads of the vault yield of a file that holds [data]. *)
Lemma vaultReadBinary_run p data w :
  vault w !! p = Some (VFile data) ->
  vaultReadBinary (TFile p) w = Run (Ok data) w [].
Proof. intros H. unfold vaultReadBinary, bind, get. simpl. now rewrite H. Qed.

Lemma vaultRead_run p data w :
  vault w !! p = Some (VFile data) ->
  vaultRead (TFile p) w = Run (Ok (Js.decodeUtf8 data)) w [].
Proof.
  intros H. unfold vaultRead.
  now rewrite (bind_noop _ _ _ _ (vaultReadBinary_run _ _ _ H)).
Qed.




End Outbound.


(** A byte that is no UTF-8 is kept when the file is read as a buffer and
    replaced by U+FFFD when it is read as text: the note and the picture
    hold the same two bytes, and what is written outside differs. *)
Example syncFile_reads_by_kind :
  let bytes := String "255"%char "a" in
  let s := settingsAll [] in
  let w := worldOf {["n.md" := VFile bytes; "i.png" := VFile bytes]}
                   sampleStore in
  issued (syncFile s (TFile "n.md") w)
  = [(FsWriteFile "/ext/n.md" (Js.replacement "a") Utf8, true)]
  /\ issued (syncFile s (TFile "i.png") w)
     = [(FsWriteFile "/ext/i.png" bytes Buffer, true)].
Proof. vm_compute. split; reflexivity. Qed.




(** ** Which calls an operation can issue *)

Lemma issuesOnly_ret {A} Q (a : A) : issuesOnly Q (ret a).
Proof. intros w. constructor. Qed.

Lemma issuesOnly_throw {A} Q e : issuesOnly Q (@throw A e).
Proof. intros w. constructor. Qed.

Lemma issuesOnly_get Q : issuesOnly Q get.
Proof. intros w. constructor. Qed.

Lemma issuesOnly_put Q w' : issuesOnly Q (put w').
Proof. intros w. constructor. Qed.

Lemma issuesOnly_bind {A B} Q (m : M A) (f : A -> M B) :
  issuesOnly Q m -> (forall a, issuesOnly Q (f a)) -> issuesOnly Q (bind m f).
Proof.
  intros Hm Hf w. unfold bind. destruct (value (m w)) as [a|e]; simpl.
  - apply Forall_app. split; [apply Hm | apply Hf].
  - apply Hm.
Qed.

Lemma issuesOnly_tryCatch {A} Q (m : M A) (h : string -> M A) :
  issuesOnly Q m -> (forall e, issuesOnly Q (h e)) ->
  issuesOnly Q (tryCatch m h).
Proof.
  intros Hm Hh w. unfold tryCatch. destruct (value (m w)) as [a|e]; simpl.
  - apply Hm.
  - apply Forall_app. split; [apply Hm | apply Hh].
Qed.

Lemma issuesOnly_tryFinally {A} Q (m : M A) (f : M unit) :
  issuesOnly Q m -> issuesOnly Q f -> issuesOnly Q (tryFinally m f).
Proof.
  intros Hm Hf w. unfold tryFinally. simpl.
  apply Forall_app. split; [apply Hm | apply Hf].
Qed.

Lemma issuesOnly_when Q (b : bool) (m : M unit) :
  issuesOnly Q m -> issuesOnly Q (when b m).
Proof. destruct b; [auto | apply issuesOnly_ret]. Qed.

Lemma issuesOnly_forEach {A} Q (body : A -> M unit) (l : list A) :
  (forall x, x ∈ l -> issuesOnly Q (body x)) -> issuesOnly Q (forEach body l).
Proof.
  induction l as [|x l IH]; intros H; simpl.
  - apply issuesOnly_ret.
  - apply issuesOnly_bind.
    + apply H. constructor.
    + intros _. apply IH. intros y Hy. apply H. now constructor.
Qed.

Lemma issuesOnly_state {A} Q (f : world -> M A) :
  (forall w, issuesOnly Q (f w)) -> issuesOnly Q (bind get f).
Proof. intros H. apply issuesOnly_bind; [apply issuesOnly_get | exact H]. Qed.

Lemma issuesOnly_logCall Q c ok : Q (c, ok) -> issuesOnly Q (logCall c ok).
Proof. intros H w. simpl. now constructor. Qed.

Lemma issuesOnly_failing {A} Q c e : Q (c, false) -> issuesOnly Q (@failing A c e).
Proof.
  intros H. apply issuesOnly_bind; [now apply issuesOnly_logCall |].
  intros _. apply issuesOnly_throw.
Qed.

Create HintDb calls.
#[local] Hint Resolve issuesOnly_ret issuesOnly_throw issuesOnly_get
  issuesOnly_put issuesOnly_when issuesOnly_logCall issuesOnly_failing : calls.

Lemma issuesOnly_getAbstractFileByPath Q p :
  issuesOnly Q (getAbstractFileByPath p).
Proof. apply issuesOnly_state. auto with calls. Qed.

Lemma issuesOnly_vaultReadBinary Q f : issuesOnly Q (vaultReadBinary f).
Proof.
  apply issuesOnly_state. intros w.
  destruct (vault w !! pathOf f) as [[]|]; auto with calls.
Qed.

Lemma issuesOnly_vaultRead Q f : issuesOnly Q (vaultRead f).
Proof.
  apply issuesOnly_bind; [apply issuesOnly_vaultReadBinary |].
  intros data. auto with calls.
Qed.

Lemma issuesOnly_existsSync Q p : issuesOnly Q (existsSync p).
Proof. apply issuesOnly_state. auto with calls. Qed.

Lemma issuesOnly_nodeAt Q p : issuesOnly Q (nodeAt p).
Proof. apply issuesOnly_state. auto with calls. Qed.

Lemma issuesOnly_readFileOf Q n enc : issuesOnly Q (readFileOf n enc).
Proof. destruct n as [[[]| |]|]; simpl; auto with calls. Qed.

Lemma issuesOnly_fsReadFile Q p enc : issuesOnly Q (fsReadFile p enc).
Proof. apply issuesOnly_state. intros w. apply issuesOnly_readFileOf. Qed.

Lemma issuesOnly_setGuard Q b : issuesOnly Q (setProcessingExternalChange b).
Proof. apply issuesOnly_state. auto with calls. Qed.

Lemma issuesOnly_setTimeout Q t ms : issuesOnly Q (setTimeout t ms).
Proof. apply issuesOnly_state. auto with calls. Qed.

#[local] Hint Resolve issuesOnly_getAbstractFileByPath issuesOnly_vaultRead
  issuesOnly_vaultReadBinary issuesOnly_existsSync issuesOnly_nodeAt issuesOnly_readFileOf
  issuesOnly_fsReadFile issuesOnly_setGuard issuesOnly_setTimeout : calls.

Lemma issuesOnly_vaultCreateAs Q c p data :
  (forall ok, Q (c, ok)) -> issuesOnly Q (vaultCreateAs c p data).
Proof.
  intros H. apply issuesOnly_state. intros w.
  destruct (faulty w p); [auto with calls |].
  destruct (vault w !! p); [auto with calls |].
  apply issuesOnly_bind; auto with calls.
Qed.

Lemma issuesOnly_vaultModifyAs Q c f data :
  (forall ok, Q (c, ok)) -> issuesOnly Q (vaultModifyAs c f data).
Proof.
  intros H. apply issuesOnly_state. intros w.
  destruct (faulty w (pathOf f)); [auto with calls |].
  destruct (vault w !! pathOf f) as [[]|]; auto with calls.
  apply issuesOnly_bind; auto with calls.
Qed.

Lemma issuesOnly_vaultCreateFolder Q p :
  (forall ok, Q (VaultCreateFolder p, ok)) -> issuesOnly Q (vaultCreateFolder p).
Proof.
  intros H. apply issuesOnly_state. intros w.
  destruct (faulty w p); [auto with calls |].
  destruct (vault w !! p); [auto with calls |].
  apply issuesOnly_bind; auto with calls.
Qed.

Lemma issuesOnly_lookup {A} Q p (k : option TAbstractFile -> M A) :
  issuesOnly Q (k None) -> issuesOnly Q (k (Some (TFile p))) ->
  issuesOnly Q (k (Some (TFolder p))) ->
  issuesOnly Q (bind (getAbstractFileByPath p) k).
Proof.
  intros Hn Hf Hd w. unfold bind, getAbstractFileByPath, get, ret. simpl.
  destruct (vault w !! p) as [[]|]; [apply Hf | apply Hd | apply Hn].
Qed.

(** [ensureVaultDirectory] issues nothing but folder creations. *)
Lemma issuesOnly_ensureVaultDirectoryFrom Q cur dirs :
  (forall p ok, Q (VaultCreateFolder p, ok)) ->
  issuesOnly Q (ensureVaultDirectoryFrom cur dirs).
Proof.
  intros H. revert cur. induction dirs as [|dir rest IH]; intros cur; simpl.
  - auto with calls.
  - apply issuesOnly_bind; [auto with calls |]. intros existingDir.
    apply issuesOnly_bind; [| intros _; apply IH].
    destruct existingDir; [auto with calls |].
    apply issuesOnly_tryCatch; [now apply issuesOnly_vaultCreateFolder |].
    intros e. destruct (_ || _); auto with calls.
Qed.

Lemma issuesOnly_createIfMissing Q p :
  (forall q ok, Q (VaultCreateFolder q, ok)) -> issuesOnly Q (createIfMissing p).
Proof.
  intros H. apply issuesOnly_bind; [auto with calls |]. intros existingDir.
  apply issuesOnly_when. now apply issuesOnly_ensureVaultDirectoryFrom.
Qed.

Lemma issuesOnly_writeIfDifferent Q b p content :
  (forall ok, Q (VaultModify p content, ok)) ->
  (forall ok, Q (VaultModifyBinary p content, ok)) ->
  issuesOnly Q (writeIfDifferent b (TFile p) content).
Proof.
  intros Ht Hb. unfold writeIfDifferent. apply issuesOnly_bind.
  - destruct b; auto with calls.
  - intros cur. destruct (negb _); [|auto with calls].
    destruct b; unfold vaultModifyBinary, vaultModify;
      now apply issuesOnly_vaultModifyAs.
Qed.

(** The calls of [syncContent]: folder creations, and creations or
    modifications of the file at [p] with the content read. *)
Lemma issuesOnly_syncContent Q b p content existing :
  (forall q ok, Q (VaultCreateFolder q, ok)) ->
  (forall ok, Q (VaultCreate p content, ok)) ->
  (forall ok, Q (VaultCreateBinary p content, ok)) ->
  (forall ok, Q (VaultModify p content, ok)) ->
  (forall ok, Q (VaultModifyBinary p content, ok)) ->
  (existing = None \/ existing = Some (TFile p) \/ existing = Some (TFolder p)) ->
  issuesOnly Q (syncContent b p content existing).
Proof.
  intros Hf Hc Hcb Hm Hmb Hex. unfold syncContent.
  assert (Hw : issuesOnly Q (writeIfDifferent b (TFile p) content))
    by now apply issuesOnly_writeIfDifferent.
  assert (Hcreate : issuesOnly Q
    (bind (when (Js.truthy (Path.dirname p)
                 && negb (String.eqb (Path.dirname p) "."))
                (ensureVaultDirectory (Path.dirname p)))
       (fun _ =>
          tryCatch
            (if b then vaultCreateBinary p content else vaultCreate p content)
            (fun message =>
               if Js.truthy message && Js.includes message "already exists"
               then bind (sleep 200) (fun _ =>
                      bind (getAbstractFileByPath p) (fun fileAfterError =>
                        match fileAfterError with
                        | Some (TFile p0) =>
                            writeIfDifferent b (TFile p0) content
                        | _ => ret tt
                        end))
               else throw message)))).
  { apply issuesOnly_bind.
    - apply issuesOnly_when. now apply issuesOnly_ensureVaultDirectoryFrom.
    - intros _. apply issuesOnly_tryCatch.
      + destruct b; unfold vaultCreateBinary, vaultCreate;
          now apply issuesOnly_vaultCreateAs.
      + intros e. destruct (_ && _); [|auto with calls].
        apply issuesOnly_bind; [unfold sleep; auto with calls |]. intros _.
        apply issuesOnly_lookup; auto with calls. }
  destruct Hex as [-> | [-> | ->]]; assumption.
Qed.

(** ** Induction on external trees *)

Lemma enode_ind' (P : enode -> Prop) :
  (forall c, P (EFile c)) ->
  P (EDir None) ->
  (forall l, Forall (fun e => P e.2) l -> P (EDir (Some l))) ->
  P EOther ->
  forall n, P n.
Proof.
  intros Hf Hn Hd Ho. fix IH 1. intros [c|[l|]|].
  - apply Hf.
  - apply Hd. induction l as [|[name e] l IHl]; constructor;
      [apply IH | exact IHl].
  - apply Hn.
  - apply Ho.
Qed.

Section Walks.

Variable s : SyncRepSettings.

Lemma issuesOnly_syncFileEntry Q entry p :
  (forall q ok, Q (VaultCreateFolder q, ok)) ->
  (forall c ok, Q (VaultCreate p c, ok)) ->
  (forall c ok, Q (VaultCreateBinary p c, ok)) ->
  (forall c ok, Q (VaultModify p c, ok)) ->
  (forall c ok, Q (VaultModifyBinary p c, ok)) ->
  issuesOnly Q (syncFileEntry entry p).
Proof.
  intros Hf Hc Hcb Hm Hmb. unfold syncFileEntry.
  apply issuesOnly_tryCatch; [| auto with calls].
  apply issuesOnly_bind; [auto with calls |]. intros content.
  apply issuesOnly_lookup; apply issuesOnly_syncContent; auto.
Qed.

(** The scan of the directories issues nothing but folder creations. *)
Lemma issuesOnly_scanAndCreateAllDirectories Q base rel :
  (forall q ok, Q (VaultCreateFolder q, ok)) ->
  issuesOnly Q (scanAndCreateAllDirectories s base rel).
Proof.
  intros Hf. revert rel.
  induction base as [c| |l IH|] using enode_ind'; intros rel; simpl;
    (apply issuesOnly_tryCatch; [| auto with calls]);
    (apply issuesOnly_bind;
     [ unfold scanDirectoryItself; destruct (Js.truthy rel); [|auto with calls];
       destruct (shouldSyncFile _ _); [|auto with calls];
       apply issuesOnly_bind;
       [now apply issuesOnly_createIfMissing | auto with calls]
     | intros [|]; auto with calls ]).
  apply issuesOnly_forEach. intros [name entry] Hin.
  rewrite Forall_forall in IH. specialize (IH _ Hin). simpl in IH.
  unfold scanEntry. destruct (isDirectory entry); [apply IH | auto with calls].
Qed.

(** Every file write of the walk goes to a path that passes the policy. *)
Lemma syncDirectoryFromExternal_withinPolicy dir rel :
  issuesOnly (withinPolicy s) (syncDirectoryFromExternal s dir rel).
Proof.
  assert (Hfolder : forall q ok, withinPolicy s (VaultCreateFolder q, ok))
    by (intros q ok q' H; discriminate H).
  revert rel.
  induction dir as [c| |l IH|] using enode_ind'; intros rel; simpl;
    (apply issuesOnly_tryCatch; [| auto with calls]);
    (destruct (negb (shouldSyncFile s rel)); [auto with calls |]);
    (apply issuesOnly_bind;
     [now apply issuesOnly_createIfMissing | intros _; auto with calls]).
  apply issuesOnly_forEach. intros [name entry] Hin.
  rewrite Forall_forall in IH. specialize (IH _ Hin). simpl in IH.
  unfold syncEntry.
  destruct (shouldSyncFile s _) eqn:Hp; simpl negb; cbv iota;
    [| auto with calls].
  destruct entry as [c| |]; [| apply IH | auto with calls].
  apply issuesOnly_syncFileEntry; auto;
    intros c' ok q H; injection H as H; now subst q.
Qed.

Lemma issuesOnly_scanAt Q basePath rel :
  (forall q ok, Q (VaultCreateFolder q, ok)) ->
  issuesOnly Q (scanAndCreateAllDirectoriesAt s basePath rel).
Proof.
  intros Hf. apply issuesOnly_bind; [auto with calls |].
  intros [|]; [| auto with calls].
  apply issuesOnly_bind; [auto with calls |]. intros base.
  now apply issuesOnly_scanAndCreateAllDirectories.
Qed.

(** Step 1 of the full synchronisation issues folder creations only. *)
Lemma issuesOnly_createDirectoryStructure Q :
  (forall q ok, Q (VaultCreateFolder q, ok)) ->
  issuesOnly Q (createDirectoryStructure s).
Proof.
  intros Hf. apply issuesOnly_bind; [now apply issuesOnly_scanAt |].
  intros _. apply issuesOnly_forEach. intros externalFolder _.
  apply issuesOnly_bind; [auto with calls |].
  intros [|]; [now apply issuesOnly_scanAt | auto with calls].
Qed.

Lemma synchronizeFiles_withinPolicy :
  issuesOnly (withinPolicy s) (synchronizeFiles s).
Proof.
  assert (Hat : forall p rel,
    issuesOnly (withinPolicy s) (syncDirectoryFromExternalAt s p rel)).
  { intros p rel. apply issuesOnly_bind; [auto with calls |]. intros dir.
    apply syncDirectoryFromExternal_withinPolicy. }
  apply issuesOnly_bind; [apply Hat |].
  intros _. apply issuesOnly_forEach. intros externalFolder _.
  apply issuesOnly_bind; [auto with calls |].
  intros [|]; [apply Hat | auto with calls].
Qed.

(** Every file write of a full synchronisation goes to a path that passes
    the policy. *)
Lemma syncAllExternalDirectories_withinPolicy :
  issuesOnly (withinPolicy s) (syncAllExternalDirectories s).
Proof.
  unfold syncAllExternalDirectories. apply issuesOnly_bind.
  - destruct (Js.truthy _); auto with calls.
  - intros configured. destruct (negb configured); [auto with calls |].
    apply issuesOnly_tryCatch; [| auto with calls].
    apply issuesOnly_bind.
    + apply issuesOnly_createDirectoryStructure.
      intros q ok q' H. discriminate H.
    + intros _. apply synchronizeFiles_withinPolicy.
Qed.

End Walks.

(** ** The policy gates the synchronisation *)

Lemma untouched_noop {A} (w : world) (a : A) : untouched w (Run (Ok a) w []).
Proof. repeat split. Qed.

Section Gates.

Variable s : SyncRepSettings.

(** Where the policy is checked.  Let the policy return [false] for the
    path [p].
    - The outbound operations that check the policy themselves
      ([syncFile], [syncFolder], [handleFolderDeletion]) leave both stores
      alone on [p], and so do the handlers of the vault events for the
      creation, the modification and the deletion of [p].
    - When a file is renamed from [p], the handler does what it does for
      a new file at the new path and nothing else; when a file is renamed
      to [p] from a synchronised path, it does what it does for a deletion
      of the old path.
    - The inbound operations that check the policy on the relative path
      they are given ([handleExternalFileChange],
      [handleExternalFileDeletion], the handling of a created or deleted
      external directory, the walk [syncDirectoryFromExternal], the scan
      of a directory mapped to [p]) do nothing when that path is [p].
    - No file write of a full synchronisation targets [p].
    Nothing is said here of [handleFileDeletion], [handleFileRename] and
    [handleFolderRename], which do not look at the policy, nor of the
    handler of folder renames. *)
Theorem policy_gates_synchronisation (p : string) (w : world) :
  shouldSyncFile s p = false ->
  (untouched w (syncFile s (TFile p) w)
   /\ untouched w (syncFolder s (TFolder p) w)
   /\ untouched w (handleFolderDeletion s p w))
  /\ (forall file, pathOf file = p ->
        untouched w (onModify s file w)
        /\ untouched w (onCreate s file w)
        /\ untouched w (onDelete s file w))
  /\ (forall q,
        onRename s (TFile q) p w
        = (if shouldSyncFile s q then syncFile s (TFile q) else ret tt) w)
  /\ (forall old, shouldSyncFile s old = true ->
        onRename s (TFile p) old w = handleFileDeletion s old w)
  /\ (forall fullPath,
        untouched w (handleExternalFileChange s fullPath p w)
        /\ untouched w (handleExternalDirectoryCreation s fullPath p w))
  /\ (untouched w (handleExternalFileDeletion s p w)
      /\ untouched w (handleExternalDirectoryDeletion s p w))
  /\ (forall dir, untouched w (syncDirectoryFromExternal s dir p w))
  /\ (forall base rel,
        Js.truthy rel = true -> Js.replaceBackslashes rel = p ->
        untouched w (scanAndCreateAllDirectories s base rel w))
  /\ (forall c ok,
        (c, ok) ∈ issued (syncAllExternalDirectories s w) ->
        fileWritePath c <> Some p).
Proof.
  intros Hp.
  split; [split; [| split] |].
  { unfold syncFile. simpl pathOf. rewrite Hp. apply untouched_noop. }
  { unfold syncFolder. simpl pathOf. rewrite Hp. apply untouched_noop. }
  { unfold handleFolderDeletion. rewrite Hp. apply untouched_noop. }
  split.
  { intros file <-. split; [| split].
    - unfold onModify. rewrite Hp, andb_false_r. apply untouched_noop.
    - destruct file; unfold onCreate; simpl pathOf in Hp; rewrite Hp;
        apply untouched_noop.
    - destruct file; unfold onDelete; simpl pathOf in Hp; rewrite Hp;
        apply untouched_noop. }
  split.
  { intros q. unfold onRename. cbv zeta. rewrite Hp. cbn [andb].
    reflexivity. }
  split.
  { intros old Hold. unfold onRename. cbv zeta. rewrite Hp, Hold.
    reflexivity. }
  split.
  { intros fullPath. split.
    - unfold handleExternalFileChange. rewrite Hp. repeat split.
    - unfold handleExternalDirectoryCreation. rewrite Hp.
      apply untouched_noop. }
  split.
  { split.
    - unfold handleExternalFileDeletion. rewrite Hp. repeat split.
    - unfold handleExternalDirectoryDeletion. rewrite Hp.
      apply untouched_noop. }
  split.
  { intros [c|[l|]|]; simpl; rewrite Hp; apply untouched_noop. }
  split.
  { intros base rel Hrel <-.
    destruct base as [c|[l|]|]; simpl; unfold scanDirectoryItself;
      rewrite Hrel, Hp; apply untouched_noop. }
  intros c ok Hin Hpath.
  pose proof (syncAllExternalDirectories_withinPolicy s w) as Hall.
  rewrite Forall_forall in Hall. specialize (Hall _ Hin p Hpath).
  congruence.
Qed.

End Gates.

(** The note under the excluded folder [private] is left alone. *)
Lemma policy_gates_synchronisation_witness :
  let s := settingsAll ["private"] in
  let w := worldOf {["private/f.md" := VFile "secret"]} privateStore in
  untouched w (syncFile s (TFile "private/f.md") w)
  /\ untouched w (handleExternalFileChange s "/ext/private/f.md" "private/f.md" w).
Proof.
  pose proof (policy_gates_synchronisation (settingsAll ["private"])
                "private/f.md"
                (worldOf {["private/f.md" := VFile "secret"]} privateStore)
                eq_refl) as H.
  split.
  - apply H.
  - apply (proj1 (proj1 (proj2 (proj2 (proj2 (proj2 H)))) "/ext/private/f.md")).
Defined.

(** The operations that do not look at the policy: renaming the excluded
    folder [private] to [public] renames its external counterpart, and
    [handleFileDeletion], called on a note of the excluded folder, asks
    for a confirmation upon which the external note is deleted. *)
Lemma excluded_paths_touched_by_outbound_operations :
  let s := settingsAll ["private"] in
  let w := worldOf ∅ privateStore in
  (shouldSyncFile s "private" = false
   /\ let r := onRename s (TFolder "public") "private" w in
      issued r = [(FsRename "/ext/private" "/ext/public", true)]
      /\ fsLookup (extfs (after r)) "/ext/private" = None)
  /\ (shouldSyncFile s "private/f.md" = false
      /\ let r := handleFileDeletion s "private/f.md" w in
         modals (after r) = [ConfirmUnlink "/ext/private/f.md"]
         /\ issued (onConfirm (ConfirmUnlink "/ext/private/f.md") true
                      (after r))
            = [(FsUnlink "/ext/private/f.md", true)]).
Proof. vm_compute. repeat split. Qed.

(** ** Failures during a walk *)

Lemma tryCatch_swallow_ok (m : M unit) (w : world) :
  value (tryCatch m (fun _ => ret tt) w) = Ok tt.
Proof.
  unfold tryCatch. destruct (value (m w)) as [[]|e] eqn:H; [exact H | reflexivity].
Qed.

Lemma forEach_continues {A} (body : A -> M unit) (before rest : list A)
    (x : A) (w : world) :
  let r1 := forEach body before w in
  let r2 := body x (after r1) in
  let r3 := forEach body rest (after r2) in
  value r1 = Ok tt -> value r2 = Ok tt ->
  forEach body (before ++ x :: rest) w
  = Run (value r3) (after r3) (issued r1 ++ issued r2 ++ issued r3).
Proof.
  intros r1 r2 r3 H1 H2. rewrite forEach_app, (bind_ok _ _ _ _ H1).
  simpl forEach. fold r1. rewrite (bind_ok _ _ _ _ H2). reflexivity.
Qed.

Lemma forEach_stops {A} (body : A -> M unit) (before rest : list A)
    (x : A) (w : world) (e : string) :
  let r1 := forEach body before w in
  let r2 := body x (after r1) in
  value r1 = Ok tt -> value r2 = Throw e ->
  forEach body (before ++ x :: rest) w
  = Run (Throw e) (after r2) (issued r1 ++ issued r2).
Proof.
  intros r1 r2 H1 H2. rewrite forEach_app, (bind_ok _ _ _ _ H1).
  simpl forEach. fold r1. now rewrite (bind_throw _ _ _ _ H2).
Qed.

Section Failures.

Variable s : SyncRepSettings.

Lemma syncDirectoryFromExternal_unfold dir rel :
  syncDirectoryFromExternal s dir rel
  = tryCatch
      (if negb (shouldSyncFile s rel) then ret tt
       else
         bind (createIfMissing rel) (fun _ =>
           match dir with
           | EDir (Some entries) =>
               forEach (syncEntry s (syncDirectoryFromExternal s) rel) entries
           | _ => throw "readdir failed"
           end))
      (fun message => throw message).
Proof. destruct dir; reflexivity. Qed.

Lemma scanAndCreateAllDirectories_unfold base rel :
  scanAndCreateAllDirectories s base rel
  = tryCatch
      (bind (scanDirectoryItself s rel) (fun explore =>
         if explore then
           match base with
           | EDir (Some entries) =>
               forEach (scanEntry (scanAndCreateAllDirectories s) rel) entries
           | _ => throw "readdir failed"
           end
         else ret tt))
      (fun _ => ret tt).
Proof. destruct base; reflexivity. Qed.

Lemma scanAndCreateAllDirectories_ok base rel w :
  value (scanAndCreateAllDirectories s base rel w) = Ok tt.
Proof.
  rewrite scanAndCreateAllDirectories_unfold. apply tryCatch_swallow_ok.
Qed.

Lemma scanEntry_ok rel e w :
  value (scanEntry (scanAndCreateAllDirectories s) rel e w) = Ok tt.
Proof.
  destruct e as [name entry]. unfold scanEntry.
  destruct (isDirectory entry);
    [apply scanAndCreateAllDirectories_ok | reflexivity].
Qed.

Lemma forEach_ok {A} (body : A -> M unit) (l : list A) (w : world) :
  (forall x w', value (body x w') = Ok tt) -> value (forEach body l w) = Ok tt.
Proof.
  intros H. revert w. induction l as [|x l IH]; intros w; [reflexivity |].
  simpl. rewrite (bind_ok _ _ _ _ (H x w)). apply IH.
Qed.

Lemma syncEntry_file_ok recur rel name entry w :
  isDirectory entry = false ->
  value (syncEntry s recur rel (name, entry) w) = Ok tt.
Proof.
  intros Hd. unfold syncEntry. destruct (negb _); [reflexivity |].
  destruct entry; [apply tryCatch_swallow_ok | discriminate | reflexivity].
Qed.

(** Past its policy check, the walk is the creation of the managed
    folder followed by the loop over the entries, and what they throw is
    thrown again. *)
Lemma syncDirectoryFromExternal_included dir rel w :
  shouldSyncFile s rel = true ->
  syncDirectoryFromExternal s dir rel w
  = bind (createIfMissing rel) (fun _ =>
      match dir with
      | EDir (Some entries) =>
          forEach (syncEntry s (syncDirectoryFromExternal s) rel) entries
      | _ => throw "readdir failed"
      end) w.
Proof.
  intros Hp. rewrite syncDirectoryFromExternal_unfold, tryCatch_rethrow, Hp.
  reflexivity.
Qed.

(** A sub-directory that cannot be listed makes the walk throw. *)
Lemma syncDirectoryFromExternal_unlistable rel w :
  shouldSyncFile s rel = true ->
  exists e, value (syncDirectoryFromExternal s (EDir None) rel w) = Throw e.
Proof.
  intros Hp. rewrite (syncDirectoryFromExternal_included _ _ _ Hp).
  destruct (value (createIfMissing rel w)) as [[]|e] eqn:E.
  - rewrite (bind_ok _ _ _ _ E). eexists. reflexivity.
  - rewrite (bind_throw _ _ _ _ E). eexists. reflexivity.
Qed.

Lemma syncAllExternalDirectories_ok w :
  value (syncAllExternalDirectories s w) = Ok tt.
Proof.
  unfold syncAllExternalDirectories. destruct (Js.truthy (syncFolderPath s)).
  - rewrite (bind_noop _ _ _ _ (existsSync_run _ w)).
    destruct (negb _); [reflexivity | apply tryCatch_swallow_ok].
  - now rewrite (bind_noop (ret false) _ w false eq_refl).
Qed.

(** The failures that are caught where they happen.  In step 2,
    whatever fails while an entry that is no directory is processed (the
    read of the file, a creation or a modification in the vault) is
    caught within that entry: the entry ends normally and the loop goes
    on with the entries that remain.  In step 1, whatever fails within an
    entry, a sub-directory included, is caught within it, and the loop
    goes on. *)
Theorem item_failures_and_the_walk
    (rel name : string) (entry : enode)
    (before rest : list (string * enode)) (w : world) :
  (* step 2, an entry that is no directory *)
  (let body := syncEntry s (syncDirectoryFromExternal s) rel in
   let r1 := forEach body before w in
   let r2 := body (name, entry) (after r1) in
   let r3 := forEach body rest (after r2) in
   isDirectory entry = false -> value r1 = Ok tt ->
   value r2 = Ok tt
   /\ forEach body (before ++ (name, entry) :: rest) w
      = Run (value r3) (after r3) (issued r1 ++ issued r2 ++ issued r3))
  (* step 1, any entry *)
  /\ (let body := scanEntry (scanAndCreateAllDirectories s) rel in
      let r1 := forEach body before w in
      let r2 := body (name, entry) (after r1) in
      let r3 := forEach body rest (after r2) in
      value r2 = Ok tt
      /\ forEach body (before ++ (name, entry) :: rest) w
         = Run (value r3) (after r3) (issued r1 ++ issued r2 ++ issued r3)).
Proof.
  split.
  - intros body r1 r2 r3 Hd H1.
    assert (H2 : value r2 = Ok tt) by now apply syncEntry_file_ok.
    split; [exact H2 |]. now apply forEach_continues.
  - intros body r1 r2 r3.
    assert (H2 : value r2 = Ok tt) by apply scanEntry_ok.
    split; [exact H2 |]. apply forEach_continues; [| exact H2].
    apply forEach_ok. intros x w'. apply scanEntry_ok.
Qed.

(** C9 (where the code departs from the claim).  In step 2 of the full
    synchronisation a failure within a sub-directory is not caught at the
    item level.  For an entry of the loop of [syncDirectoryFromExternal]
    that is a directory and passes the policy, the entry is the walk of
    that sub-directory, which throws
    - when the sub-directory cannot be listed,
    - when the creation of its managed folder throws,
    - when the walk of one of its own entries throws;
    and when it throws, the loop stops there: the entries that remain are
    not processed, and the walk of the enclosing directory throws the
    same error in its turn.  Step 1 meets the same entry in
    [scanAndCreateAllDirectories], which catches the failure within the
    entry and goes on with the entries that remain; and the full
    synchronisation as a whole ends normally, the error being caught at
    its top only. *)
Theorem directory_failure_aborts_the_walk
    (rel name : string) (entry : enode)
    (before rest : list (string * enode)) (w : world) :
  let path := Js.replaceBackslashes (entryRelativePath rel name) in
  let walk := syncDirectoryFromExternal s in
  let body := syncEntry s walk rel in
  let r1 := forEach body before w in
  let r2 := body (name, entry) (after r1) in
  isDirectory entry = true ->
  shouldSyncFile s path = true ->
  value r1 = Ok tt ->
  (* what makes the entry throw *)
  (entry = EDir None -> exists e, value r2 = Throw e)
  /\ (forall e, value (createIfMissing path (after r1)) = Throw e ->
      value r2 = Throw e)
  /\ (forall entries e,
        entry = EDir (Some entries) ->
        let c := createIfMissing path (after r1) in
        value c = Ok tt ->
        value (forEach (syncEntry s walk path) entries (after c)) = Throw e ->
        value r2 = Throw e)
  (* and what follows from it *)
  /\ (forall e, value r2 = Throw e ->
      forEach body (before ++ (name, entry) :: rest) w
      = Run (Throw e) (after r2) (issued r1 ++ issued r2)
      /\ (forall w0,
            shouldSyncFile s rel = true ->
            value (createIfMissing rel w0) = Ok tt ->
            after (createIfMissing rel w0) = w ->
            value (walk (EDir (Some (before ++ (name, entry) :: rest))) rel w0)
            = Throw e))
  (* step 1 on the same entries *)
  /\ (let body1 := scanEntry (scanAndCreateAllDirectories s) rel in
      let q1 := forEach body1 before w in
      let q2 := body1 (name, entry) (after q1) in
      let q3 := forEach body1 rest (after q2) in
      value q2 = Ok tt
      /\ forEach body1 (before ++ (name, entry) :: rest) w
         = Run (value q3) (after q3) (issued q1 ++ issued q2 ++ issued q3))
  (* the top of the full synchronisation *)
  /\ (forall w0, value (syncAllExternalDirectories s w0) = Ok tt).
Proof.
  intros path walk body r1 r2 Hd Hp H1.
  assert (Hr2 : r2 = walk entry path (after r1)).
  { subst r2 body. unfold syncEntry. fold path. rewrite Hp. cbn [negb].
    destruct entry; [discriminate Hd | reflexivity | discriminate Hd]. }
  assert (Hwalk : forall w', walk entry path w'
            = bind (createIfMissing path) (fun _ =>
                match entry with
                | EDir (Some entries) => forEach (syncEntry s walk path) entries
                | _ => throw "readdir failed"
                end) w')
    by (intros w'; now apply syncDirectoryFromExternal_included).
  split; [| split; [| split; [| split; [| split]]]].
  - intros ->. rewrite Hr2. now apply syncDirectoryFromExternal_unlistable.
  - intros e Hc. rewrite Hr2, Hwalk. now rewrite (bind_throw _ _ _ _ Hc).
  - intros entries e -> c Hc He. rewrite Hr2, Hwalk.
    rewrite (bind_ok _ _ _ _ Hc). exact He.
  - intros e H2.
    assert (Hloop : forEach body (before ++ (name, entry) :: rest) w
                    = Run (Throw e) (after r2) (issued r1 ++ issued r2))
      by now apply forEach_stops.
    split; [exact Hloop |].
    intros w0 Hrel Hc Hw. unfold walk.
    rewrite (syncDirectoryFromExternal_included _ _ _ Hrel).
    rewrite (bind_ok _ _ _ _ Hc). cbn [value].
    rewrite Hw. fold walk. fold body. now rewrite Hloop.
  - intros body1 q1 q2 q3.
    assert (H2 : value q2 = Ok tt) by apply scanEntry_ok.
    split; [exact H2 |]. apply forEach_continues; [| exact H2].
    apply forEach_ok. intros x w'. apply scanEntry_ok.
  - apply syncAllExternalDirectories_ok.
Qed.

End Failures.

(** An unreadable file, then a note: the note is processed. *)
Lemma item_failures_and_the_walk_witness :
  let s := settingsAll [] in
  let w := worldOf ∅ sampleStore in
  let body := syncEntry s (syncDirectoryFromExternal s) "" in
  let r2 := body ("locked.md", EFile None) w in
  let r3 := forEach body [("b.md", fileOf "bee")] (after r2) in
  value r2 = Ok tt
  /\ forEach body ([] ++ ("locked.md", EFile None) :: [("b.md", fileOf "bee")]) w
     = Run (value r3) (after r3) ([] ++ issued r2 ++ issued r3).
Proof.
  apply (proj1 (item_failures_and_the_walk (settingsAll []) ""
                  "locked.md" (EFile None) [] [("b.md", fileOf "bee")]
                  (worldOf ∅ sampleStore))).
  - reflexivity.
  - reflexivity.
Defined.

Example unreadable_file_does_not_stop_the_walk :
  let s := settingsAll [] in
  let r := forEach (syncEntry s (syncDirectoryFromExternal s) "")
             [("locked.md", EFile None); ("b.md", fileOf "bee")]
             (worldOf ∅ sampleStore) in
  issued r = [(VaultCreate "b.md" "bee", true)].
Proof. reflexivity. Qed.

(** The directory [a] of [/ext] cannot be listed and the note [b.md]
    follows it: the loop of step 2 over [/ext] throws on [a], with the
    folder [a] created and nothing done for [b.md]. *)
Lemma directory_failure_aborts_the_walk_witness :
  let s := settingsAll [] in
  let w := worldOf ∅ lockedStore in
  exists e,
    forEach (syncEntry s (syncDirectoryFromExternal s) "")
      ([] ++ ("a", EDir None) :: [("b.md", fileOf "bee")]) w
    = Run (Throw e)
        (worldOf {["a" := VFolder]} lockedStore)
        ([] ++ [(VaultCreateFolder "a", true)]).
Proof.
  destruct (directory_failure_aborts_the_walk (settingsAll []) "" "a"
              (EDir None) [] [("b.md", fileOf "bee")]
              (worldOf ∅ lockedStore) eq_refl eq_refl eq_refl)
    as (Hthrows & _ & _ & Hstops & _).
  destruct (Hthrows eq_refl) as [e He].
  exists e. exact (proj1 (Hstops e He)).
Defined.

(** The same on the whole of the full synchronisation: the directory [a]
    of [/ext] is unreadable, step 1 goes past it, the walk of step 2
    stops on it, and the note [b.md] that follows never reaches the
    vault, while it does when [a] is not there. *)
Lemma unlistable_directory_aborts_the_walk :
  let s := settingsAll [] in
  (let r := syncAllExternalDirectories s (worldOf ∅ lockedStore) in
   value r = Ok tt
   /\ issued r = [(VaultCreateFolder "a", true); (VaultCreateFolder "", true)]
   /\ vault (after r) !! "b.md" = None)
  /\ (let r := syncAllExternalDirectories s
                 (worldOf ∅ (dirOf [("ext", dirOf [("b.md", fileOf "bee")])])) in
      vault (after r) !! "b.md" = Some (VFile "bee")).
Proof. vm_compute. repeat split. Qed.

(** A managed folder that cannot be created stops the walk as well: the
    vault refuses every write at [a], the directory [/ext/a] can be
    listed, and the note [b.md] that follows it never reaches the vault. *)
Example failing_createFolder_aborts_the_walk :
  let s := settingsAll [] in
  let store := dirOf [("ext", dirOf [("a", dirOf []); ("b.md", fileOf "bee")])] in
  let w := {| vault := ∅; vaultFaults := ["a"]; extfs := store;
              isProcessingExternalChange := false; timers := [];
              modals := []; fileWatchers := [];
              recursiveWatchSupported := true |} in
  let r := syncAllExternalDirectories s w in
  value r = Ok tt
  /\ issued r = [(VaultCreateFolder "a", false); (VaultCreateFolder "", true);
                 (VaultCreateFolder "a", false)]
  /\ vault (after r) !! "b.md" = None.
Proof. vm_compute. repeat split. Qed.

(** ** Walks that follow their plan *)

#[local] Arguments bind {A B} m f w : simpl never.
#[local] Arguments tryCatch {A} m h w : simpl never.
#[local] Arguments getAbstractFileByPath p w : simpl never.

Lemma getAbstractFileByPath_run p w :
  getAbstractFileByPath p w
  = Run (Ok (match vault w !! p with
             | Some (VFile _) => Some (TFile p)
             | Some VFolder => Some (TFolder p)
             | None => None
             end)) w [].
Proof. reflexivity. Qed.

(** A call to the vault either succeeds, on a path in the state that it
    expects, or throws and leaves the world as it was, the call logged as
    failed. *)
Lemma vaultCreateFolder_cases p w :
  (vault w !! p = None
   /\ vaultCreateFolder p w
      = Run (Ok tt) (withVault (<[p := VFolder]> (vault w)) w)
            [(VaultCreateFolder p, true)])
  \/ (exists e, vaultCreateFolder p w
                = Run (Throw e) w [(VaultCreateFolder p, false)]).
Proof.
  unfold vaultCreateFolder, bind, get. simpl.
  destruct (faulty w p); [right; eexists; reflexivity |].
  destruct (vault w !! p); [right; eexists; reflexivity |].
  left. split; reflexivity.
Qed.

Lemma vaultCreateAs_cases c p data w :
  (vault w !! p = None
   /\ vaultCreateAs c p data w
      = Run (Ok tt) (withVault (<[p := VFile data]> (vault w)) w) [(c, true)])
  \/ (exists e, vaultCreateAs c p data w = Run (Throw e) w [(c, false)]).
Proof.
  unfold vaultCreateAs, bind, get. simpl.
  destruct (faulty w p); [right; eexists; reflexivity |].
  destruct (vault w !! p); [right; eexists; reflexivity |].
  left. split; reflexivity.
Qed.

Lemma vaultModifyAs_cases c p data w :
  vaultModifyAs c (TFile p) data w
  = Run (Ok tt) (withVault (<[p := VFile data]> (vault w)) w) [(c, true)]
  \/ (exists e, vaultModifyAs c (TFile p) data w
                = Run (Throw e) w [(c, false)]).
Proof.
  unfold vaultModifyAs, bind, get. simpl.
  destruct (faulty w p); [right; eexists; reflexivity |].
  destruct (vault w !! p) as [[]|]; [left | right; eexists | right; eexists];
    reflexivity.
Qed.

Lemma not_succeeded_false c : ~ succeeded (c, false).
Proof. discriminate. Qed.

(** A failed call stays in the log, whatever catches the exception. *)
Lemma tryCatch_failed_call {A} (m : M A) (h : string -> M A) w e c :
  m w = Run (Throw e) w [(c, false)] ->
  ~ Forall succeeded (issued (tryCatch m h w)).
Proof.
  intros H. unfold tryCatch. rewrite H. simpl. intros HF.
  inversion HF as [|? ? Hc _]. discriminate Hc.
Qed.

Lemma bind_failed_call {A B} (m : M A) (f : A -> M B) w e c :
  m w = Run (Throw e) w [(c, false)] ->
  ~ Forall succeeded (issued (bind m f w)).
Proof.
  intros H. unfold bind. rewrite H. simpl. intros HF.
  inversion HF as [|? ? Hc _]. discriminate Hc.
Qed.

Lemma tryCatch_step {A} (m : M A) (h : string -> M A) w w1 a t :
  m w = Run (Ok a) w1 t -> tryCatch m h w = Run (Ok a) w1 t.
Proof. intros H. unfold tryCatch. now rewrite H. Qed.

#[local] Arguments Js.code c : simpl never.
#[local] Arguments Js.between lo hi c : simpl never.

Lemma decodeUtf8_replacement s :
  Js.decodeUtf8 (Js.replacement s) = Js.replacement (Js.decodeUtf8 s).
Proof. reflexivity. Qed.

Lemma decodeUtf8_idempotent_upto (n : nat) :
  forall s, String.length s <= n ->
            Js.decodeUtf8 (Js.decodeUtf8 s) = Js.decodeUtf8 s.
Proof.
  induction n as [|n IH]; intros s Hlen.
  { destruct s; [reflexivity | simpl in Hlen; lia]. }
  destruct s as [|b0 s0]; [reflexivity |].
  cbn [String.length] in Hlen.
  assert (Hrep : forall t, String.length t <= n ->
            Js.decodeUtf8 (Js.replacement (Js.decodeUtf8 t))
            = Js.replacement (Js.decodeUtf8 t)).
  { intros t Ht. rewrite decodeUtf8_replacement. now rewrite IH. }
  cbn [Js.decodeUtf8].
  destruct (Js.code b0 <? 128)%nat eqn:E1.
  { cbn [Js.decodeUtf8]. rewrite E1. rewrite IH by lia. reflexivity. }
  destruct (Js.between 194 223 b0) eqn:E2.
  { destruct s0 as [|b1 s1]; [reflexivity |]. cbn [String.length] in Hlen.
    destruct (Js.between 128 191 b1) eqn:F1.
    - cbn [Js.decodeUtf8]. rewrite E1, E2, F1. rewrite IH by lia. reflexivity.
    - apply Hrep. cbn [String.length]. lia. }
  destruct (Js.between 224 239 b0) eqn:E3.
  { cbv zeta.
    destruct s0 as [|b1 s1]; [reflexivity |]. cbn [String.length] in Hlen.
    destruct (Js.between _ _ b1) eqn:F1.
    - destruct s1 as [|b2 s2]; [reflexivity |]. cbn [String.length] in Hlen.
      destruct (Js.between 128 191 b2) eqn:F2.
      + cbn [Js.decodeUtf8]. rewrite E1, E2, E3. cbv zeta. rewrite F1, F2.
        rewrite IH by lia. reflexivity.
      + apply Hrep. cbn [String.length]. lia.
    - apply Hrep. cbn [String.length]. lia. }
  destruct (Js.between 240 244 b0) eqn:E4.
  { cbv zeta.
    destruct s0 as [|b1 s1]; [reflexivity |]. cbn [String.length] in Hlen.
    destruct (Js.between _ _ b1) eqn:F1.
    - destruct s1 as [|b2 s2]; [reflexivity |]. cbn [String.length] in Hlen.
      destruct (Js.between 128 191 b2) eqn:F2.
      + destruct s2 as [|b3 s3]; [reflexivity |]. cbn [String.length] in Hlen.
        destruct (Js.between 128 191 b3) eqn:F3.
        * cbn [Js.decodeUtf8]. rewrite E1, E2, E3, E4. cbv zeta.
          rewrite F1, F2, F3. rewrite IH by lia. reflexivity.
        * apply Hrep. cbn [String.length]. lia.
      + apply Hrep. cbn [String.length]. lia.
    - apply Hrep. cbn [String.length]. lia. }
  apply Hrep. lia.
Qed.

(** Decoding what has been decoded changes nothing: a text that was read
    and written back reads as itself. *)
Lemma decodeUtf8_idempotent s :
  Js.decodeUtf8 (Js.decodeUtf8 s) = Js.decodeUtf8 s.
Proof. now apply (decodeUtf8_idempotent_upto (String.length s)). Qed.

Lemma contentOf_idempotent p data :
  contentOf p (contentOf p data) = contentOf p data.
Proof.
  unfold contentOf. destruct (isBinaryFileType p); cbn [decodeAs];
    [reflexivity | apply decodeUtf8_idempotent].
Qed.

(** A file that holds a content as it was read reads as that content. *)
Lemma satisfied_written v p c :
  contentOf p c = c -> v !! p = Some (VFile c) -> satisfied v (NeedFile p c).
Proof. intros Hc Hl. now exists c. Qed.

(** The relation [grows] is a preorder that the successful calls respect;
    the combinators of the monad carry plans. *)
Section Follows.

Variable fs : enode.
Variable I : list item.
Hypothesis I_consistent : consistentTargets I.

Lemma grows_extfs w w' : grows I w w' -> extfs w' = extfs w.
Proof. intros (F & _). now rewrite F. Qed.

Lemma grows_refl w : grows I w w.
Proof.
  split; [symmetry; apply withVault_id |]. repeat split; auto.
Qed.

Lemma grows_trans w1 w2 w3 : grows I w1 w2 -> grows I w2 w3 -> grows I w1 w3.
Proof.
  intros (F1 & O1 & K1 & D1 & N1) (F2 & O2 & K2 & D2 & N2).
  split; [| split; [| split; [| split]]].
  - rewrite F2 at 1. now rewrite F1.
  - auto.
  - intros p c Hin H. apply K2; [exact Hin |]. now apply K1.
  - auto.
  - intros p Hp. destruct (N1 p Hp) as [H | [H | (c & Hin & H)]].
    + now apply N2.
    + right. left. now apply D2.
    + right. right. exists c. split; [exact Hin |]. now apply K2.
Qed.

(** A folder created at a free path. *)
Lemma grows_new_folder w p :
  vault w !! p = None -> grows I w (withVault (<[p := VFolder]> (vault w)) w).
Proof.
  intros Hfree. split; [reflexivity |]. simpl.
  split; [| split; [| split]].
  - intros q [x Hq]. unfold occupied.
    destruct (decide (p = q)) as [->|Hne].
    + rewrite lookup_insert_eq. eauto.
    + rewrite lookup_insert_ne by exact Hne. eauto.
  - intros q c _ (d & Hq & Hc). exists d. split; [| exact Hc].
    destruct (decide (p = q)) as [->|Hne]; [congruence |].
    now rewrite lookup_insert_ne.
  - intros q Hq.
    destruct (decide (p = q)) as [->|Hne]; [congruence |].
    now rewrite lookup_insert_ne.
  - intros q Hq. destruct (decide (p = q)) as [->|Hne].
    + right. left. apply lookup_insert_eq.
    + left. now rewrite lookup_insert_ne.
Qed.

(** A file created at a free path, with a content that [I] asks for. *)
Lemma grows_new_file w p c :
  NeedFile p c ∈ I -> contentOf p c = c -> vault w !! p = None ->
  grows I w (withVault (<[p := VFile c]> (vault w)) w).
Proof.
  intros Hin Hc Hfree. split; [reflexivity |]. simpl.
  split; [| split; [| split]].
  - intros q [x Hq]. unfold occupied.
    destruct (decide (p = q)) as [->|Hne].
    + rewrite lookup_insert_eq. eauto.
    + rewrite lookup_insert_ne by exact Hne. eauto.
  - intros q c' _ (d & Hq & Hc'). exists d. split; [| exact Hc'].
    destruct (decide (p = q)) as [->|Hne]; [congruence |].
    now rewrite lookup_insert_ne.
  - intros q Hq.
    destruct (decide (p = q)) as [->|Hne]; [congruence |].
    now rewrite lookup_insert_ne.
  - intros q Hq. destruct (decide (p = q)) as [->|Hne].
    + right. right. exists c. split; [exact Hin |].
      apply satisfied_written; [exact Hc | apply lookup_insert_eq].
    + left. now rewrite lookup_insert_ne.
Qed.

(** A file written with a content that [I] asks for. *)
Lemma grows_write w p c d0 :
  NeedFile p c ∈ I -> contentOf p c = c -> vault w !! p = Some (VFile d0) ->
  grows I w (withVault (<[p := VFile c]> (vault w)) w).
Proof.
  intros Hin Hc Hfile. split; [reflexivity |]. simpl.
  split; [| split; [| split]].
  - intros q [x Hq]. unfold occupied.
    destruct (decide (p = q)) as [->|Hne].
    + rewrite lookup_insert_eq. eauto.
    + rewrite lookup_insert_ne by exact Hne. eauto.
  - intros q c' Hin' (d & Hq & Hc').
    destruct (decide (p = q)) as [->|Hne].
    + rewrite <- (I_consistent _ _ _ Hin Hin').
      apply satisfied_written; [exact Hc | apply lookup_insert_eq].
    + exists d. split; [| exact Hc']. now rewrite lookup_insert_ne.
  - intros q Hq.
    destruct (decide (p = q)) as [->|Hne]; [congruence |].
    now rewrite lookup_insert_ne.
  - intros q Hq.
    destruct (decide (p = q)) as [->|Hne]; [congruence |].
    left. now rewrite lookup_insert_ne.
Qed.

Lemma occupied_grows w w' p :
  grows I w w' -> occupied (vault w) p -> occupied (vault w') p.
Proof. intros (_ & O & _). apply O. Qed.

Lemma satisfied_grows w w' i :
  grows I w w' -> i ∈ I ->
  satisfied (vault w) i -> satisfied (vault w') i.
Proof.
  intros G Hin. destruct i as [p | p d]; simpl.
  - intros [H | H]; [left | right].
    + now apply (occupied_grows w).
    + eapply Forall_impl; [exact H |]. intros q. now apply occupied_grows.
  - destruct G as (_ & _ & K & _). now apply K.
Qed.

Lemma follows_ret : follows fs I (ret tt) ([], Ok tt).
Proof.
  split.
  - intros w _ _ _.
    split; [apply grows_refl | split; [constructor | reflexivity]].
  - reflexivity.
Qed.

Lemma follows_throw e : follows fs I (throw e) ([], Throw e).
Proof.
  split.
  - intros w _ _ _.
    split; [apply grows_refl | split; [constructor | reflexivity]].
  - reflexivity.
Qed.

Lemma follows_ext (m m' : M unit) pl :
  (forall w, extfs w = fs -> m w = m' w) ->
  follows fs I m pl -> follows fs I m' pl.
Proof.
  intros E [H1 H2]. split; intros w Hfs; rewrite <- (E w Hfs); auto.
Qed.

(** Two operations in sequence follow the sequence of their plans. *)
Lemma follows_seq (m1 m2 : M unit) p1 p2 :
  follows fs I m1 p1 -> follows fs I m2 p2 ->
  follows fs I (bind m1 (fun _ => m2)) (planSeq p1 p2).
Proof.
  intros [A1 B1] [A2 B2]. split.
  - intros w Hfs Hok Hin.
    destruct (value (m1 w)) as [[]|e] eqn:E1.
    + rewrite (bind_ok _ _ _ _ E1) in *. simpl in Hok.
      apply Forall_app in Hok. destruct Hok as [Hok1 Hok2].
      assert (Hin1 : forall i, i ∈ fst p1 -> i ∈ I).
      { intros i Hi. apply Hin. unfold planSeq.
        destruct (snd p1); simpl; [apply elem_of_app; now left | exact Hi]. }
      destruct (A1 w Hfs Hok1 Hin1) as (G1 & S1 & V1).
      rewrite E1 in V1. unfold planSeq in *. rewrite <- V1 in *. simpl in *.
      assert (Hin2 : forall i, i ∈ fst p2 -> i ∈ I).
      { intros i Hi. apply Hin. apply elem_of_app. now right. }
      assert (Hfs1 : extfs (after (m1 w)) = fs)
        by (rewrite (grows_extfs _ _ G1); exact Hfs).
      destruct (A2 (after (m1 w)) Hfs1 Hok2 Hin2) as (G2 & S2 & V2).
      split; [now apply (grows_trans _ (after (m1 w))) |].
      split; [| exact V2].
      apply Forall_app. split; [| exact S2].
      rewrite Forall_forall in S1 |- *. intros i Hi.
      apply (satisfied_grows (after (m1 w))); auto.
    + rewrite (bind_throw _ _ _ _ E1) in *. simpl in Hok.
      assert (Hin1 : forall i, i ∈ fst p1 -> i ∈ I).
      { intros i Hi. apply Hin. unfold planSeq.
        destruct (snd p1); simpl; [apply elem_of_app; now left | exact Hi]. }
      destruct (A1 w Hfs Hok Hin1) as (G1 & S1 & V1).
      rewrite E1 in V1. unfold planSeq. rewrite <- V1. simpl. auto.
  - intros w Hfs Hs. unfold planSeq in *.
    destruct (snd p1) as [[]|e] eqn:E1; simpl in *.
    + apply Forall_app in Hs. destruct Hs as [Hs1 Hs2].
      pose proof (B1 w Hfs Hs1) as R1.
      rewrite (bind_noop _ _ _ _ R1). now apply B2.
    + pose proof (B1 w Hfs Hs) as R1.
      unfold bind. now rewrite R1.
Qed.

(** A loop follows the plans of its bodies, in order. *)
Lemma follows_forEach {A} (body : A -> M unit) (f : A -> plan) (l : list A) :
  (forall x, x ∈ l -> follows fs I (body x) (f x)) ->
  follows fs I (forEach body l) (planEach f l).
Proof.
  induction l as [|x l IH]; intros H; simpl.
  - apply follows_ret.
  - apply follows_seq.
    + apply H. constructor.
    + apply IH. intros y Hy. apply H. now constructor.
Qed.

(** The two handlers of the walks: the one that throws again and the one
    that goes on. *)
Lemma follows_rethrow (m : M unit) pl :
  follows fs I m pl -> follows fs I (tryCatch m (fun message => throw message)) pl.
Proof.
  apply follows_ext. intros w _. symmetry. apply tryCatch_rethrow.
Qed.

Lemma follows_swallow (m : M unit) pl :
  follows fs I m pl -> follows fs I (tryCatch m (fun _ => ret tt)) (planCatch pl).
Proof.
  intros [A B]. split.
  - intros w Hfs Hok Hin. simpl in Hin. unfold tryCatch in *.
    destruct (value (m w)) as [[]|e] eqn:E.
    + destruct (A w Hfs Hok Hin) as (G & S & V). simpl. auto.
    + simpl in *. rewrite app_nil_r in Hok.
      destruct (A w Hfs Hok Hin) as (G & S & V). auto.
  - intros w Hfs Hs. simpl in Hs. pose proof (B w Hfs Hs) as R.
    unfold tryCatch. rewrite R. simpl. destruct (snd pl) as [[]|e]; reflexivity.
Qed.

End Follows.

(** The creation of the folders of a path follows the plan that asks for
    that directory. *)
Section FollowsSteps.

Variable fs : enode.
Variable I : list item.
Hypothesis I_consistent : consistentTargets I.

Lemma ensureVaultDirectoryFrom_cons cur dir rest w :
  ensureVaultDirectoryFrom cur (dir :: rest) w
  = bind (getAbstractFileByPath (nextPath cur dir))
      (fun existingDir =>
         bind (match existingDir with
               | None =>
                   tryCatch (vaultCreateFolder (nextPath cur dir))
                     (fun message =>
                        if negb (Js.truthy message)
                           || negb (Js.includes message "already exists")
                        then throw message else ret tt)
               | Some _ => ret tt
               end)
              (fun _ => ensureVaultDirectoryFrom (nextPath cur dir) rest)) w.
Proof. reflexivity. Qed.

Lemma ensurePathsFrom_cons cur dir rest :
  ensurePathsFrom cur (dir :: rest)
  = nextPath cur dir :: ensurePathsFrom (nextPath cur dir) rest.
Proof. reflexivity. Qed.

(** When no call fails, every path of the loop is occupied in the end. *)
Lemma ensureVaultDirectoryFrom_ensures dirs cur w :
  Forall succeeded (issued (ensureVaultDirectoryFrom cur dirs w)) ->
  grows I w (after (ensureVaultDirectoryFrom cur dirs w))
  /\ Forall (occupied (vault (after (ensureVaultDirectoryFrom cur dirs w))))
            (ensurePathsFrom cur dirs)
  /\ value (ensureVaultDirectoryFrom cur dirs w) = Ok tt.
Proof.
  revert cur w. induction dirs as [|dir rest IH]; intros cur w Hok.
  - split; [apply grows_refl | split; [constructor | reflexivity]].
  - rewrite ensureVaultDirectoryFrom_cons, ensurePathsFrom_cons in *.
    set (cur' := nextPath cur dir) in *.
    rewrite (bind_noop _ _ _ _ (getAbstractFileByPath_run cur' w)) in *.
    destruct (vault w !! cur') as [n|] eqn:Hl.
    + assert (Hskip : forall k : unit -> M unit,
                bind (match (match n with
                             | VFile _ => Some (TFile cur')
                             | VFolder => Some (TFolder cur')
                             end) with
                      | Some _ => ret tt
                      | None => tryCatch (vaultCreateFolder cur')
                          (fun message =>
                             if negb (Js.truthy message)
                                || negb (Js.includes message "already exists")
                             then throw message else ret tt)
                      end) k w = k tt w).
      { intros k. destruct n; now apply bind_noop. }
      rewrite Hskip in *.
      destruct (IH cur' w Hok) as (G & F & V).
      split; [exact G | split; [| exact V]].
      constructor; [| exact F].
      apply (occupied_grows I w); [exact G |]. unfold occupied. rewrite Hl. eauto.
    + destruct (vaultCreateFolder_cases cur' w) as [[_ Hrun] | [e Hrun]].
      * rewrite (bind_step _ _ _ _ _ _ (tryCatch_step _ _ _ _ _ _ Hrun)) in *.
        cbn [value after issued] in *.
        apply Forall_app in Hok. destruct Hok as [_ Hok].
        destruct (IH cur' _ Hok) as (G & F & V).
        pose proof (grows_new_folder I w cur' Hl) as G0.
        split; [now apply (grows_trans I _ _ _ G0) | split; [| exact V]].
        constructor; [| exact F].
        apply (occupied_grows I _ _ _ G). unfold occupied. simpl.
        rewrite lookup_insert_eq. eauto.
      * exfalso. revert Hok. unfold bind at 1.
        match goal with
        | |- context [tryCatch ?m ?h w] =>
            pose proof (tryCatch_failed_call m h w e _ Hrun) as Hf;
            destruct (tryCatch m h w) as [v' w' t']
        end.
        simpl in *. destruct v'; simpl; intros HF.
        -- apply Forall_app in HF. tauto.
        -- tauto.
Qed.

(** Where every path of the loop is occupied, the loop issues nothing. *)
Lemma ensureVaultDirectoryFrom_settled dirs cur w :
  Forall (occupied (vault w)) (ensurePathsFrom cur dirs) ->
  ensureVaultDirectoryFrom cur dirs w = Run (Ok tt) w [].
Proof.
  revert cur. induction dirs as [|dir rest IH]; intros cur H; [reflexivity |].
  rewrite ensureVaultDirectoryFrom_cons. rewrite ensurePathsFrom_cons in H.
  set (cur' := nextPath cur dir) in *.
  inversion H as [|? ? [n Hn] Hrest]; subst.
  rewrite (bind_noop _ _ _ _ (getAbstractFileByPath_run cur' w)), Hn.
  destruct n; (rewrite (bind_noop (ret tt) _ w tt eq_refl)); now apply IH.
Qed.

Lemma follows_createIfMissing p :
  follows fs I (createIfMissing p) ([NeedDir p], Ok tt).
Proof.
  split.
  - intros w _ Hok _. unfold createIfMissing in *.
    rewrite (bind_noop _ _ _ _ (getAbstractFileByPath_run p w)) in *.
    destruct (vault w !! p) as [n|] eqn:Hl.
    + assert (E : when (isNone (match n with
                                | VFile _ => Some (TFile p)
                                | VFolder => Some (TFolder p)
                                end)) (ensureVaultDirectory p) w
                  = Run (Ok tt) w []) by now destruct n.
      rewrite E. simpl.
      split; [apply grows_refl | split; [| reflexivity]].
      constructor; [| constructor]. left. unfold occupied. rewrite Hl. eauto.
    + simpl in *. unfold ensureVaultDirectory in *.
      destruct (ensureVaultDirectoryFrom_ensures _ _ _ Hok) as (G & F & V).
      split; [exact G | split; [| exact V]].
      constructor; [| constructor]. right. exact F.
  - intros w _ Hs. inversion Hs as [|? ? H _]; subst. unfold createIfMissing.
    rewrite (bind_noop _ _ _ _ (getAbstractFileByPath_run p w)).
    destruct (vault w !! p) as [[]|] eqn:Hl; try reflexivity.
    simpl. destruct H as [[n Hn] | H].
    + unfold occupied in *. congruence.
    + now apply ensureVaultDirectoryFrom_settled.
Qed.

End FollowsSteps.

(** The synchronisation of one external file follows the plan that asks
    for that file. *)
Section FollowsFiles.

Variable fs : enode.
Variable I : list item.
Hypothesis I_consistent : consistentTargets I.

Lemma writeIfDifferent_unfold b p d w :
  writeIfDifferent b (TFile p) d w
  = bind (if b then vaultReadBinary (TFile p) else vaultRead (TFile p))
      (fun currentContent =>
         if negb (String.eqb currentContent d) then
           vaultModifyAs
             (if b then VaultModifyBinary p d else VaultModify p d) (TFile p) d
         else ret tt) w.
Proof. destruct b; reflexivity. Qed.

(** The read of the difference check, for the kind of the path. *)
Lemma currentContent_run p d0 w :
  vault w !! p = Some (VFile d0) ->
  (if isBinaryFileType p then vaultReadBinary (TFile p)
   else vaultRead (TFile p)) w
  = Run (Ok (contentOf p d0)) w [].
Proof.
  intros Hl. unfold contentOf. destruct (isBinaryFileType p); cbn [decodeAs].
  - now apply vaultReadBinary_run.
  - now apply vaultRead_run.
Qed.

(** The difference check on a file that the vault holds. *)
Lemma writeIfDifferent_writes p c d0 w :
  vault w !! p = Some (VFile d0) ->
  NeedFile p c ∈ I -> contentOf p c = c ->
  let r := writeIfDifferent (isBinaryFileType p) (TFile p) c w in
  Forall succeeded (issued r) ->
  grows I w (after r)
  /\ satisfied (vault (after r)) (NeedFile p c)
  /\ value r = Ok tt.
Proof.
  intros Hl Hin Hc r. subst r. rewrite writeIfDifferent_unfold.
  rewrite (bind_noop _ _ _ _ (currentContent_run _ _ _ Hl)).
  destruct (String.eqb_spec (contentOf p d0) c) as [Heq|Hne]; cbn [negb].
  - intros _. split; [apply grows_refl | split; [| reflexivity]].
    now exists d0.
  - destruct (vaultModifyAs_cases
                (if isBinaryFileType p
                 then VaultModifyBinary p c else VaultModify p c) p c w)
      as [Hrun | [e Hrun]]; rewrite Hrun; simpl; intros Hok.
    + split; [now apply (grows_write _ I_consistent _ _ _ d0) |].
      split; [| reflexivity].
      apply satisfied_written; [exact Hc | apply lookup_insert_eq].
    + inversion Hok as [|? ? Hf _]. discriminate Hf.
Qed.

Lemma writeIfDifferent_settled p c w :
  satisfied (vault w) (NeedFile p c) ->
  writeIfDifferent (isBinaryFileType p) (TFile p) c w = Run (Ok tt) w [].
Proof.
  intros (d & Hl & Hc). rewrite writeIfDifferent_unfold.
  rewrite (bind_noop _ _ _ _ (currentContent_run _ _ _ Hl)).
  now rewrite Hc, String.eqb_refl.
Qed.

Lemma syncContent_unfold_create b p d existing w :
  existing = None \/ existing = Some (TFolder p) ->
  syncContent b p d existing w
  = bind (when (Js.truthy (Path.dirname p)
                && negb (String.eqb (Path.dirname p) "."))
               (ensureVaultDirectory (Path.dirname p)))
      (fun _ =>
         tryCatch
           (vaultCreateAs
              (if b then VaultCreateBinary p d else VaultCreate p d) p d)
           (fun message =>
              if Js.truthy message && Js.includes message "already exists"
              then bind (sleep 200) (fun _ =>
                     bind (getAbstractFileByPath p) (fun fileAfterError =>
                       match fileAfterError with
                       | Some (TFile p0) => writeIfDifferent b (TFile p0) d
                       | _ => ret tt
                       end))
              else throw message)) w.
Proof. intros [-> | ->]; destruct b; reflexivity. Qed.

(** The creation of a file that the vault does not hold. *)
Lemma syncContent_creates b p d existing w :
  existing = None \/ existing = Some (TFolder p) ->
  NeedFile p d ∈ I -> contentOf p d = d ->
  Forall succeeded (issued (syncContent b p d existing w)) ->
  grows I w (after (syncContent b p d existing w))
  /\ vault (after (syncContent b p d existing w)) !! p = Some (VFile d)
  /\ value (syncContent b p d existing w) = Ok tt.
Proof.
  intros Hex Hin Hc. rewrite (syncContent_unfold_create _ _ _ _ _ Hex).
  set (parent := when _ _).
  assert (Hparent : Forall succeeded (issued (parent w)) ->
            grows I w (after (parent w)) /\ value (parent w) = Ok tt).
  { subst parent. destruct (_ && _); simpl.
    - intros Hok. unfold ensureVaultDirectory.
      destruct (ensureVaultDirectoryFrom_ensures I _ _ _ Hok) as (G & _ & V).
      auto.
    - intros _. split; [apply grows_refl | reflexivity]. }
  intros Hok.
  destruct (value (parent w)) as [[]|e] eqn:Ev.
  2:{ rewrite (bind_throw _ _ _ _ Ev) in Hok. simpl in Hok.
      destruct (Hparent Hok) as [_ V]. congruence. }
  rewrite (bind_ok _ _ _ _ Ev) in *. cbn [value after issued] in *.
  apply Forall_app in Hok. destruct Hok as [Hok1 Hok2].
  destruct (Hparent Hok1) as [G1 _].
  set (c := if b then VaultCreateBinary p d else VaultCreate p d) in *.
  destruct (vaultCreateAs_cases c p d (after (parent w)))
    as [[Hfree Hrun] | [e Hrun]].
  - rewrite (tryCatch_step _ _ _ _ _ _ Hrun) in *. cbn [value after issued].
    split; [| split; [apply lookup_insert_eq | reflexivity]].
    apply (grows_trans I _ _ _ G1). now apply grows_new_file.
  - exfalso. revert Hok2. now apply tryCatch_failed_call with (e := e) (c := c).
Qed.

Lemma syncFileEntry_unfold entry p w :
  syncFileEntry entry p w
  = tryCatch
      (bind (readFileOf (Some entry)
               (if isBinaryFileType p then Buffer else Utf8))
         (fun content =>
            bind (getAbstractFileByPath p) (fun existingFile =>
              syncContent (isBinaryFileType p) p content existingFile)))
      (fun _ => ret tt) w.
Proof. reflexivity. Qed.

Lemma tryCatch_ok {A} (m : M A) (h : string -> M A) w a :
  value (m w) = Ok a -> tryCatch m h w = m w.
Proof. intros H. unfold tryCatch. now rewrite H. Qed.

Lemma readFileOf_run d w :
  forall p, readFileOf (Some (EFile (Some d)))
              (if isBinaryFileType p then Buffer else Utf8) w
            = Run (Ok (contentOf p d)) w [].
Proof. reflexivity. Qed.

Lemma follows_syncFileEntry_readable p d :
  follows fs I (syncFileEntry (EFile (Some d)) p)
          ([NeedFile p (contentOf p d)], Ok tt).
Proof.
  set (c := contentOf p d).
  assert (Hc : contentOf p c = c) by apply contentOf_idempotent.
  split.
  - intros w _ Hok Hin.
    assert (Hin' : NeedFile p c ∈ I) by (apply Hin; constructor).
    rewrite syncFileEntry_unfold in *.
    set (b := isBinaryFileType p) in *.
    set (body := bind _ _) in *.
    assert (Hbody : body w
              = syncContent b p c
                  (match vault w !! p with
                   | Some (VFile _) => Some (TFile p)
                   | Some VFolder => Some (TFolder p)
                   | None => None
                   end) w).
    { subst body b. rewrite (bind_noop _ _ _ _ (readFileOf_run d w p)).
      now rewrite (bind_noop _ _ _ _ (getAbstractFileByPath_run p w)). }
    assert (Hmain : Forall succeeded (issued (body w)) ->
              grows I w (after (body w))
              /\ satisfied (vault (after (body w))) (NeedFile p c)
              /\ value (body w) = Ok tt).
    { rewrite Hbody. destruct (vault w !! p) as [[d0|]|] eqn:Hl.
      - unfold syncContent. subst b.
        now apply (writeIfDifferent_writes _ _ d0).
      - intros Hok'.
        destruct (syncContent_creates b p c (Some (TFolder p)) w) as (G & L & V);
          auto.
        split; [exact G | split; [| exact V]]. now apply satisfied_written.
      - intros Hok'.
        destruct (syncContent_creates b p c None w) as (G & L & V); auto.
        split; [exact G | split; [| exact V]]. now apply satisfied_written. }
    destruct (value (body w)) as [[]|e] eqn:Ev.
    + rewrite (tryCatch_ok _ _ _ _ Ev) in *.
      destruct (Hmain Hok) as (G & L & V).
      split; [exact G | split; [| exact Ev]].
      constructor; [exact L | constructor].
    + exfalso. unfold tryCatch in Hok. rewrite Ev in Hok. simpl in Hok.
      rewrite app_nil_r in Hok. destruct (Hmain Hok) as (_ & _ & V).
      congruence.
  - intros w _ Hs. inversion Hs as [|? ? Hl _]; subst.
    rewrite syncFileEntry_unfold. apply tryCatch_noop.
    rewrite (bind_noop _ _ _ _ (readFileOf_run d w p)).
    destruct Hl as (d0 & Hl & Hd0).
    rewrite (bind_noop _ _ _ _ (getAbstractFileByPath_run p w)), Hl.
    unfold syncContent. apply writeIfDifferent_settled. now exists d0.
Qed.

Lemma follows_syncFileEntry_unreadable p :
  follows fs I (syncFileEntry (EFile None) p) ([], Ok tt).
Proof.
  assert (E : forall w, syncFileEntry (EFile None) p w = Run (Ok tt) w [])
    by reflexivity.
  split.
  - intros w _ _ _. rewrite E. simpl.
    split; [apply grows_refl | split; [constructor | reflexivity]].
  - intros w _ _. apply E.
Qed.

End FollowsFiles.

(** The walks follow their plans, by induction on the external tree. *)
Section FollowsWalks.

Variable s : SyncRepSettings.
Variable fs : enode.
Variable I : list item.
Hypothesis I_consistent : consistentTargets I.

Lemma syncPlan_unfold dir rel :
  syncPlan s dir rel
  = if negb (shouldSyncFile s rel) then ([], Ok tt)
    else planSeq ([NeedDir rel], Ok tt)
           match dir with
           | EDir (Some entries) =>
               planEach (syncEntryPlan s (syncPlan s) rel) entries
           | _ => ([], Throw "readdir failed")
           end.
Proof. destruct dir; reflexivity. Qed.

Lemma scanPlan_unfold base rel :
  scanPlan s base rel
  = let entriesPlan :=
      match base with
      | EDir (Some entries) =>
          planEach (scanEntryPlan (scanPlan s) rel) entries
      | _ => ([], Throw "readdir failed")
      end in
    planCatch
      (if Js.truthy rel then
         if shouldSyncFile s (Js.replaceBackslashes rel) then
           planSeq ([NeedDir (Js.replaceBackslashes rel)], Ok tt) entriesPlan
         else ([], Ok tt)
       else entriesPlan).
Proof. destruct base; reflexivity. Qed.

Lemma follows_syncDirectoryFromExternal dir rel :
  follows fs I (syncDirectoryFromExternal s dir rel) (syncPlan s dir rel).
Proof.
  revert rel.
  induction dir as [c| |l IH|] using enode_ind'; intros rel;
    rewrite syncDirectoryFromExternal_unfold, syncPlan_unfold;
    apply follows_rethrow;
    (destruct (negb (shouldSyncFile s rel)); [apply follows_ret |]);
    (apply follows_seq; [now apply follows_createIfMissing |]);
    try apply follows_throw.
  apply follows_forEach. intros [name entry] Hin.
  rewrite Forall_forall in IH. specialize (IH _ Hin). simpl in IH.
  unfold syncEntry, syncEntryPlan.
  destruct (negb (shouldSyncFile s _)); [apply follows_ret |].
  destruct entry as [[d|]| |].
  - now apply follows_syncFileEntry_readable.
  - apply follows_syncFileEntry_unreadable.
  - apply IH.
  - apply follows_ret.
Qed.

Lemma bind_ext {A B} (m : M A) (f g : A -> M B) w :
  (forall a w', f a w' = g a w') -> bind m f w = bind m g w.
Proof.
  intros H. unfold bind. destruct (value (m w)); [| reflexivity].
  now rewrite H.
Qed.

Lemma follows_scanBody rel (entriesM : M unit) (entriesPlan : plan) :
  follows fs I entriesM entriesPlan ->
  follows fs I
    (bind (scanDirectoryItself s rel)
          (fun explore => if explore then entriesM else ret tt))
    (if Js.truthy rel then
       if shouldSyncFile s (Js.replaceBackslashes rel) then
         planSeq ([NeedDir (Js.replaceBackslashes rel)], Ok tt) entriesPlan
       else ([], Ok tt)
     else entriesPlan).
Proof.
  intros H. unfold scanDirectoryItself.
  destruct (Js.truthy rel);
    [destruct (shouldSyncFile s (Js.replaceBackslashes rel)) |].
  - apply follows_ext
      with (m := bind (createIfMissing (Js.replaceBackslashes rel))
                      (fun _ => entriesM)).
    + intros w _. rewrite bind_assoc. apply bind_ext. intros a w'.
      symmetry. exact (bind_noop (ret true) _ w' true eq_refl).
    + apply follows_seq; [now apply follows_createIfMissing | exact H].
  - apply follows_ext with (m := ret tt); [| apply follows_ret].
    intros w _. symmetry. exact (bind_noop (ret false) _ w false eq_refl).
  - apply follows_ext with (m := entriesM); [| exact H].
    intros w _. symmetry. exact (bind_noop (ret true) _ w true eq_refl).
Qed.

Lemma follows_scanAndCreateAllDirectories base rel :
  follows fs I (scanAndCreateAllDirectories s base rel) (scanPlan s base rel).
Proof.
  revert rel.
  induction base as [c| |l IH|] using enode_ind'; intros rel;
    rewrite scanAndCreateAllDirectories_unfold, scanPlan_unfold; cbv zeta;
    apply follows_swallow, follows_scanBody; try apply follows_throw.
  apply follows_forEach. intros [name entry] Hin.
  rewrite Forall_forall in IH. specialize (IH _ Hin). simpl in IH.
  unfold scanEntry, scanEntryPlan.
  destruct (isDirectory entry); [apply IH | apply follows_ret].
Qed.

Lemma nodeAt_run p w : extfs w = fs -> nodeAt p w = Run (Ok (nodeOf fs p)) w [].
Proof. intros <-. reflexivity. Qed.

Lemma existsSync_on p w :
  extfs w = fs -> existsSync p w = Run (Ok (exists_ fs p)) w [].
Proof. intros <-. reflexivity. Qed.

Lemma follows_scanAt basePath rel :
  follows fs I (scanAndCreateAllDirectoriesAt s basePath rel)
    (if exists_ fs basePath then scanPlan s (nodeOf fs basePath) rel
     else ([], Ok tt)).
Proof.
  unfold scanAndCreateAllDirectoriesAt.
  destruct (exists_ fs basePath) eqn:He.
  - apply follows_ext
      with (m := scanAndCreateAllDirectories s (nodeOf fs basePath) rel);
      [| apply follows_scanAndCreateAllDirectories].
    intros w Hfs. symmetry.
    rewrite (bind_noop _ _ _ _ (existsSync_on basePath w Hfs)), He.
    now rewrite (bind_noop _ _ _ _ (nodeAt_run basePath w Hfs)).
  - apply follows_ext with (m := ret tt); [| apply follows_ret].
    intros w Hfs. symmetry.
    now rewrite (bind_noop _ _ _ _ (existsSync_on basePath w Hfs)), He.
Qed.

Lemma follows_syncAt dirPath rel :
  follows fs I (syncDirectoryFromExternalAt s dirPath rel)
    (syncPlan s (nodeOf fs dirPath) rel).
Proof.
  apply follows_ext
    with (m := syncDirectoryFromExternal s (nodeOf fs dirPath) rel);
    [| apply follows_syncDirectoryFromExternal].
  intros w Hfs. symmetry. unfold syncDirectoryFromExternalAt.
  now rewrite (bind_noop _ _ _ _ (nodeAt_run dirPath w Hfs)).
Qed.

Lemma follows_createDirectoryStructure :
  follows fs I (createDirectoryStructure s) (structurePlan s fs).
Proof.
  unfold createDirectoryStructure, structurePlan.
  apply follows_seq; [apply follows_scanAt |].
  apply follows_forEach. intros externalFolder _.
  destruct (exists_ fs externalFolder) eqn:He.
  - apply follows_ext
      with (m := scanAndCreateAllDirectoriesAt s externalFolder
                   (externalFolderRelativePath s externalFolder)).
    + intros w Hfs. symmetry.
      now rewrite (bind_noop _ _ _ _ (existsSync_on externalFolder w Hfs)), He.
    + pose proof (follows_scanAt externalFolder
                    (externalFolderRelativePath s externalFolder)) as H.
      now rewrite He in H.
  - apply follows_ext with (m := ret tt); [| apply follows_ret].
    intros w Hfs. symmetry.
    now rewrite (bind_noop _ _ _ _ (existsSync_on externalFolder w Hfs)), He.
Qed.

Lemma follows_synchronizeFiles :
  follows fs I (synchronizeFiles s) (filesPlan s fs).
Proof.
  unfold synchronizeFiles, filesPlan.
  apply follows_seq; [apply follows_syncAt |].
  apply follows_forEach. intros externalFolder _.
  destruct (exists_ fs externalFolder) eqn:He.
  - apply follows_ext
      with (m := syncDirectoryFromExternalAt s externalFolder
                   (externalFolderRelativePath s externalFolder));
      [| apply follows_syncAt].
    intros w Hfs. symmetry.
    now rewrite (bind_noop _ _ _ _ (existsSync_on externalFolder w Hfs)), He.
  - apply follows_ext with (m := ret tt); [| apply follows_ret].
    intros w Hfs. symmetry.
    now rewrite (bind_noop _ _ _ _ (existsSync_on externalFolder w Hfs)), He.
Qed.

Lemma follows_syncAllExternalDirectories :
  follows fs I (syncAllExternalDirectories s) (fullSyncPlan s fs).
Proof.
  unfold syncAllExternalDirectories, fullSyncPlan.
  destruct (Js.truthy (syncFolderPath s)); cbn [andb].
  - destruct (exists_ fs (syncFolderPath s)) eqn:He.
    + apply follows_ext
        with (m := tryCatch (bind (createDirectoryStructure s)
                                  (fun _ => synchronizeFiles s))
                            (fun _ => ret tt)).
      * intros w Hfs. symmetry.
        now rewrite (bind_noop _ _ _ _ (existsSync_on _ w Hfs)), He.
      * apply follows_swallow, follows_seq;
          [apply follows_createDirectoryStructure
          | apply follows_synchronizeFiles].
    + apply follows_ext with (m := ret tt); [| apply follows_ret].
      intros w Hfs. symmetry.
      now rewrite (bind_noop _ _ _ _ (existsSync_on _ w Hfs)), He.
  - apply follows_ext with (m := ret tt); [| apply follows_ret].
    intros w Hfs. symmetry. exact (bind_noop (ret false) _ w false eq_refl).
Qed.

End FollowsWalks.


(** ** The paths that [ensureVaultDirectory] creates *)

Lemma append_cons c a b : String c a +:+ b = String c (a +:+ b).
Proof. reflexivity. Qed.

Lemma append_nil_l a : "" +:+ a = a.
Proof. reflexivity. Qed.

Lemma append_nil_r a : a +:+ "" = a.
Proof. induction a as [|c a IH]; [reflexivity |]. now rewrite append_cons, IH. Qed.

Lemma append_assoc a b c : (a +:+ b) +:+ c = a +:+ (b +:+ c).
Proof.
  induction a as [|x a IH]; [reflexivity |]. now rewrite !append_cons, IH.
Qed.

Lemma truthy_true s : s <> "" -> Js.truthy s = true.
Proof. intros H. unfold Js.truthy. now destruct (String.eqb_spec s ""). Qed.

Lemma split_cons sep c s :
  Js.split sep (String c s)
  = if Ascii.eqb c sep then "" :: Js.split sep s
    else match Js.split sep s with
         | h :: t => String c h :: t
         | [] => [String c ""]
         end.
Proof. reflexivity. Qed.

Lemma split_nonempty sep s : Js.split sep s <> [].
Proof.
  destruct s as [|c s]; [discriminate |]. rewrite split_cons.
  destruct (Ascii.eqb c sep); [discriminate |].
  destruct (Js.split sep s); discriminate.
Qed.

(** The last path that the loop of [ensureVaultDirectory] reaches, when
    it starts within a first segment that [pre] opens. *)
Lemma ensurePaths_last_from (s pre h : string) (t : list string) :
  Js.split "/" s = h :: t ->
  pre <> "" \/ Js.startsWith s "/" = false ->
  last ((pre +:+ h) :: ensurePathsFrom (pre +:+ h) t) = Some (pre +:+ s).
Proof.
  revert pre h t. induction s as [|c s IH]; intros pre h t Hsplit Hpre.
  - injection Hsplit as <- <-. reflexivity.
  - rewrite split_cons in Hsplit.
    destruct (Ascii.eqb_spec c "/") as [->|Hc].
    + injection Hsplit as <- <-.
      destruct Hpre as [Hpre | Hpre];
        [| unfold Js.startsWith in Hpre; simpl in Hpre;
           destruct s; discriminate Hpre].
      rewrite append_nil_r.
      destruct (Js.split "/" s) as [|h' t'] eqn:Hs;
        [now apply split_nonempty in Hs |].
      rewrite ensurePathsFrom_cons. unfold nextPath.
      rewrite (truthy_true pre Hpre).
      change (last (pre :: (pre +:+ "/" +:+ h')
                    :: ensurePathsFrom (pre +:+ "/" +:+ h') t'))
        with (last ((pre +:+ "/" +:+ h')
                    :: ensurePathsFrom (pre +:+ "/" +:+ h') t')).
      rewrite <- (append_assoc pre "/" h').
      rewrite (IH (pre +:+ "/") h' t' eq_refl).
      * now rewrite append_assoc.
      * left. apply append_nonempty_r. discriminate.
    + destruct (Js.split "/" s) as [|h' t'] eqn:Hs;
        [now apply split_nonempty in Hs |].
      injection Hsplit as <- <-.
      assert (E : pre +:+ String c h' = (pre +:+ String c "") +:+ h')
        by now rewrite append_assoc.
      rewrite E, (IH (pre +:+ String c "") h' t' eq_refl).
      * now rewrite append_assoc.
      * left. apply append_nonempty_r. discriminate.
Qed.

Lemma ensurePaths_last (d : string) :
  Js.startsWith d "/" = false -> last (ensurePaths d) = Some d.
Proof.
  intros H. unfold ensurePaths.
  destruct (Js.split "/" d) as [|h t] eqn:Hs;
    [now apply split_nonempty in Hs |].
  rewrite ensurePathsFrom_cons.
  change (nextPath "" h) with ("" +:+ h).
  rewrite (ensurePaths_last_from d "" h t Hs); [reflexivity | now right].
Qed.

(** A directory that the walk asks for and whose path opens with no
    slash is in the vault once the item is satisfied. *)
Lemma satisfied_dir_occupied v d :
  Js.startsWith d "/" = false -> satisfied v (NeedDir d) -> occupied v d.
Proof.
  intros Hd [H | H]; [exact H |].
  rewrite Forall_forall in H. apply H.
  apply ensurePaths_last in Hd. now apply last_Some_elem_of in Hd.
Qed.

(** ** Consistent targets, decided *)

Lemma targetOf_first I p d :
  NeedFile p d ∈ I -> exists d', targetOf I p = Some d'.
Proof.
  induction I as [|i I IH]; intros Hin; [inversion Hin |].
  apply elem_of_cons in Hin. destruct Hin as [<- | Hin].
  - simpl. rewrite String.eqb_refl. eauto.
  - destruct i as [q | q d0]; simpl; [now apply IH |].
    destruct (String.eqb q p); [eauto | now apply IH].
Qed.

Lemma consistentTargetsb_sound I :
  consistentTargetsb I = true -> consistentTargets I.
Proof.
  intros H.
  assert (Hall : forall p d, NeedFile p d ∈ I -> targetOf I p = Some d).
  { intros p d Hin. unfold consistentTargetsb in H.
    rewrite forallb_forall in H.
    specialize (H _ (proj1 (list_elem_of_In _ _) Hin)). simpl in H.
    destruct (targetOf I p) as [d'|]; [| discriminate].
    apply String.eqb_eq in H. now subst. }
  intros p d d' H1 H2. apply Hall in H1, H2. congruence.
Qed.

(** ** A second full synchronisation *)

(** C2 (as amended).  If no call to the managed store failed during a
    full synchronisation, and no two external files that it visits are
    mapped to one managed path with different contents, then a second full
    synchronisation, run right after the first with the external store
    unchanged, issues no call at all and leaves the world as it is. *)
Theorem full_sync_twice_is_idle (s : SyncRepSettings) (w : world) :
  let first := syncAllExternalDirectories s w in
  Forall succeeded (issued first) ->
  consistentTargets (fst (fullSyncPlan s (extfs w))) ->
  extfs (after first) = extfs w
  /\ syncAllExternalDirectories s (after first)
     = Run (value first) (after first) [].
Proof.
  intros first Hok Hcons.
  destruct (follows_syncAllExternalDirectories s (extfs w) _ Hcons) as [A B].
  destruct (A w eq_refl Hok (fun i H => H)) as (G & S & V).
  fold first in G, S, V.
  assert (Hfs : extfs (after first) = extfs w)
    by (destruct G as (F & _); now rewrite F).
  split; [exact Hfs |]. rewrite V. now apply B.
Qed.

Lemma full_sync_twice_is_idle_witness :
  let s := settingsAll [] in
  let first := syncAllExternalDirectories s (worldOf ∅ sampleStore) in
  extfs (after first) = sampleStore
  /\ syncAllExternalDirectories s (after first)
     = Run (value first) (after first) [].
Proof.
  intros s first.
  apply (full_sync_twice_is_idle s (worldOf ∅ sampleStore)).
  - vm_compute. repeat constructor.
  - apply consistentTargetsb_sound. vm_compute. reflexivity.
Defined.

(** Two stores on which a second full synchronisation writes again.  In
    the first the vault holds a folder where the external store holds a
    file: the creation of the file fails at each run.  In the second the
    external root is also configured as an external folder, so that
    [/ext/x.md] and [/ext/ext/x.md] are both mirrored at [ext/x.md]: each
    run writes the one, then the other. *)
Lemma second_full_sync_writes_again :
  (let first := syncAllExternalDirectories (settingsAll [])
                  (worldOf notesVault notesStore) in
   extfs (after first) = notesStore
   /\ issued (syncAllExternalDirectories (settingsAll []) (after first))
      = [(VaultCreate "notes" "n", false)])
  /\ (let first := syncAllExternalDirectories settingsAlias
                     (worldOf ∅ aliasStore) in
      extfs (after first) = aliasStore
      /\ Forall succeeded (issued first)
      /\ issued (syncAllExternalDirectories settingsAlias (after first))
         = [(VaultModify "ext/x.md" "2", true);
            (VaultModify "ext/x.md" "1", true)]).
Proof. vm_compute. repeat split; repeat constructor. Qed.

(** ** Folders of the vault stay, and the external store is left alone *)

Lemma keeps_refl w : keeps w w.
Proof. split; auto. Qed.

Lemma keeps_trans w1 w2 w3 : keeps w1 w2 -> keeps w2 w3 -> keeps w1 w3.
Proof.
  intros [E1 F1] [E2 F2]. split; [congruence |]. intros p H. auto.
Qed.

Lemma keeps_insert w p n :
  vault w !! p <> Some VFolder ->
  keeps w (withVault (<[p := n]> (vault w)) w).
Proof.
  intros Hp. split; [reflexivity |]. intros q Hq. simpl.
  rewrite lookup_insert_ne; [exact Hq | congruence].
Qed.

Lemma keeping_ret {A} (a : A) : keeping (ret a).
Proof. intros w. apply keeps_refl. Qed.

Lemma keeping_throw {A} (e : string) : keeping (@throw A e).
Proof. intros w. apply keeps_refl. Qed.

Lemma keeping_logCall c ok : keeping (logCall c ok).
Proof. intros w. apply keeps_refl. Qed.

Lemma keeping_failing {A} c e : keeping (@failing A c e).
Proof. intros w. apply keeps_refl. Qed.

Lemma keeping_bind {A B} (m : M A) (f : A -> M B) :
  keeping m -> (forall a, keeping (f a)) -> keeping (bind m f).
Proof.
  intros Hm Hf w. unfold bind. destruct (value (m w)) as [a|e]; cbn [after].
  - eapply keeps_trans; [apply Hm | apply Hf].
  - apply Hm.
Qed.

Lemma keeping_tryCatch {A} (m : M A) (h : string -> M A) :
  keeping m -> (forall e, keeping (h e)) -> keeping (tryCatch m h).
Proof.
  intros Hm Hh w. unfold tryCatch. destruct (value (m w)) as [a|e]; cbn [after].
  - apply Hm.
  - eapply keeps_trans; [apply Hm | apply Hh].
Qed.

Lemma keeping_state {A} (f : world -> M A) :
  (forall w, keeps w (after (f w w))) -> keeping (bind get f).
Proof. intros H w. apply H. Qed.

Lemma keeping_when (b : bool) (m : M unit) : keeping m -> keeping (when b m).
Proof. destruct b; [auto | intros _; apply keeping_ret]. Qed.

Lemma keeping_forEach {A} (body : A -> M unit) (l : list A) :
  (forall x, x ∈ l -> keeping (body x)) -> keeping (forEach body l).
Proof.
  induction l as [|x l IH]; intros H.
  - apply keeping_ret.
  - apply (keeping_bind (body x) (fun _ => forEach body l)).
    + apply H. constructor.
    + intros _. apply IH. intros y Hy. apply H. now constructor.
Qed.

Create HintDb folders.
#[local] Hint Resolve keeping_ret keeping_throw keeping_logCall
  keeping_failing keeping_when keeps_refl : folders.

Lemma keeping_getAbstractFileByPath p : keeping (getAbstractFileByPath p).
Proof. apply keeping_state. auto with folders. Qed.

Lemma keeping_existsSync p : keeping (existsSync p).
Proof. apply keeping_state. auto with folders. Qed.

Lemma keeping_nodeAt p : keeping (nodeAt p).
Proof. apply keeping_state. auto with folders. Qed.

Lemma keeping_readFileOf n enc : keeping (readFileOf n enc).
Proof. destruct n as [[[]| |]|]; apply keeping_ret || apply keeping_throw. Qed.

Lemma keeping_vaultReadBinary f : keeping (vaultReadBinary f).
Proof.
  apply keeping_state. intros w.
  destruct (vault w !! pathOf f) as [[]|]; auto with folders.
Qed.

Lemma keeping_vaultRead f : keeping (vaultRead f).
Proof.
  apply keeping_bind; [apply keeping_vaultReadBinary |].
  intros data. apply keeping_ret.
Qed.

Lemma keeping_vaultCreateAs c p data : keeping (vaultCreateAs c p data).
Proof.
  apply keeping_state. intros w.
  destruct (faulty w p); [apply keeping_failing |].
  destruct (vault w !! p) eqn:E; [apply keeping_failing |].
  apply keeps_insert. congruence.
Qed.

Lemma keeping_vaultModifyAs c f data : keeping (vaultModifyAs c f data).
Proof.
  apply keeping_state. intros w.
  destruct (faulty w (pathOf f)); [apply keeping_failing |].
  destruct (vault w !! pathOf f) as [[]|] eqn:E;
    [| apply keeping_failing | apply keeping_failing].
  apply keeps_insert. congruence.
Qed.

Lemma keeping_vaultCreateFolder p : keeping (vaultCreateFolder p).
Proof.
  apply keeping_state. intros w.
  destruct (faulty w p); [apply keeping_failing |].
  destruct (vault w !! p) eqn:E; [apply keeping_failing |].
  apply keeps_insert. congruence.
Qed.

#[local] Hint Resolve keeping_getAbstractFileByPath keeping_existsSync
  keeping_nodeAt keeping_readFileOf keeping_vaultRead keeping_vaultReadBinary
  keeping_vaultCreateAs keeping_vaultModifyAs keeping_vaultCreateFolder
  : folders.

Lemma keeping_ensureVaultDirectoryFrom cur dirs :
  keeping (ensureVaultDirectoryFrom cur dirs).
Proof.
  revert cur. induction dirs as [|dir rest IH]; intros cur.
  - apply keeping_ret.
  - cbn [ensureVaultDirectoryFrom].
    apply keeping_bind; [auto with folders |]. intros existingDir.
    apply keeping_bind; [| intros _; apply IH].
    destruct existingDir; [auto with folders |].
    apply keeping_tryCatch; [auto with folders |].
    intros e. destruct (_ || _); auto with folders.
Qed.

Lemma keeping_createIfMissing p : keeping (createIfMissing p).
Proof.
  apply keeping_bind; [auto with folders |]. intros existingDir.
  apply keeping_when, keeping_ensureVaultDirectoryFrom.
Qed.

Lemma keeping_writeIfDifferent b f content :
  keeping (writeIfDifferent b f content).
Proof.
  unfold writeIfDifferent. apply keeping_bind.
  - destruct b; auto with folders.
  - intros cur. destruct (negb _); [| auto with folders].
    destruct b; unfold vaultModifyBinary, vaultModify; auto with folders.
Qed.

Lemma keeping_syncContent b p content existing :
  keeping (syncContent b p content existing).
Proof.
  assert (Hw : forall f, keeping (writeIfDifferent b f content))
    by (intros f; apply keeping_writeIfDifferent).
  unfold syncContent.
  destruct existing as [[q|q]|]; [apply Hw | |];
    (cbv zeta; apply keeping_bind;
     [apply keeping_when, keeping_ensureVaultDirectoryFrom |];
     intros _; apply keeping_tryCatch;
     [destruct b; unfold vaultCreateBinary, vaultCreate; auto with folders |];
     intros e; destruct (_ && _); [| auto with folders];
     apply keeping_bind; [unfold sleep; auto with folders |]; intros _;
     apply keeping_bind; [auto with folders |];
     intros [[]|]; auto with folders).
Qed.

#[local] Hint Resolve keeping_createIfMissing keeping_syncContent : folders.

Section WalksKeep.

Variable s : SyncRepSettings.

Lemma keeping_syncFileEntry entry p : keeping (syncFileEntry entry p).
Proof.
  unfold syncFileEntry. apply keeping_tryCatch; [| auto with folders].
  apply keeping_bind; [auto with folders |]. intros content.
  apply keeping_bind; auto with folders.
Qed.

Lemma keeping_scanAndCreateAllDirectories base rel :
  keeping (scanAndCreateAllDirectories s base rel).
Proof.
  revert rel.
  induction base as [c| |l IH|] using enode_ind'; intros rel;
    rewrite scanAndCreateAllDirectories_unfold;
    (apply keeping_tryCatch; [| auto with folders]);
    (apply keeping_bind;
     [ unfold scanDirectoryItself; destruct (Js.truthy rel);
       [| auto with folders];
       destruct (shouldSyncFile _ _); [| auto with folders];
       apply keeping_bind; auto with folders
     | intros [|]; auto with folders ]).
  apply keeping_forEach. intros [name entry] Hin.
  rewrite Forall_forall in IH. specialize (IH _ Hin). cbn [snd] in IH.
  unfold scanEntry. destruct (isDirectory entry); [apply IH | auto with folders].
Qed.

Lemma keeping_syncDirectoryFromExternal dir rel :
  keeping (syncDirectoryFromExternal s dir rel).
Proof.
  revert rel.
  induction dir as [c| |l IH|] using enode_ind'; intros rel;
    rewrite syncDirectoryFromExternal_unfold;
    (apply keeping_tryCatch; [| auto with folders]);
    (destruct (negb (shouldSyncFile s rel)); [auto with folders |]);
    (apply keeping_bind; [auto with folders | intros _; auto with folders]).
  apply keeping_forEach. intros [name entry] Hin.
  rewrite Forall_forall in IH. specialize (IH _ Hin). cbn [snd] in IH.
  unfold syncEntry. destruct (negb _); [auto with folders |].
  destruct entry as [c| |];
    [apply keeping_syncFileEntry | apply IH | auto with folders].
Qed.

Lemma keeping_scanAt basePath rel :
  keeping (scanAndCreateAllDirectoriesAt s basePath rel).
Proof.
  apply keeping_bind; [auto with folders |].
  intros [|]; [| auto with folders].
  apply keeping_bind; [auto with folders |]. intros base.
  apply keeping_scanAndCreateAllDirectories.
Qed.

Lemma keeping_syncAt dirPath rel :
  keeping (syncDirectoryFromExternalAt s dirPath rel).
Proof.
  apply keeping_bind; [auto with folders |]. intros dir.
  apply keeping_syncDirectoryFromExternal.
Qed.

Lemma keeping_createDirectoryStructure : keeping (createDirectoryStructure s).
Proof.
  apply keeping_bind; [apply keeping_scanAt |].
  intros _. apply keeping_forEach. intros externalFolder _.
  apply keeping_bind; [auto with folders |].
  intros [|]; [apply keeping_scanAt | auto with folders].
Qed.

Lemma keeping_synchronizeFiles : keeping (synchronizeFiles s).
Proof.
  apply keeping_bind; [apply keeping_syncAt |].
  intros _. apply keeping_forEach. intros externalFolder _.
  apply keeping_bind; [auto with folders |].
  intros [|]; [apply keeping_syncAt | auto with folders].
Qed.

End WalksKeep.

(** ** The two steps of the full synchronisation *)

Lemma planSeq_Forall (P : item -> Prop) (a b : plan) :
  Forall P (fst a) -> Forall P (fst b) -> Forall P (fst (planSeq a b)).
Proof.
  intros Ha Hb. unfold planSeq. destruct (snd a); cbn [fst]; [| exact Ha].
  apply Forall_app. now split.
Qed.

Lemma planEach_Forall {A} (P : item -> Prop) (f : A -> plan) (l : list A) :
  (forall x, x ∈ l -> Forall P (fst (f x))) -> Forall P (fst (planEach f l)).
Proof.
  induction l as [|x l IH]; intros H; [constructor |].
  cbn [planEach]. apply planSeq_Forall.
  - apply H. constructor.
  - apply IH. intros y Hy. apply H. now constructor.
Qed.

Lemma tryCatch_swallow_after (m : M unit) (w : world) :
  after (tryCatch m (fun _ => ret tt) w) = after (m w)
  /\ issued (tryCatch m (fun _ => ret tt) w) = issued (m w).
Proof.
  unfold tryCatch. destruct (value (m w)); cbn [after issued ret];
    [now split |]. split; [reflexivity | apply app_nil_r].
Qed.

(** A loop whose bodies leave the external store alone issues what its
    bodies issue over that store. *)
Lemma forEach_issues_over {A} (fs : enode) (Q : call * bool -> Prop)
    (body : A -> M unit) (l : list A) :
  (forall x, keeping (body x)) ->
  (forall x w, extfs w = fs -> Forall Q (issued (body x w))) ->
  forall w, extfs w = fs -> Forall Q (issued (forEach body l w)).
Proof.
  intros Hk HQ. induction l as [|x l IH]; intros w Hw; [constructor |].
  change (forEach body (x :: l) w)
    with (bind (body x) (fun _ => forEach body l) w).
  destruct (value (body x w)) as [[]|e] eqn:E.
  - rewrite (bind_ok _ _ _ _ E). cbn [issued].
    apply Forall_app. split; [now apply HQ |].
    apply IH. destruct (Hk x w) as [Hfs _]. congruence.
  - rewrite (bind_throw _ _ _ _ E). now apply HQ.
Qed.

Lemma noFiles_lookupAt segs n e :
  noFiles n = true -> lookupAt segs n = Some e -> noFiles e = true.
Proof.
  revert n. induction segs as [|seg rest IH]; intros n Hn Hl.
  - injection Hl as <-. exact Hn.
  - cbn [lookupAt] in Hl. destruct n as [c|[l|]|]; try discriminate Hl.
    cbn [children] in Hl. cbn [noFiles] in Hn.
    destruct (assoc seg l) as [c|] eqn:Ha; [| discriminate Hl].
    apply (IH c); [| exact Hl].
    clear Hl IH. induction l as [|[k v] l IHl]; [discriminate Ha |].
    cbn [forallb] in Hn. apply andb_true_iff in Hn. destruct Hn as [Hv Hl].
    cbn [assoc] in Ha. destruct (String.eqb k seg).
    + injection Ha as <-. exact Hv.
    + now apply IHl.
Qed.

Lemma noFiles_nodeOf fs p : noFiles fs = true -> noFiles (nodeOf fs p) = true.
Proof.
  intros H. unfold nodeOf, fsLookup.
  destruct (String.eqb p ""); [reflexivity |].
  destruct (lookupAt (fsSegments p) fs) as [e|] eqn:E; [| reflexivity].
  exact (noFiles_lookupAt _ _ _ H E).
Qed.

Section TwoPhases.

Variable s : SyncRepSettings.

Lemma scanPlan_dirs base rel :
  Forall (fun i => isNeedDir i = true) (fst (scanPlan s base rel)).
Proof.
  revert rel.
  induction base as [c| |l IH|] using enode_ind'; intros rel;
    rewrite scanPlan_unfold; unfold planCatch; cbn [fst];
    (destruct (Js.truthy rel);
     [destruct (shouldSyncFile s _); [apply planSeq_Forall |]|]);
    repeat constructor;
    apply planEach_Forall; intros [name entry] Hin;
    rewrite Forall_forall in IH; specialize (IH _ Hin); cbn [snd] in IH;
    unfold scanEntryPlan; (destruct (isDirectory entry); [apply IH | constructor]).
Qed.

Lemma structurePlan_dirs fs :
  Forall (fun i => isNeedDir i = true) (fst (structurePlan s fs)).
Proof.
  unfold structurePlan. apply planSeq_Forall.
  - destruct (exists_ fs _); [apply scanPlan_dirs | constructor].
  - apply planEach_Forall. intros externalFolder _.
    destruct (exists_ fs _); [apply scanPlan_dirs | constructor].
Qed.

Lemma dirs_consistent (I : list item) :
  Forall (fun i => isNeedDir i = true) I -> consistentTargets I.
Proof.
  intros H p d d' Hin _. rewrite Forall_forall in H.
  specialize (H _ Hin). discriminate H.
Qed.

Lemma scanAt_ok basePath rel w :
  value (scanAndCreateAllDirectoriesAt s basePath rel w) = Ok tt.
Proof.
  unfold scanAndCreateAllDirectoriesAt.
  rewrite (bind_noop _ _ _ _ (existsSync_run basePath w)).
  destruct (exists_ (extfs w) basePath); [| reflexivity].
  rewrite (bind_noop _ _ _ _ (nodeAt_run (extfs w) basePath w eq_refl)).
  apply scanAndCreateAllDirectories_ok.
Qed.

(** Step 1 ends normally, whatever fails in it. *)
Lemma createDirectoryStructure_ok w :
  value (createDirectoryStructure s w) = Ok tt.
Proof.
  unfold createDirectoryStructure.
  rewrite (bind_ok _ _ _ _ (scanAt_ok _ _ w)). cbn [value].
  apply forEach_ok. intros externalFolder w'.
  rewrite (bind_noop _ _ _ _ (existsSync_run externalFolder w')).
  destruct (exists_ (extfs w') externalFolder); [apply scanAt_ok | reflexivity].
Qed.

(** Over a tree that holds no regular file, the walk of step 2 issues
    folder creations only. *)
Lemma syncDirectoryFromExternal_noFiles Q dir rel :
  (forall q ok, Q (VaultCreateFolder q, ok)) ->
  noFiles dir = true -> issuesOnly Q (syncDirectoryFromExternal s dir rel).
Proof.
  intros Hf. revert rel.
  induction dir as [c| |l IH|] using enode_ind'; intros rel Hn;
    rewrite syncDirectoryFromExternal_unfold;
    (apply issuesOnly_tryCatch; [| auto with calls]);
    (destruct (negb (shouldSyncFile s rel)); [auto with calls |]);
    (apply issuesOnly_bind;
     [now apply issuesOnly_createIfMissing | intros _; auto with calls]).
  apply issuesOnly_forEach. intros [name entry] Hin.
  rewrite Forall_forall in IH. specialize (IH _ Hin). cbn [snd] in IH.
  cbn [noFiles] in Hn. rewrite forallb_forall in Hn.
  specialize (Hn _ (proj1 (list_elem_of_In _ _) Hin)). cbn beta iota in Hn.
  unfold syncEntry. destruct (negb _); [auto with calls |].
  destruct entry as [c| |]; [discriminate Hn | now apply IH | auto with calls].
Qed.

Lemma synchronizeFiles_noFiles Q w :
  (forall q ok, Q (VaultCreateFolder q, ok)) ->
  noFiles (extfs w) = true -> Forall Q (issued (synchronizeFiles s w)).
Proof.
  intros Hf Hn.
  assert (Hat : forall p rel w', extfs w' = extfs w ->
    Forall Q (issued (syncDirectoryFromExternalAt s p rel w'))).
  { intros p rel w' Hw'. unfold syncDirectoryFromExternalAt.
    rewrite (bind_noop _ _ _ _ (nodeAt_run (extfs w) p w' Hw')).
    apply syncDirectoryFromExternal_noFiles; [exact Hf |].
    now apply noFiles_nodeOf. }
  unfold synchronizeFiles.
  destruct (value (syncDirectoryFromExternalAt s (syncFolderPath s) "" w))
    as [[]|e] eqn:E.
  - rewrite (bind_ok _ _ _ _ E). cbn [issued].
    apply Forall_app. split; [now apply Hat |].
    apply (forEach_issues_over (extfs w)).
    + intros externalFolder. apply keeping_bind; [auto with folders |].
      intros [|]; [apply keeping_syncAt | auto with folders].
    + intros externalFolder w' Hw'.
      rewrite (bind_noop _ _ _ _ (existsSync_run externalFolder w')).
      destruct (exists_ _ _); [now apply Hat | constructor].
    + now destruct (keeping_syncAt s (syncFolderPath s) "" w).
  - rewrite (bind_throw _ _ _ _ E). now apply Hat.
Qed.

End TwoPhases.

(** What the plan of step 1 holds: a directory that has a path and passes
    the policy, and whatever the sub-directories that it lists bring. *)
Lemma scanPlan_self s base rel :
  Js.truthy rel = true ->
  shouldSyncFile s (Js.replaceBackslashes rel) = true ->
  NeedDir (Js.replaceBackslashes rel) ∈ fst (scanPlan s base rel).
Proof.
  intros Ht Hp. rewrite scanPlan_unfold. cbv zeta. rewrite Ht, Hp.
  unfold planCatch, planSeq. cbn [fst snd]. left.
Qed.

Lemma planEach_elem {A} (f : A -> plan) (l : list A) (x : A) (i : item) :
  (forall y, snd (f y) = Ok tt) ->
  x ∈ l -> i ∈ fst (f x) -> i ∈ fst (planEach f l).
Proof.
  intros Hok. induction l as [|y l IH]; intros Hx Hi; [inversion Hx |].
  cbn [planEach]. unfold planSeq. rewrite Hok. cbn [fst].
  apply elem_of_app. apply elem_of_cons in Hx. destruct Hx as [<- | Hx].
  - now left.
  - right. now apply IH.
Qed.

Lemma scanPlan_child s entries rel name entry i :
  Js.truthy rel = false
  \/ shouldSyncFile s (Js.replaceBackslashes rel) = true ->
  (name, entry) ∈ entries ->
  isDirectory entry = true ->
  i ∈ fst (scanPlan s entry (entryRelativePath rel name)) ->
  i ∈ fst (scanPlan s (EDir (Some entries)) rel).
Proof.
  intros Hrel Hin Hd Hi. rewrite scanPlan_unfold. cbv zeta.
  assert (He : i ∈ fst (planEach (scanEntryPlan (scanPlan s) rel) entries)).
  { apply (planEach_elem _ _ (name, entry)); [| exact Hin |].
    - intros [n e]. unfold scanEntryPlan.
      destruct (isDirectory e); [| reflexivity].
      now rewrite scanPlan_unfold.
    - unfold scanEntryPlan. now rewrite Hd. }
  unfold planCatch. cbn [fst].
  destruct (Js.truthy rel); [| exact He].
  destruct Hrel as [Hrel | Hrel]; [discriminate Hrel |]. rewrite Hrel.
  unfold planSeq. cbn [fst snd]. now right.
Qed.

(** The order of the two steps.  When the external root is configured
    and exists, a full synchronisation is step 1 followed by step 2:
    - step 1 ends normally and issues folder creations only; the calls
      of the full synchronisation are those of step 1 followed by those
      of step 2, which starts from the world that step 1 leaves;
    - if no call of step 1 failed, every directory that step 1 visits
      (the directories below the external root and the configured
      external folders that pass the policy, empty ones included), whose
      managed path was free, is a folder of the vault when step 1 ends
      and when the full synchronisation ends;
    - over an external store that holds no regular file, the full
      synchronisation issues no file write. *)
Theorem full_sync_two_phases (s : SyncRepSettings) (w : world) :
  let step1 := createDirectoryStructure s w in
  let step2 := synchronizeFiles s (after step1) in
  let full := syncAllExternalDirectories s w in
  Js.truthy (syncFolderPath s) = true ->
  exists_ (extfs w) (syncFolderPath s) = true ->
  (value step1 = Ok tt
   /\ Forall (fun c => isCreateFolder c.1 = true) (issued step1)
   /\ issued full = issued step1 ++ issued step2
   /\ after full = after step2)
  /\ (Forall succeeded (issued step1) ->
      forall d, NeedDir d ∈ fst (structurePlan s (extfs w)) ->
        Js.startsWith d "/" = false -> vault w !! d = None ->
        vault (after step1) !! d = Some VFolder
        /\ vault (after full) !! d = Some VFolder)
  /\ (noFiles (extfs w) = true ->
      Forall (fun c => isFileWrite c.1 = false) (issued full)).
Proof.
  intros step1 step2 full Ht He.
  assert (H1 : value step1 = Ok tt) by apply createDirectoryStructure_ok.
  assert (Hfull : issued full = issued step1 ++ issued step2
                  /\ after full = after step2).
  { unfold full, syncAllExternalDirectories. rewrite Ht.
    rewrite (bind_noop _ _ _ _ (existsSync_run _ w)), He. cbn [negb].
    destruct (tryCatch_swallow_after
                (bind (createDirectoryStructure s)
                      (fun _ => synchronizeFiles s)) w) as [Ha Hi].
    rewrite Ha, Hi, (bind_ok _ _ _ _ H1). now split. }
  destruct Hfull as [Hi Ha].
  split; [| split].
  - repeat split; [exact H1 | | exact Hi | exact Ha].
    apply issuesOnly_createDirectoryStructure. reflexivity.
  - intros Hok d Hd Hslash Hfree.
    destruct (follows_createDirectoryStructure s (extfs w)
                (fst (structurePlan s (extfs w)))) as [A _].
    destruct (A w eq_refl Hok (fun i H => H)) as (G & S & _).
    fold step1 in G, S.
    assert (Hfolder : vault (after step1) !! d = Some VFolder).
    { rewrite Forall_forall in S.
      pose proof (satisfied_dir_occupied _ _ Hslash (S _ Hd)) as [n Hn].
      destruct G as (_ & _ & _ & _ & Hnew).
      destruct (Hnew d Hfree) as [Hnone | [Hdir | (data & Hin & _)]];
        [congruence | exact Hdir |].
      pose proof (structurePlan_dirs s (extfs w)) as Hdirs.
      rewrite Forall_forall in Hdirs. specialize (Hdirs _ Hin).
      discriminate Hdirs. }
    split; [exact Hfolder |]. rewrite Ha.
    now apply (keeping_synchronizeFiles s (after step1)).
  - intros Hn. rewrite Hi. apply Forall_app. split.
    + apply issuesOnly_createDirectoryStructure. reflexivity.
    + apply synchronizeFiles_noFiles; [reflexivity |].
      destruct (keeping_createDirectoryStructure s w) as [Hfs _].
      fold step1 in Hfs. now rewrite Hfs.
Qed.

Lemma full_sync_two_phases_witness :
  let s := settingsAll [] in
  let w := worldOf ∅ emptyDirStore in
  let full := syncAllExternalDirectories s w in
  vault (after full) !! "e" = Some VFolder
  /\ Forall (fun c => isFileWrite c.1 = false) (issued full).
Proof.
  intros s w full.
  destruct (full_sync_two_phases s w eq_refl eq_refl) as (_ & Hdirs & Hfiles).
  split.
  - apply (Hdirs ltac:(vm_compute; repeat constructor) "e").
    + vm_compute. constructor.
    + reflexivity.
    + reflexivity.
  - apply Hfiles. reflexivity.
Defined.

(** The directories that step 1 visits in the sample store, and the calls
    of a full synchronisation of the store that holds an empty folder. *)
Example structurePlan_sample :
  fst (structurePlan (settingsAll []) sampleStore)
  = [NeedDir "a"; NeedDir "a/e"].
Proof. reflexivity. Qed.

Example empty_directory_is_mirrored :
  issued (syncAllExternalDirectories (settingsAll []) (worldOf ∅ emptyDirStore))
  = [(VaultCreateFolder "e", true); (VaultCreateFolder "", true)].
Proof. reflexivity. Qed.

(** ** The rename handler and the policy *)

Lemma fsMutate_spec c p f w :
  (exists fs', String.eqb p "" = false /\ f (extfs w) = Some fs'
     /\ fsMutate c p f w = Run (Ok tt) (withExtfs fs' w) [(c, true)])
  \/ fsMutate c p f w
     = Run (Throw "EIO: file system call failed") w [(c, false)].
Proof.
  unfold fsMutate, bind, get. cbn.
  destruct (String.eqb p ""); [now right |].
  destruct (f (extfs w)) as [fs'|]; [left; now exists fs' | now right].
Qed.

Lemma assoc_removeEntry_eq name l : assoc name (removeEntry name l) = None.
Proof.
  induction l as [|[k x] l IH]; [reflexivity |]. cbn [removeEntry].
  destruct (String.eqb k name) eqn:E; [exact IH |].
  cbn [assoc]. now rewrite E.
Qed.

Lemma assoc_setEntry_ne k name v l :
  k <> name -> assoc k (setEntry name v l) = assoc k l.
Proof.
  intros Hne. induction l as [|[k' x] l IH]; cbn [setEntry assoc].
  - destruct (String.eqb_spec name k) as [->|_]; [now destruct Hne | reflexivity].
  - destruct (String.eqb_spec k' name) as [->|Hk]; cbn [assoc].
    + destruct (String.eqb_spec name k) as [->|_]; [now destruct Hne | reflexivity].
    + now rewrite IH.
Qed.

Lemma putAt_cons seg seg2 rest new root :
  putAt (seg :: seg2 :: rest) new root
  = match children root with
    | Some l =>
        match assoc seg l with
        | Some c =>
            match putAt (seg2 :: rest) new c with
            | Some c' => Some (EDir (Some (setEntry seg c' l)))
            | None => None
            end
        | None => None
        end
    | None => None
    end.
Proof. reflexivity. Qed.

Lemma lookupAt_cons seg rest root :
  lookupAt (seg :: rest) root
  = match children root with
    | Some l =>
        match assoc seg l with
        | Some c => lookupAt rest c
        | None => None
        end
    | None => None
    end.
Proof. reflexivity. Qed.

Lemma putAt_remove_lookupAt segs root root' :
  putAt segs None root = Some root' -> lookupAt segs root' = None.
Proof.
  revert root root'. induction segs as [|seg rest IH]; intros root root' H;
    [discriminate H |].
  destruct rest as [|seg2 rest].
  - cbn [putAt] in H. destruct (children root) as [l|]; [| discriminate H].
    injection H as <-. cbn [lookupAt children].
    now rewrite assoc_removeEntry_eq.
  - rewrite putAt_cons in H.
    destruct (children root) as [l|]; [| discriminate H].
    destruct (assoc seg l) as [c|]; [| discriminate H].
    destruct (putAt (seg2 :: rest) None c) as [c'|] eqn:Hc; [| discriminate H].
    injection H as <-. rewrite lookupAt_cons. cbn [children].
    rewrite assoc_setEntry_eq. now apply (IH c).
Qed.

(** Once the node at [so] has been taken out and put at [sn], where
    nothing was, nothing is left at [so]. *)
Lemma moved_source_is_gone so sn src root root' root'' :
  lookupAt so root = Some src ->
  lookupAt sn root = None ->
  putAt so None root = Some root' ->
  putAt sn (Some src) root' = Some root'' ->
  lookupAt so root'' = None.
Proof.
  revert sn root root' root''.
  induction so as [|x r IH]; intros sn root root' root'' Hsrc Hfree Hout Hin;
    [discriminate Hout |].
  destruct sn as [|y r2]; [discriminate Hin |].
  rewrite lookupAt_cons in Hsrc, Hfree.
  destruct (children root) as [l|] eqn:Hl; [| discriminate Hsrc].
  destruct (assoc x l) as [c|] eqn:Hx; [| discriminate Hsrc].
  destruct r as [|x2 r].
  - (* the source is an entry of [root] *)
    cbn [putAt] in Hout. rewrite Hl in Hout. injection Hout as <-.
    destruct r2 as [|y2 r2].
    + assert (Hne : x <> y)
        by (intros ->; rewrite Hx in Hfree; discriminate Hfree).
      cbn [putAt children] in Hin. injection Hin as <-.
      rewrite lookupAt_cons. cbn [children].
      now rewrite (assoc_setEntry_ne _ _ _ _ Hne), assoc_removeEntry_eq.
    + rewrite putAt_cons in Hin. cbn [children] in Hin.
      destruct (String.eqb_spec x y) as [<-|Hne];
        [now rewrite assoc_removeEntry_eq in Hin |].
      destruct (assoc y (removeEntry x l)) as [c0|]; [| discriminate Hin].
      destruct (putAt (y2 :: r2) (Some src) c0) as [c0'|]; [| discriminate Hin].
      injection Hin as <-. rewrite lookupAt_cons. cbn [children].
      now rewrite (assoc_setEntry_ne _ _ _ _ Hne), assoc_removeEntry_eq.
  - (* the source lies deeper *)
    rewrite putAt_cons, Hl, Hx in Hout.
    destruct (putAt (x2 :: r) None c) as [c1|] eqn:Hc1; [| discriminate Hout].
    injection Hout as <-.
    destruct (String.eqb_spec x y) as [<-|Hne].
    + rewrite Hx in Hfree.
      destruct r2 as [|y2 r2]; [discriminate Hfree |].
      rewrite putAt_cons in Hin. cbn [children] in Hin.
      rewrite assoc_setEntry_eq in Hin.
      destruct (putAt (y2 :: r2) (Some src) c1) as [c1'|] eqn:Hc1';
        [| discriminate Hin].
      injection Hin as <-. rewrite lookupAt_cons. cbn [children].
      rewrite assoc_setEntry_eq.
      exact (IH (y2 :: r2) c c1 c1' Hsrc Hfree Hc1 Hc1').
    + assert (Hkeep : forall root2,
                putAt (y :: r2) (Some src) (EDir (Some (setEntry x c1 l)))
                = Some root2 ->
                exists l2, root2 = EDir (Some l2) /\ assoc x l2 = Some c1).
      { intros root2 H. destruct r2 as [|y2 r2].
        - cbn [putAt children] in H. injection H as <-. eexists.
          split; [reflexivity |].
          now rewrite (assoc_setEntry_ne _ _ _ _ Hne), assoc_setEntry_eq.
        - rewrite putAt_cons in H. cbn [children] in H.
          destruct (assoc y (setEntry x c1 l)) as [c0|]; [| discriminate H].
          destruct (putAt (y2 :: r2) (Some src) c0) as [c0'|]; [| discriminate H].
          injection H as <-. eexists. split; [reflexivity |].
          now rewrite (assoc_setEntry_ne _ _ _ _ Hne), assoc_setEntry_eq. }
      destruct (Hkeep _ Hin) as (l2 & -> & Hl2).
      rewrite lookupAt_cons. cbn [children]. rewrite Hl2.
      now apply putAt_remove_lookupAt in Hc1.
Qed.

Lemma truthy_eqb (p : string) : Js.truthy p = true -> String.eqb p "" = false.
Proof. unfold Js.truthy. now destruct (String.eqb p ""). Qed.

Lemma getExternalPath_truthy s p d :
  getExternalPath s p = Some d -> String.eqb d "" = false.
Proof.
  intros H. apply resolved_getExternalPath in H. unfold resolved in H.
  destruct (getExternalPath s p) as [d'|]; [| discriminate H].
  destruct (Js.truthy d') eqn:E; [| discriminate H].
  injection H as <-. now apply truthy_eqb.
Qed.

(** The outcome of a rename to a path where nothing is. *)
Lemma renameSync_spec o n w :
  String.eqb n "" = false ->
  exists_ (extfs w) n = false ->
  exists ok : bool,
    renameSync o n w
    = Run (if ok then Ok tt else Throw "EIO: file system call failed")
          (after (renameSync o n w)) [(FsRename o n, ok)]
    /\ vault (after (renameSync o n w)) = vault w
    /\ (ok = true ->
        fsLookup (extfs (after (renameSync o n w))) n = fsLookup (extfs w) o
        /\ fsLookup (extfs (after (renameSync o n w))) o = None)
    /\ (ok = false -> after (renameSync o n w) = w).
Proof.
  intros Hn Hfree. unfold renameSync.
  match goal with
  | |- context [fsMutate ?c o ?f w] =>
      destruct (fsMutate_spec c o f w) as [(fs' & Ho & Hfs & Hrun) | Hrun]
  end; rewrite Hrun.
  - exists true. split; [reflexivity |]. split; [reflexivity |].
    split; [| discriminate]. intros _.
    cbn [after extfs withExtfs]. unfold fsLookup. rewrite Hn, Ho.
    cbv beta in Hfs. rewrite Hn in Hfs.
    assert (Hnone : lookupAt (fsSegments n) (extfs w) = None).
    { unfold exists_, fsLookup in Hfree. rewrite Hn in Hfree.
      now destruct (lookupAt (fsSegments n) (extfs w)). }
    destruct (lookupAt (fsSegments o) (extfs w)) as [src|] eqn:Hsrc;
      [| discriminate Hfs].
    destruct (bool_decide (fsSegments o = fsSegments n)) eqn:Hsame;
      [apply bool_decide_eq_true in Hsame; congruence |].
    rewrite Hnone in Hfs. cbn [renameAllowed] in Hfs.
    destruct (putAt (fsSegments o) None (extfs w)) as [root'|] eqn:Hout;
      [| discriminate Hfs].
    split.
    + now apply putAt_lookupAt in Hfs.
    + exact (moved_source_is_gone _ _ _ _ _ _ Hsrc Hnone Hout Hfs).
  - exists false. repeat split; discriminate.
Qed.

Lemma issuesOnly_fsMutate (Q : call * bool -> Prop) c p f :
  Q (c, true) -> Q (c, false) -> issuesOnly Q (fsMutate c p f).
Proof.
  intros Ht Hf w.
  destruct (fsMutate_cases c p f w) as [[fs' H] | H]; rewrite H;
    now repeat constructor.
Qed.

Section RenameHandler.

Variable s : SyncRepSettings.

(** The renaming of a folder whose old external directory exists and
    whose new one does not: one [rename] call. *)
Lemma handleFolderRename_renames
    (folder : TAbstractFile) (oldPath o n : string) (w : world) :
  getExternalPath s oldPath = Some o ->
  getExternalPath s (pathOf folder) = Some n ->
  exists_ (extfs w) o = true -> exists_ (extfs w) n = false ->
  let r := handleFolderRename s folder oldPath w in
  value r = Ok tt /\ vault (after r) = vault w
  /\ exists ok : bool,
       issued r = [(FsRename o n, ok)]
       /\ (ok = true ->
           fsLookup (extfs (after r)) n = fsLookup (extfs w) o
           /\ fsLookup (extfs (after r)) o = None)
       /\ (ok = false -> after r = w).
Proof.
  intros Ho Hn He Hfree r. subst r.
  assert (Hunfold :
    handleFolderRename s folder oldPath w
    = tryCatch (renameSync o n) (fun _ => ret tt) w).
  { unfold handleFolderRename.
    rewrite (resolved_getExternalPath _ _ _ Ho),
            (resolved_getExternalPath _ _ _ Hn).
    unfold tryCatch.
    rewrite (bind_noop _ _ _ _ (existsSync_run o w)).
    rewrite (bind_noop _ _ _ _ (existsSync_run n w)).
    now rewrite He, Hfree. }
  rewrite Hunfold.
  destruct (renameSync_spec o n w (getExternalPath_truthy _ _ _ Hn) Hfree)
    as (ok & Hrun & Hv & Hmove & Hfail).
  unfold tryCatch. rewrite Hrun. cbn [value after issued].
  destruct ok; cbn [value after issued ret].
  - split; [reflexivity |]. split; [exact Hv |]. exists true.
    split; [reflexivity |]. split; [exact Hmove | discriminate].
  - rewrite app_nil_r. split; [reflexivity |]. split; [exact Hv |].
    exists false. split; [reflexivity |]. split; [discriminate | exact Hfail].
Qed.

(** The calls of [syncFile] name the external path of the file and its
    parent directory, and no other path. *)
Lemma syncFile_calls (file : TAbstractFile) (n : string) (w : world) :
  getExternalPath s (pathOf file) = Some n ->
  Forall (fun c => c.1 = FsMkdir (Path.dirname n)
                   \/ exists data enc, c.1 = FsWriteFile n data enc)
         (issued (syncFile s file w)).
Proof.
  intros Hn.
  set (Q := fun c : call * bool =>
              c.1 = FsMkdir (Path.dirname n)
              \/ exists data enc, c.1 = FsWriteFile n data enc).
  assert (Hall : issuesOnly Q (syncFile s file)); [| apply Hall].
  unfold syncFile.
  rewrite (resolved_getExternalPath _ _ _ Hn).
  apply issuesOnly_tryCatch; [| auto with calls].
  destruct (negb _); [auto with calls |].
  apply issuesOnly_bind; [auto with calls |]. intros dirExists.
  apply issuesOnly_bind.
  { destruct (negb dirExists); cbn [when]; [| auto with calls].
    apply issuesOnly_fsMutate; now left. }
  intros _.
  destruct (isBinaryFileType (pathOf file));
    (apply issuesOnly_bind; [auto with calls |]); intros content;
    apply issuesOnly_fsMutate; right; eauto.
Qed.

(** C1 (where the code departs from the claim).  The handler of a rename
    in the vault gates a renamed file on each of the two paths, and a
    renamed folder on their disjunction.  Let one of the two paths fail
    the policy and the other pass it, with the old external directory
    there and the new one not.
    - For a folder the handler issues the [rename] of the old external
      path to the new one: when the call succeeds the counterpart of the
      old path is gone and the counterpart of the new path holds what it
      held, whichever of the two paths the policy refuses.
    - For a file with the same two paths the handler leaves the side
      that the policy refuses alone: when the old path is refused it is
      [syncFile] on the new path, whose calls name the new external path
      and its parent only; when the new path is refused it is
      [handleFileDeletion] on the old path, which issues no call and
      leaves the external store as it is. *)
Theorem folder_rename_reaches_excluded_paths
    (old new o n : string) (w : world) :
  shouldSyncFile s old = false \/ shouldSyncFile s new = false ->
  shouldSyncFile s old = true \/ shouldSyncFile s new = true ->
  getExternalPath s old = Some o ->
  getExternalPath s new = Some n ->
  exists_ (extfs w) o = true ->
  exists_ (extfs w) n = false ->
  (let r := onRename s (TFolder new) old w in
   exists ok : bool,
     issued r = [(FsRename o n, ok)]
     /\ (ok = true ->
         fsLookup (extfs (after r)) n = fsLookup (extfs w) o
         /\ fsLookup (extfs (after r)) o = None))
  /\ (let r := onRename s (TFile new) old w in
      (shouldSyncFile s old = false ->
       r = syncFile s (TFile new) w
       /\ Forall (fun c => c.1 = FsMkdir (Path.dirname n)
                           \/ exists data enc, c.1 = FsWriteFile n data enc)
                 (issued r))
      /\ (shouldSyncFile s new = false ->
          r = handleFileDeletion s old w
          /\ issued r = [] /\ extfs (after r) = extfs w)).
Proof.
  intros Hfails Hpasses Ho Hn He Hfree. split.
  - intros r.
    assert (Hr : r = handleFolderRename s (TFolder new) old w).
    { subst r. unfold onRename.
      destruct Hpasses as [-> | ->]; [reflexivity | now rewrite orb_true_r]. }
    destruct (handleFolderRename_renames (TFolder new) old o n w Ho Hn He Hfree)
      as (_ & _ & ok & Hcalls & Hmove & _).
    exists ok. rewrite Hr. now split.
  - intros r. split.
    + intros Hold.
      assert (Hnew : shouldSyncFile s new = true)
        by (destruct Hpasses as [H | H]; [congruence | exact H]).
      assert (Hr : r = syncFile s (TFile new) w).
      { subst r. unfold onRename. cbv zeta. now rewrite Hold, Hnew. }
      split; [exact Hr |]. rewrite Hr. now apply (syncFile_calls (TFile new)).
    + intros Hnew.
      assert (Hold : shouldSyncFile s old = true)
        by (destruct Hpasses as [H | H]; [exact H | congruence]).
      assert (Hr : r = handleFileDeletion s old w).
      { subst r. unfold onRename. cbv zeta. now rewrite Hold, Hnew. }
      split; [exact Hr |]. rewrite Hr. unfold handleFileDeletion.
      rewrite (resolved_getExternalPath _ _ _ Ho). unfold tryCatch.
      rewrite (bind_noop _ _ _ _ (existsSync_run o w)), He.
      split; reflexivity.
Qed.

End RenameHandler.

(** The folder [private] is excluded and is renamed to [public]: its
    external counterpart is renamed. *)
Lemma folder_rename_reaches_excluded_paths_witness :
  let s := settingsAll ["private"] in
  let w := worldOf ∅ privateStore in
  let r := onRename s (TFolder "public") "private" w in
  exists ok : bool,
    issued r = [(FsRename "/ext/private" "/ext/public", ok)]
    /\ (ok = true ->
        fsLookup (extfs (after r)) "/ext/public"
        = fsLookup (extfs w) "/ext/private"
        /\ fsLookup (extfs (after r)) "/ext/private" = None).
Proof.
  refine (proj1 (folder_rename_reaches_excluded_paths (settingsAll ["private"])
                   "private" "public" "/ext/private" "/ext/public"
                   (worldOf ∅ privateStore) _ _ _ _ _ _)).
  - left. reflexivity.
  - right. reflexivity.
  - reflexivity.
  - reflexivity.
  - reflexivity.
  - reflexivity.
Defined.

(** The evaluation of the two branches on the excluded folder [private]
    of [privateStore]: renamed as a folder, its external counterpart is
    renamed; a file renamed from the same path to the same new path
    leaves [/ext/private] as it is. *)
Example rename_branches_on_an_excluded_path :
  let s := settingsAll ["private"] in
  let w := worldOf ∅ privateStore in
  shouldSyncFile s "private" = false
  /\ (let r := onRename s (TFolder "public") "private" w in
      issued r = [(FsRename "/ext/private" "/ext/public", true)]
      /\ fsLookup (extfs (after r)) "/ext/private" = None)
  /\ (let r := onRename s (TFile "public") "private" w in
      issued r = []
      /\ fsLookup (extfs (after r)) "/ext/private"
         = fsLookup privateStore "/ext/private").
Proof. vm_compute. repeat split. Qed.

(** Inbound, the policy is tested on the path relative to the external
    root and the write goes to the vault path computed from the external
    folders: with [docs] excluded and [/ext/shared/docs] an external
    folder, a change of [/ext/shared/docs/x.md] is written to the
    excluded path [docs/x.md]. *)
Example inbound_change_writes_an_excluded_path :
  let s := settingsShared in
  shouldSyncFile s "docs/x.md" = false
  /\ shouldSyncFile s "shared/docs/x.md" = true
  /\ issued (handleExternalFileChange s "/ext/shared/docs/x.md"
               "shared/docs/x.md"
               (worldOf {["docs/x.md" := VFile "kept"]} sharedStore))
     = [(VaultModify "docs/x.md" "leak", true)]
  /\ issued (handleExternalFileChange s "/ext/shared/docs/x.md"
               "shared/docs/x.md" (worldOf ∅ sharedStore))
     = [(VaultCreateFolder "docs", true);
        (VaultCreate "docs/x.md" "leak", true)].
Proof. vm_compute. repeat split. Qed.

(** ** The full synchronisation in the mode [include] *)

Lemma isIncludedIn_root (folders : list string) :
  "" ∉ folders -> isIncludedIn folders "" = false.
Proof.
  induction folders as [|f folders IH]; intros Hnot; [reflexivity |].
  apply not_elem_of_cons in Hnot. destruct Hnot as [Hf Hrest].
  cbn [isIncludedIn].
  destruct (String.eqb_spec f "") as [->|_]; [now destruct Hf |].
  destruct f as [|c f]; [now destruct Hf |].
  unfold isUnder, Js.startsWith. rewrite append_cons. cbn. now apply IH.
Qed.

Lemma isExternalIncludedIn_root (folders : list string) :
  (forall e, e ∈ folders -> Path.basename e <> "") ->
  isExternalIncludedIn folders "" = false.
Proof.
  induction folders as [|f folders IH]; intros Hnames; [reflexivity |].
  cbn [isExternalIncludedIn].
  assert (Hf : Path.basename f <> "") by (apply Hnames; constructor).
  destruct (Path.basename f) as [|c b]; [now destruct Hf |].
  unfold isUnder, Js.startsWith. rewrite append_cons. cbn.
  apply IH. intros e He. apply Hnames. now constructor.
Qed.

(** C3 (where the code departs from the claim).  In the mode [include],
    unless the empty path is itself an included folder, the policy
    refuses the path of the external root, and the full synchronisation
    does not do what its two steps are written for:
    - step 2 returns at once from the walk of the external root, so that
      it walks the configured external folders only, and with none
      configured the full synchronisation issues creations of folders
      and no write of a file, whatever files of included folders the
      external root holds;
    - step 1 does not enter a directory whose own path the policy
      refuses, whatever that directory holds: the included folders below
      it are not created. *)
Theorem full_sync_in_include_mode (s : SyncRepSettings) (w : world) :
  syncMode s = ModeInclude ->
  "" ∉ includedFolders s ->
  (forall e, e ∈ externalIncludedFolders s -> Path.basename e <> "") ->
  shouldSyncFile s "" = false
  /\ syncDirectoryFromExternalAt s (syncFolderPath s) "" w = Run (Ok tt) w []
  /\ synchronizeFiles s w
     = forEach
         (fun externalFolder =>
            found <- existsSync externalFolder ;;
            if found then
              syncDirectoryFromExternalAt s externalFolder
                (externalFolderRelativePath s externalFolder)
            else ret tt)
         (externalIncludedFolders s) w
  /\ (externalIncludedFolders s = [] ->
      Forall (fun c => isCreateFolder c.1 = true)
             (issued (syncAllExternalDirectories s w)))
  /\ (forall base rel,
        Js.truthy rel = true ->
        shouldSyncFile s (Js.replaceBackslashes rel) = false ->
        scanAndCreateAllDirectories s base rel w = Run (Ok tt) w []).
Proof.
  intros Hmode Hincl Hext.
  assert (Hpol : shouldSyncFile s "" = false).
  { unfold shouldSyncFile, isIncluded, isExternalIncluded. rewrite Hmode.
    now rewrite isIncludedIn_root, isExternalIncludedIn_root. }
  assert (Hroot : forall w', syncDirectoryFromExternalAt s (syncFolderPath s) "" w'
                             = Run (Ok tt) w' []).
  { intros w'. unfold syncDirectoryFromExternalAt.
    rewrite (bind_noop _ _ _ _ (nodeAt_run (extfs w') _ w' eq_refl)).
    rewrite syncDirectoryFromExternal_unfold, Hpol. reflexivity. }
  split; [exact Hpol |]. split; [apply Hroot |]. split; [| split].
  - unfold synchronizeFiles. now rewrite (bind_noop _ _ _ _ (Hroot w)).
  - intros Hnone.
    assert (Hall : issuesOnly (fun c => isCreateFolder c.1 = true)
                     (syncAllExternalDirectories s)); [| apply Hall].
    unfold syncAllExternalDirectories.
    apply issuesOnly_bind; [destruct (Js.truthy _); auto with calls |].
    intros configured. destruct (negb configured); [auto with calls |].
    apply issuesOnly_tryCatch; [| auto with calls].
    apply issuesOnly_bind;
      [apply issuesOnly_createDirectoryStructure; reflexivity |].
    intros _ w'. unfold synchronizeFiles.
    rewrite (bind_noop _ _ _ _ (Hroot w')), Hnone. constructor.
  - intros base rel Hrel Hrefused.
    rewrite scanAndCreateAllDirectories_unfold. apply tryCatch_noop.
    unfold scanDirectoryItself. rewrite Hrel, Hrefused.
    now rewrite (bind_noop (ret false) _ w false eq_refl).
Qed.

(** With the folder [a] included, over [sampleStore]. *)
Lemma full_sync_in_include_mode_witness :
  let s := settingsInclude ["a"] [] in
  let w := worldOf ∅ sampleStore in
  shouldSyncFile s "" = false
  /\ synchronizeFiles s w = Run (Ok tt) w []
  /\ Forall (fun c => isCreateFolder c.1 = true)
            (issued (syncAllExternalDirectories s w)).
Proof.
  intros s w.
  assert (Hnot : "" ∉ includedFolders s).
  { intros H. apply list_elem_of_singleton in H. discriminate H. }
  assert (Hext : forall e, e ∈ externalIncludedFolders s -> Path.basename e <> "").
  { intros e H. inversion H. }
  destruct (full_sync_in_include_mode s w eq_refl Hnot Hext)
    as (Hpol & _ & Hfiles & Hcalls & _).
  split; [exact Hpol |]. split; [exact Hfiles | now apply Hcalls].
Defined.

(** The folder [a] is included and [/ext/a] holds the note [x.md]: the
    full synchronisation creates the folders [a] and [a/e] and pulls no
    file, so that the note, which the policy accepts, is not in the vault
    afterwards; the handler of an external change of that note, from the
    same state, creates it. *)
Example include_mode_full_sync_pulls_no_file :
  let s := settingsInclude ["a"] [] in
  let w := worldOf ∅ sampleStore in
  shouldSyncFile s "a/x.md" = true
  /\ (let r := syncAllExternalDirectories s w in
      issued r = [(VaultCreateFolder "a", true); (VaultCreateFolder "a/e", true)]
      /\ vault (after r) !! "a/x.md" = None)
  /\ (let r := handleExternalFileChange s "/ext/a/x.md" "a/x.md" w in
      issued r = [(VaultCreateFolder "a", true);
                  (VaultCreate "a/x.md" "hello", true)]
      /\ vault (after r) !! "a/x.md" = Some (VFile "hello")).
Proof. vm_compute. repeat split. Qed.

(** The folder [a/b] is included and [/ext/a/b] holds a folder [c] and a
    note: the policy accepts [a/b] and [a/b/c] and refuses [a], the full
    synchronisation issues no call at all, and the handler of the
    creation of the external directory [/ext/a/b], from the same state,
    creates the three folders and the note. *)
Example include_mode_full_sync_misses_nested_folder :
  let s := settingsInclude ["a/b"] [] in
  let w := worldOf ∅ nestedStore in
  shouldSyncFile s "a" = false
  /\ shouldSyncFile s "a/b" = true
  /\ shouldSyncFile s "a/b/c" = true
  /\ syncAllExternalDirectories s w = Run (Ok tt) w []
  /\ issued (handleExternalDirectoryCreation s "/ext/a/b" "a/b" w)
     = [(VaultCreateFolder "a", true); (VaultCreateFolder "a/b", true);
        (VaultCreateFolder "a/b/c", true);
        (VaultCreate "a/b/n.md" "nested", true)].
Proof. vm_compute. repeat split. Qed.

(** ** The path functions on examples *)

Example split_ex : Js.split "/" "a//b/" = ["a"; ""; "b"; ""].
Proof. reflexivity. Qed.
Example join_ex1 : Path.join "/ext" "a/b.md" = "/ext/a/b.md".
Proof. reflexivity. Qed.
Example join_ex2 : Path.join "../x/./y" "../z/" = "../x/z/".
Proof. reflexivity. Qed.
Example join_ex3 : Path.join "/ext/proj" "" = "/ext/proj".
Proof. reflexivity. Qed.
Example dirname_ex : List.map Path.dirname ["a/b.md"; "b.md"; "/a"; "/a/b/"; ""; "a//b"]
   = ["a"; "."; "/"; "/a"; "."; "a/"].
Proof. reflexivity. Qed.
Example basename_ex : List.map Path.basename ["/ext/proj/"; "a.md"; "/"; ""] = ["proj"; "a.md"; ""; ""].
Proof. reflexivity. Qed.
Example extname_ex : List.map Path.extname ["a/b.PNG"; ".png"; "a.b/c"; "x."; ".."; "a.tar.gz"; "..a"]
   = [".PNG"; ""; ""; "."; ""; ".gz"; ".a"].
Proof. reflexivity. Qed.
Example relative_ex : List.map (Path.relative "/ext") ["/ext/a/b"; "/other/p"; "/ext"; "/ext/"]
   = ["a/b"; "../other/p"; ""; ""].
Proof. reflexivity. Qed.
(** An extension written with the Kelvin sign is lowered to [.mkv]. *)
Example kelvin_extension_ex :
  isBinaryFileType
    ("clip.m" +:+ String "226"%char (String "132"%char (String "170"%char "v")))
  = true.
Proof. reflexivity. Qed.

Example decodeUtf8_ex :
  Js.decodeUtf8 "hello" = "hello"
  /\ Js.decodeUtf8 (String "195"%char (String "169"%char "t"))
     = String "195"%char (String "169"%char "t")
  /\ Js.decodeUtf8 (String "226"%char (String "132"%char "A"))
     = Js.replacement "A"
  /\ Js.decodeUtf8 (String "240"%char (String "128"%char "A"))
     = Js.replacement (Js.replacement "A").
Proof. repeat split. Qed.

Example bin_ex : List.map isBinaryFileType ["a/b.PNG"; "n.md"; ".png"] = [true; false; false].
Proof. reflexivity. Qed.

(** * Further properties of the engine *)

(** ** The policy along a path *)

Lemma prefix_app (a b : string) : String.prefix a (a +:+ b) = true.
Proof.
  induction a as [|c a IH]; [now destruct b |].
  rewrite append_cons. cbn [String.prefix].
  destruct (ascii_dec c c) as [_|Hne]; [exact IH | now destruct Hne].
Qed.

Lemma prefix_app_r (a b c : string) :
  String.prefix a b = true -> String.prefix a (b +:+ c) = true.
Proof.
  revert b. induction a as [|x a IH]; intros b H.
  - now destruct (b +:+ c).
  - destruct b as [|y b]; [discriminate H |].
    rewrite append_cons. cbn [String.prefix] in *.
    destruct (ascii_dec x y); [now apply IH | discriminate H].
Qed.

(** A path below a path that is under a folder is under that folder. *)
Lemma isUnder_below (p q folder : string) :
  isUnder p folder = true -> isUnder (p +:+ "/" +:+ q) folder = true.
Proof.
  unfold isUnder, Js.startsWith. intros H.
  apply orb_true_iff in H. apply orb_true_iff. right.
  destruct H as [H | H].
  - apply String.eqb_eq in H. subst p.
    rewrite <- append_assoc. apply prefix_app.
  - now apply prefix_app_r.
Qed.

Section PolicyAlongPaths.

Variable s : SyncRepSettings.

Lemma isExcluded_below (p q : string) :
  isExcluded s p = true -> isExcluded s (p +:+ "/" +:+ q) = true.
Proof.
  unfold isExcluded. rewrite !existsb_exists.
  intros (folder & Hin & H). exists folder. split; [exact Hin |].
  apply orb_true_iff in H. destruct H as [H | H].
  - apply orb_true_iff. left. now apply (isUnder_below p q folder).
  - apply orb_true_iff. right. unfold Js.startsWith in *.
    now apply prefix_app_r.
Qed.

Lemma isIncludedIn_below (folders : list string) (p q : string) :
  isIncludedIn folders p = true ->
  isIncludedIn folders (p +:+ "/" +:+ q) = true.
Proof.
  induction folders as [|f folders IH]; [discriminate |].
  cbn [isIncludedIn]. destruct (String.eqb f ""); [reflexivity |].
  destruct (isUnder p f) eqn:Hu.
  - now rewrite (isUnder_below p q f Hu).
  - intros H. rewrite (IH H). now destruct (isUnder (p +:+ "/" +:+ q) f).
Qed.

Lemma isExternalIncludedIn_below (folders : list string) (p q : string) :
  isExternalIncludedIn folders p = true ->
  isExternalIncludedIn folders (p +:+ "/" +:+ q) = true.
Proof.
  induction folders as [|f folders IH]; [discriminate |].
  cbn [isExternalIncludedIn].
  destruct (isUnder p (Path.basename f)) eqn:Hu.
  - now rewrite (isUnder_below p q _ Hu).
  - intros H. rewrite (IH H). now destruct (isUnder (p +:+ "/" +:+ q) (Path.basename f)).
Qed.

(** In the mode [all], what lies below a path that the policy refuses
    is refused: a walk that does not enter an excluded directory leaves
    out no path that the policy accepts. *)
Theorem exclusion_is_inherited (p q : string) :
  syncMode s = ModeAll ->
  shouldSyncFile s p = false ->
  shouldSyncFile s (p +:+ "/" +:+ q) = false.
Proof.
  unfold shouldSyncFile. intros -> H.
  apply negb_false_iff in H. apply negb_false_iff.
  now apply isExcluded_below.
Qed.

(** In the mode [include], what lies below a path that the policy
    accepts is accepted. *)
Theorem inclusion_is_inherited (p q : string) :
  syncMode s = ModeInclude ->
  shouldSyncFile s p = true ->
  shouldSyncFile s (p +:+ "/" +:+ q) = true.
Proof.
  unfold shouldSyncFile, isIncluded, isExternalIncluded. intros -> H.
  apply orb_true_iff in H. apply orb_true_iff. destruct H as [H | H].
  - left. now apply isIncludedIn_below.
  - right. now apply isExternalIncludedIn_below.
Qed.

End PolicyAlongPaths.

Lemma exclusion_is_inherited_witness :
  shouldSyncFile (settingsAll ["private"]) ("private" +:+ "/" +:+ "f.md")
  = false.
Proof.
  apply (exclusion_is_inherited (settingsAll ["private"]) "private" "f.md").
  - reflexivity.
  - reflexivity.
Defined.

Lemma inclusion_is_inherited_witness :
  shouldSyncFile (settingsInclude ["docs"] []) ("docs" +:+ "/" +:+ "a.md")
  = true.
Proof.
  apply (inclusion_is_inherited (settingsInclude ["docs"] []) "docs" "a.md").
  - reflexivity.
  - reflexivity.
Defined.

(** ** Without an external root *)




(** ** The folders of a vault path ([ensureVaultDirectory]) *)

(** Whatever happens, the loop changes the vault by new folders only. *)
Lemma ensureVaultDirectoryFrom_adds_folders dirs cur w q :
  vault (after (ensureVaultDirectoryFrom cur dirs w)) !! q = vault w !! q
  \/ (vault w !! q = None
      /\ vault (after (ensureVaultDirectoryFrom cur dirs w)) !! q
         = Some VFolder).
Proof.
  revert cur w. induction dirs as [|dir rest IH]; intros cur w; [now left |].
  rewrite ensureVaultDirectoryFrom_cons.
  set (cur' := nextPath cur dir).
  rewrite (bind_noop _ _ _ _ (getAbstractFileByPath_run cur' w)).
  destruct (vault w !! cur') as [n|] eqn:Hl.
  - assert (Hskip : forall k : unit -> M unit,
              bind (match (match n with
                           | VFile _ => Some (TFile cur')
                           | VFolder => Some (TFolder cur')
                           end) with
                    | Some _ => ret tt
                    | None => tryCatch (vaultCreateFolder cur')
                        (fun message =>
                           if negb (Js.truthy message)
                              || negb (Js.includes message "already exists")
                           then throw message else ret tt)
                    end) k w = k tt w).
    { intros k. destruct n; now apply bind_noop. }
    rewrite Hskip. apply IH.
  - destruct (vaultCreateFolder_cases cur' w) as [[_ Hrun] | [e Hrun]].
    + rewrite (bind_step _ _ _ _ _ _ (tryCatch_step _ _ _ _ _ _ Hrun)).
      cbn [after].
      set (w1 := withVault (<[cur' := VFolder]> (vault w)) w).
      destruct (IH cur' w1) as [Hsame | [Hfree Hnew]].
      * destruct (decide (cur' = q)) as [<-|Hne].
        -- right. split; [exact Hl |]. rewrite Hsame. apply lookup_insert_eq.
        -- left. rewrite Hsame. now apply lookup_insert_ne.
      * right. split; [| exact Hnew].
        destruct (decide (cur' = q)) as [<-|Hne]; [exact Hl |].
        revert Hfree. subst w1. cbn [vault withVault].
        now rewrite lookup_insert_ne.
    + pose proof (tryCatch_throw_step _
        (fun message =>
           if negb (Js.truthy message)
              || negb (Js.includes message "already exists")
           then throw message else ret tt) _ _ _ _ Hrun) as Hcatch.
      cbv beta in Hcatch.
      destruct (negb (Js.truthy e) || negb (Js.includes e "already exists"));
        unfold throw, ret in Hcatch; cbn [value after issued] in Hcatch.
      * rewrite (bind_throw_step _ _ _ _ _ _ Hcatch). now left.
      * rewrite (bind_step _ _ _ _ _ _ Hcatch). apply IH.
Qed.

(** [ensureVaultDirectory] changes the vault by new folders only and
    issues folder creations only.  When none of them fails it ends
    normally, every path from the first segment down to the whole path is
    in the vault (the path itself, when it does not start with a slash),
    and a second run issues no call. *)
Theorem ensureVaultDirectory_creates_the_path (p : string) (w : world) :
  let r := ensureVaultDirectory p w in
  (forall q,
      vault (after r) !! q = vault w !! q
      \/ (vault w !! q = None /\ vault (after r) !! q = Some VFolder))
  /\ Forall (fun c => isCreateFolder c.1 = true) (issued r)
  /\ (Forall succeeded (issued r) ->
      value r = Ok tt
      /\ Forall (occupied (vault (after r))) (ensurePaths p)
      /\ (Js.startsWith p "/" = false -> occupied (vault (after r)) p)
      /\ ensureVaultDirectory p (after r) = Run (Ok tt) (after r) []).
Proof.
  intros r. split; [| split].
  - intros q. apply ensureVaultDirectoryFrom_adds_folders.
  - apply issuesOnly_ensureVaultDirectoryFrom. reflexivity.
  - intros Hok.
    destruct (ensureVaultDirectoryFrom_ensures [] _ _ _ Hok) as (_ & Hocc & Hv).
    fold (ensureVaultDirectory p) in Hocc, Hv. fold r in Hocc, Hv.
    fold (ensurePaths p) in Hocc.
    split; [exact Hv |]. split; [exact Hocc |]. split.
    + intros Hslash. apply satisfied_dir_occupied; [exact Hslash |].
      now right.
    + now apply ensureVaultDirectoryFrom_settled.
Qed.

Lemma ensureVaultDirectory_creates_the_path_witness :
  let r := ensureVaultDirectory "a/b/c" (worldOf {["a" := VFolder]} sampleStore) in
  issued r = [(VaultCreateFolder "a/b", true); (VaultCreateFolder "a/b/c", true)]
  /\ occupied (vault (after r)) "a/b/c"
  /\ ensureVaultDirectory "a/b/c" (after r) = Run (Ok tt) (after r) [].
Proof.
  intros r.
  destruct (ensureVaultDirectory_creates_the_path "a/b/c"
              (worldOf {["a" := VFolder]} sampleStore)) as (_ & _ & H).
  destruct H as (_ & _ & Hp & Hagain).
  - vm_compute. repeat constructor.
  - split; [reflexivity |]. split; [now apply Hp | exact Hagain].
Defined.

(** ** A change of an external file ([handleExternalFileChange]) *)

Lemma fsReadFile_run p d enc w :
  fsLookup (extfs w) p = Some (EFile (Some d)) ->
  fsReadFile p enc w = Run (Ok (decodeAs enc d)) w [].
Proof. intros H. unfold fsReadFile, bind, get. cbn. now rewrite H. Qed.

Lemma fsReadFile_fails p enc w :
  (forall d, fsLookup (extfs w) p <> Some (EFile (Some d))) ->
  fsReadFile p enc w = Run (Throw "read failed") w [].
Proof.
  intros H. unfold fsReadFile, bind, get. cbn.
  destruct (fsLookup (extfs w) p) as [[[d|]| |]|]; try reflexivity.
  now destruct (H d).
Qed.

Lemma tryFinally_step {A} (m : M A) (f : M unit) w w1 a t :
  m w = Run (Ok a) w1 t ->
  tryFinally m f w
  = Run (match value (f w1) with Ok _ => Ok a | Throw e => Throw e end)
        (after (f w1)) (t ++ issued (f w1)).
Proof. intros H. unfold tryFinally. now rewrite H. Qed.

Lemma bind_pure_step {A B} (m : M A) (f : A -> M B) w w1 a :
  m w = Run (Ok a) w1 [] -> bind m f w = f a w1.
Proof. intros H. unfold bind. rewrite H. cbn. apply run_eta. Qed.

Lemma vaultModifyAs_ok c p d d0 w :
  faulty w p = false -> vault w !! p = Some (VFile d0) ->
  vaultModifyAs c (TFile p) d w
  = Run (Ok tt) (withVault (<[p := VFile d]> (vault w)) w) [(c, true)].
Proof.
  intros Hf Hl. unfold vaultModifyAs, bind, get. cbn. now rewrite Hf, Hl.
Qed.

Section InboundChange.

Variable s : SyncRepSettings.

(** Once the policy has let the path through, the handler is the read of
    the external file followed by [syncContent], between the raising and
    the lowering of the guard; it ends normally whatever fails. *)
Lemma handleExternalFileChange_run fullPath relativePath w :
  shouldSyncFile s relativePath = true ->
  let vaultPath :=
    vaultPathFor (externalIncludedFolders s) fullPath relativePath in
  let inner :=
    tryCatch
      (bind (fsReadFile fullPath
               (if isBinaryFileType vaultPath then Buffer else Utf8))
         (fun content =>
            syncContent (isBinaryFileType vaultPath) vaultPath content
              (match vault w !! vaultPath with
               | Some (VFile _) => Some (TFile vaultPath)
               | Some VFolder => Some (TFolder vaultPath)
               | None => None
               end)))
      (fun _ => ret tt) (withGuard true w) in
  handleExternalFileChange s fullPath relativePath w
  = Run (Ok tt) (withGuard false (after inner)) (issued inner).
Proof.
  intros Hpol vaultPath inner. unfold handleExternalFileChange.
  rewrite Hpol. cbn [negb]. fold vaultPath.
  match goal with
  | |- tryFinally (tryCatch ?m ?h) ?f w = _ =>
      assert (Hm : m w = inner)
  end.
  { rewrite (bind_pure_step _ _ w (withGuard true w) tt eq_refl).
    now rewrite (bind_noop _ _ _ _
                   (getAbstractFileByPath_run vaultPath (withGuard true w))). }
  assert (Hv : value inner = Ok tt) by apply tryCatch_swallow_ok.
  unfold tryFinally.
  match goal with
  | |- context [tryCatch ?m ?h w] =>
      assert (Hc : tryCatch m h w = inner)
        by (rewrite <- Hm; apply (tryCatch_ok _ _ _ tt); now rewrite Hm)
  end.
  rewrite Hc, Hv. cbn. now rewrite app_nil_r.
Qed.

(** The handling of a changed external file is driven by the content, as
    it is read for the kind of the file (the bytes for a binary
    extension, the decoded text otherwise): for a path that the policy
    accepts,
    - an external file that cannot be read leaves the vault alone;
    - a vault file that already reads as the content read is not written;
    - a vault file that reads otherwise gets one modification, with the
      content read.
    The handler ends normally with the guard down. *)
Theorem external_change_is_content_driven
    (fullPath relativePath : string) (w : world) :
  shouldSyncFile s relativePath = true ->
  let vaultPath :=
    vaultPathFor (externalIncludedFolders s) fullPath relativePath in
  let r := handleExternalFileChange s fullPath relativePath w in
  ((forall d, fsLookup (extfs w) fullPath <> Some (EFile (Some d))) ->
   r = Run (Ok tt) (withGuard false w) [])
  /\ (forall d d0,
        fsLookup (extfs w) fullPath = Some (EFile (Some d)) ->
        vault w !! vaultPath = Some (VFile d0) ->
        let content := contentOf vaultPath d in
        (contentOf vaultPath d0 = content ->
         r = Run (Ok tt) (withGuard false w) [])
        /\ (contentOf vaultPath d0 <> content ->
            faulty w vaultPath = false ->
            r = Run (Ok tt)
                  (withGuard false
                     (withVault (<[vaultPath := VFile content]> (vault w)) w))
                  [(if isBinaryFileType vaultPath
                    then VaultModifyBinary vaultPath content
                    else VaultModify vaultPath content, true)])).
Proof.
  intros Hpol vaultPath r. subst r.
  rewrite (handleExternalFileChange_run _ _ _ Hpol). fold vaultPath.
  set (w1 := withGuard true w). split.
  - intros Hread.
    rewrite (tryCatch_throw_step _ _ w1 w1 "read failed" []).
    + reflexivity.
    + apply bind_throw_step. now apply fsReadFile_fails.
  - intros d d0 Hread Hold content. rewrite Hold.
    assert (Hstep : forall k : string -> M unit,
              bind (fsReadFile fullPath
                      (if isBinaryFileType vaultPath then Buffer else Utf8))
                   k w1
              = k content w1).
    { intros k. exact (bind_noop _ _ _ _ (fsReadFile_run fullPath d _ w1 Hread)). }
    split.
    + intros Hsame.
      rewrite (tryCatch_noop _ _ w1 tt); [reflexivity |].
      rewrite Hstep. apply writeIfDifferent_settled. now exists d0.
    + intros Hdiff Hfault.
      assert (Hrun :
        writeIfDifferent (isBinaryFileType vaultPath) (TFile vaultPath)
          content w1
        = Run (Ok tt) (withVault (<[vaultPath := VFile content]> (vault w)) w1)
              [(if isBinaryFileType vaultPath
                then VaultModifyBinary vaultPath content
                else VaultModify vaultPath content, true)]).
      { rewrite writeIfDifferent_unfold.
        rewrite (bind_noop _ _ _ _ (currentContent_run vaultPath d0 w1 Hold)).
        destruct (String.eqb_spec (contentOf vaultPath d0) content) as [E|_];
          [now destruct Hdiff |].
        cbn [negb].
        exact (vaultModifyAs_ok _ vaultPath content d0 w1 Hfault Hold). }
      assert (Hb :
        bind (fsReadFile fullPath
                (if isBinaryFileType vaultPath then Buffer else Utf8))
             (fun content =>
                syncContent (isBinaryFileType vaultPath) vaultPath content
                  (Some (TFile vaultPath))) w1
        = Run (Ok tt) (withVault (<[vaultPath := VFile content]> (vault w)) w1)
              [(if isBinaryFileType vaultPath
                then VaultModifyBinary vaultPath content
                else VaultModify vaultPath content, true)]).
      { rewrite Hstep. exact Hrun. }
      now rewrite (tryCatch_step _ _ _ _ _ _ Hb).
Qed.

(** When the vault holds nothing at the path, the folders of the path and
    the file are created: if no call fails, the vault holds the file with
    the content read. *)
Theorem external_change_creates_missing_file
    (fullPath relativePath d : string) (w : world) :
  shouldSyncFile s relativePath = true ->
  let vaultPath :=
    vaultPathFor (externalIncludedFolders s) fullPath relativePath in
  let r := handleExternalFileChange s fullPath relativePath w in
  fsLookup (extfs w) fullPath = Some (EFile (Some d)) ->
  vault w !! vaultPath = None ->
  Forall succeeded (issued r) ->
  value r = Ok tt
  /\ vault (after r) !! vaultPath = Some (VFile (contentOf vaultPath d))
  /\ isProcessingExternalChange (after r) = false
  /\ (forall q, vault w !! q = Some VFolder ->
                vault (after r) !! q = Some VFolder).
Proof.
  intros Hpol vaultPath r Hread Hfree. subst r.
  rewrite (handleExternalFileChange_run _ _ _ Hpol). fold vaultPath.
  set (w1 := withGuard true w). rewrite Hfree. cbn [value after issued].
  set (c := contentOf vaultPath d).
  set (m := syncContent (isBinaryFileType vaultPath) vaultPath c None).
  assert (Hin : tryCatch
                  (bind (fsReadFile fullPath
                           (if isBinaryFileType vaultPath then Buffer else Utf8))
                     (fun content =>
                        syncContent (isBinaryFileType vaultPath) vaultPath
                          content None))
                  (fun _ => ret tt) w1
                = tryCatch m (fun _ => ret tt) w1).
  { unfold tryCatch.
    now rewrite (bind_noop _ _ _ _ (fsReadFile_run fullPath d _ w1 Hread)). }
  rewrite Hin.
  destruct (tryCatch_swallow_after m w1) as [Ha Hi]. rewrite Ha, Hi.
  intros Hok.
  destruct (syncContent_creates [NeedFile vaultPath c] _ vaultPath c None w1
              (or_introl eq_refl) ltac:(constructor)
              (contentOf_idempotent vaultPath d) Hok) as (_ & Hfile & _).
  split; [reflexivity |]. split; [exact Hfile |]. split; [reflexivity |].
  intros q Hq. now apply (keeping_syncContent _ vaultPath c None w1).
Qed.

End InboundChange.

Lemma external_change_is_content_driven_witness :
  let s := settingsAll [] in
  let w := worldOf {["b.md" := VFile "old"]} sampleStore in
  handleExternalFileChange s "/ext/b.md" "b.md" w
  = Run (Ok tt)
        (withGuard false (withVault (<["b.md" := VFile "bee"]> (vault w)) w))
        [(VaultModify "b.md" "bee", true)].
Proof.
  intros s w.
  destruct (external_change_is_content_driven s "/ext/b.md" "b.md" w eq_refl)
    as [_ H].
  apply (proj2 (H "bee" "old" eq_refl eq_refl)).
  - discriminate.
  - reflexivity.
Defined.

Lemma external_change_creates_missing_file_witness :
  let s := settingsAll [] in
  let r := handleExternalFileChange s "/ext/a/x.md" "a/x.md"
             (worldOf ∅ sampleStore) in
  value r = Ok tt
  /\ vault (after r) !! "a/x.md" = Some (VFile "hello")
  /\ isProcessingExternalChange (after r) = false
  /\ (forall q, (∅ : gmap string vnode) !! q = Some VFolder ->
                vault (after r) !! q = Some VFolder).
Proof.
  intros s r.
  apply (external_change_creates_missing_file s "/ext/a/x.md" "a/x.md" "hello"
           (worldOf ∅ sampleStore)).
  - reflexivity.
  - reflexivity.
  - reflexivity.
  - vm_compute. repeat constructor.
Defined.

(** ** Deletions in the external store, mirrored in the vault *)

Lemma length_append (a b : string) :
  String.length (a +:+ b) = String.length a + String.length b.
Proof.
  induction a as [|c a IH]; [reflexivity |].
  rewrite append_cons. cbn [String.length]. now rewrite IH.
Qed.

Lemma prefix_length (a b : string) :
  String.prefix a b = true -> String.length a <= String.length b.
Proof.
  revert b. induction a as [|x a IH]; intros b H; [cbn; lia |].
  destruct b as [|y b]; [discriminate H |]. cbn [String.prefix] in H.
  destruct (ascii_dec x y); [| discriminate H].
  cbn [String.length]. specialize (IH b H). lia.
Qed.

Lemma prefix_trans (a b c : string) :
  String.prefix a b = true -> String.prefix b c = true ->
  String.prefix a c = true.
Proof.
  revert b c. induction a as [|x a IH]; intros b c Hab Hbc;
    [now destruct c |].
  destruct b as [|y b]; [discriminate Hab |].
  destruct c as [|z c]; [discriminate Hbc |].
  cbn [String.prefix] in *.
  destruct (ascii_dec x y) as [->|]; [| discriminate Hab].
  destruct (ascii_dec y z) as [->|]; [| discriminate Hbc].
  now apply (IH b c).
Qed.

(** What lies under a path below [p] lies under [p]; [p] does not. *)
Lemma isUnder_trans (q note p : string) :
  Js.startsWith note (p +:+ "/") = true ->
  isUnder q note = true -> isUnder q p = true.
Proof.
  unfold isUnder, Js.startsWith. intros Hnote H.
  apply orb_true_iff. right. apply orb_true_iff in H. destruct H as [H | H].
  - apply String.eqb_eq in H. now subst q.
  - apply (prefix_trans _ note); [exact Hnote |].
    apply (prefix_trans _ (note +:+ "/")); [apply prefix_app | exact H].
Qed.

Lemma isUnder_above (note p : string) :
  Js.startsWith note (p +:+ "/") = true -> isUnder p note = false.
Proof.
  unfold isUnder, Js.startsWith. intros Hnote.
  apply prefix_length in Hnote. rewrite length_append in Hnote.
  cbn [String.length] in Hnote.
  apply orb_false_iff. split.
  - destruct (String.eqb_spec p note) as [->|_]; [lia | reflexivity].
  - destruct (String.prefix (note +:+ "/") p) eqn:E; [| reflexivity].
    apply prefix_length in E. rewrite length_append in E.
    cbn [String.length] in E. lia.
Qed.

Lemma isUnder_refl (p : string) : isUnder p p = true.
Proof. unfold isUnder. now rewrite String.eqb_refl. Qed.

(** The vault once [p] and what lies under it went to the trash. *)
Lemma lookup_trashed (v : gmap string vnode) (p q : string) :
  filter (fun kv : string * vnode => isUnder kv.1 p = false) v !! q
  = if isUnder q p then None else v !! q.
Proof.
  apply option_eq. intros n. rewrite map_lookup_filter_Some. cbn [fst].
  destruct (isUnder q p); split; try tauto; try discriminate.
  intros [_ H]. discriminate H.
Qed.

Lemma vaultTrash_ok (f : TAbstractFile) (n : vnode) (w : world) :
  faulty w (pathOf f) = false -> vault w !! pathOf f = Some n ->
  vaultTrash f w
  = Run (Ok tt)
        (withVault (filter (fun kv : string * vnode =>
                              isUnder kv.1 (pathOf f) = false) (vault w)) w)
        [(VaultTrash (pathOf f), true)].
Proof.
  intros Hf Hl. unfold vaultTrash, bind, get. cbn. now rewrite Hf, Hl.
Qed.

Lemma vaultTrash_cases (f : TAbstractFile) (w : world) :
  (exists n, vault w !! pathOf f = Some n
     /\ vaultTrash f w
        = Run (Ok tt)
            (withVault (filter (fun kv : string * vnode =>
                                  isUnder kv.1 (pathOf f) = false) (vault w)) w)
            [(VaultTrash (pathOf f), true)])
  \/ (exists e, vaultTrash f w = Run (Throw e) w [(VaultTrash (pathOf f), false)]).
Proof.
  unfold vaultTrash, bind, get. cbn.
  destruct (faulty w (pathOf f)); [right; eexists; reflexivity |].
  destruct (vault w !! pathOf f) as [n|];
    [left; exists n; split; reflexivity | right; eexists; reflexivity].
Qed.

Lemma faulty_none (w : world) (p : string) :
  vaultFaults w = [] -> faulty w p = false.
Proof. intros H. unfold faulty. now rewrite H. Qed.

Lemma setTimeout_run t ms w :
  setTimeout t ms w = Run (Ok tt) (withTimers (timers w ++ [(ms, t)]) w) [].
Proof. reflexivity. Qed.

Section InboundDeletion.

Variable s : SyncRepSettings.

(** When an external file is gone, the vault file at its path goes to
    the trash, and nothing else: a folder at that path, or no entry, and
    the vault is left alone.  The handler returns with the guard set and
    its lowering deferred. *)
Theorem external_deletion_trashes_the_file (relativePath : string) (w : world) :
  shouldSyncFile s relativePath = true ->
  let r := handleExternalFileDeletion s relativePath w in
  let deferred :=
    withTimers (timers w ++ [(500, TaskClearGuard)]) (withGuard true w) in
  (forall d,
      vault w !! relativePath = Some (VFile d) ->
      faulty w relativePath = false ->
      r = Run (Ok tt)
            (withVault
               (filter (fun kv : string * vnode =>
                          isUnder kv.1 relativePath = false) (vault w))
               deferred)
            [(VaultTrash relativePath, true)]
      /\ vault (after r) !! relativePath = None
      /\ (forall q, isUnder q relativePath = false ->
                    vault (after r) !! q = vault w !! q))
  /\ ((forall d, vault w !! relativePath <> Some (VFile d)) ->
      r = Run (Ok tt) deferred []).
Proof.
  intros Hpol r deferred. subst r. unfold handleExternalFileDeletion.
  rewrite Hpol. cbn [negb]. set (w1 := withGuard true w).
  assert (Hstep : forall body : M unit,
            bind (setProcessingExternalChange true) (fun _ => body) w
            = body w1)
    by (intros body;
        exact (bind_pure_step (setProcessingExternalChange true)
                 (fun _ => body) w w1 tt eq_refl)).
  split.
  - intros d Hfile Hfault.
    assert (Hbody :
      bind (setProcessingExternalChange true)
        (fun _ =>
           bind (getAbstractFileByPath relativePath)
             (fun existingFile =>
                match existingFile with
                | Some (TFile _) => moveFileToTrash relativePath
                | _ => ret tt
                end)) w
      = Run (Ok tt)
          (withVault (filter (fun kv : string * vnode =>
                                isUnder kv.1 relativePath = false) (vault w)) w1)
          [(VaultTrash relativePath, true)]).
    { rewrite Hstep.
      rewrite (bind_noop _ _ _ _ (getAbstractFileByPath_run relativePath w1)).
      change (vault w1) with (vault w). rewrite Hfile.
      unfold moveFileToTrash. apply tryCatch_step.
      rewrite (bind_noop _ _ _ _ (getAbstractFileByPath_run relativePath w1)).
      change (vault w1) with (vault w). rewrite Hfile.
      exact (vaultTrash_ok (TFile relativePath) (VFile d) w1 Hfault Hfile). }
    rewrite (tryFinally_step _ _ _ _ _ _ (tryCatch_step _ _ _ _ _ _ Hbody)).
    rewrite setTimeout_run. cbn [value after issued].
    split; [reflexivity |]. split; cbn [vault withVault withTimers].
    + now rewrite lookup_trashed, isUnder_refl.
    + intros q Hq. now rewrite lookup_trashed, Hq.
  - intros Hnot.
    assert (Hbody :
      bind (setProcessingExternalChange true)
        (fun _ =>
           bind (getAbstractFileByPath relativePath)
             (fun existingFile =>
                match existingFile with
                | Some (TFile _) => moveFileToTrash relativePath
                | _ => ret tt
                end)) w
      = Run (Ok tt) w1 []).
    { rewrite Hstep.
      rewrite (bind_noop _ _ _ _ (getAbstractFileByPath_run relativePath w1)).
      change (vault w1) with (vault w).
      destruct (vault w !! relativePath) as [[d|]|] eqn:E; try reflexivity.
      now destruct (Hnot d). }
    rewrite (tryFinally_step _ _ _ _ _ _ (tryCatch_step _ _ _ _ _ _ Hbody)).
    now rewrite setTimeout_run.
Qed.

End InboundDeletion.

Lemma external_deletion_trashes_the_file_witness :
  let s := settingsAll [] in
  let w := worldOf {["b.md" := VFile "bee"]} sampleStore in
  let r := handleExternalFileDeletion s "b.md" w in
  issued r = [(VaultTrash "b.md", true)]
  /\ vault (after r) !! "b.md" = None.
Proof.
  intros s w r.
  destruct (external_deletion_trashes_the_file s "b.md" w eq_refl) as [H _].
  destruct (H "bee" eq_refl eq_refl) as (Hrun & Hgone & _).
  split; [| exact Hgone]. fold r in Hrun. now rewrite Hrun.
Defined.

(** A loop keeps what each of its bodies keeps, when none throws. *)
Lemma forEach_invariant {A} (Inv : world -> Prop) (body : A -> M unit)
    (l : list A) :
  (forall x w, x ∈ l -> Inv w ->
     Inv (after (body x w)) /\ value (body x w) = Ok tt) ->
  forall w, Inv w ->
    Inv (after (forEach body l w)) /\ value (forEach body l w) = Ok tt.
Proof.
  induction l as [|x l IH]; intros H w Hw; [now split |].
  change (forEach body (x :: l) w)
    with (bind (body x) (fun _ => forEach body l) w).
  destruct (H x w ltac:(constructor) Hw) as [Hx Hv].
  rewrite (bind_ok _ _ _ _ Hv). cbn [value after].
  apply IH; [| exact Hx]. intros y w' Hy. apply H. now constructor.
Qed.

Lemma filesBelow_spec (v : gmap string vnode) (p : string) (f : TAbstractFile) :
  f ∈ filesBelow v p ->
  exists path, f = TFile path /\ Js.startsWith path (p +:+ "/") = true.
Proof.
  unfold filesBelow. rewrite list_elem_of_omap.
  intros ([path n] & _ & H). cbn [fst snd] in H.
  destruct n as [d|]; [| discriminate H].
  destruct (Js.startsWith path (p +:+ "/")) eqn:E; [| discriminate H].
  injection H as <-. now exists path.
Qed.

Section InboundDirectoryDeletion.

Variable s : SyncRepSettings.

(** When an external directory is gone, the vault folder at its path
    goes to the trash with everything under it, and the rest of the
    vault is as it was; a file at that path, or no entry, and nothing is
    done. *)
Theorem external_directory_deletion_trashes_the_folder
    (relativePath : string) (w : world) :
  shouldSyncFile s relativePath = true ->
  let r := handleExternalDirectoryDeletion s relativePath w in
  (vault w !! relativePath = Some VFolder -> vaultFaults w = [] ->
   value r = Ok tt
   /\ (forall q, vault (after r) !! q
                 = if isUnder q relativePath then None else vault w !! q)
   /\ extfs (after r) = extfs w)
  /\ (vault w !! relativePath <> Some VFolder -> r = Run (Ok tt) w []).
Proof.
  intros Hpol r. subst r. unfold handleExternalDirectoryDeletion.
  rewrite Hpol. cbn [negb]. unfold checkForRenamedDirectory.
  assert (Hhead : forall k : bool -> M unit, bind (ret false) k w = k false w)
    by (intros k; exact (bind_noop (ret false) k w false eq_refl)).
  split.
  - intros Hfolder Hfaults.
    set (p := relativePath) in *.
    set (Inv := fun w' : world =>
           vaultFaults w' = [] /\ extfs w' = extfs w
           /\ vault w' !! p = Some VFolder
           /\ forall q, isUnder q p = false -> vault w' !! q = vault w !! q).
    assert (Hloop : forall notes,
      (forall f, f ∈ notes -> f ∈ filesBelow (vault w) p) ->
      forall w', Inv w' ->
        Inv (after (forEach (fun note => tryCatch (vaultTrash note)
                                           (fun _ => ret tt)) notes w'))
        /\ value (forEach (fun note => tryCatch (vaultTrash note)
                                         (fun _ => ret tt)) notes w') = Ok tt).
    { intros notes Hnotes. apply forEach_invariant.
      intros note w' Hin (Hf & He & Hp & Hrest).
      split; [| apply tryCatch_swallow_ok].
      destruct (filesBelow_spec _ _ _ (Hnotes _ Hin)) as (path & -> & Hpath).
      destruct (vaultTrash_cases (TFile path) w') as [(n & _ & Hrun) | [e Hrun]].
      - rewrite (tryCatch_step _ _ _ _ _ _ Hrun). cbn [after pathOf].
        repeat split; [exact Hf | exact He | |].
        + cbn [vault withVault]. rewrite lookup_trashed.
          now rewrite (isUnder_above path p Hpath).
        + intros q Hq. cbn [vault withVault]. rewrite lookup_trashed.
          destruct (isUnder q path) eqn:E; [| now apply Hrest].
          now rewrite (isUnder_trans q path p Hpath E) in Hq.
      - rewrite (tryCatch_throw_step _ _ _ _ _ _ Hrun). cbn [after ret].
        now repeat split. }
    assert (Hbody :
      exists w2, Inv w2 /\
        moveFolderToTrash p w
        = Run (Ok tt)
            (withVault (filter (fun kv : string * vnode =>
                                  isUnder kv.1 p = false) (vault w2)) w2)
            (issued (moveFolderToTrash p w))).
    { unfold moveFolderToTrash.
      assert (Hinner :
        exists w2 t, Inv w2 /\
          bind (getAbstractFileByPath p)
            (fun folder =>
               match folder with
               | Some (TFolder p0) =>
                   bind get (fun w0 =>
                     bind (forEach (fun note => tryCatch (vaultTrash note)
                                                  (fun _ => ret tt))
                                   (filesBelow (vault w0) p0))
                          (fun _ => vaultTrash (TFolder p0)))
               | _ => ret tt
               end) w
          = Run (Ok tt)
              (withVault (filter (fun kv : string * vnode =>
                                    isUnder kv.1 p = false) (vault w2)) w2) t).
      { rewrite (bind_noop _ _ _ _ (getAbstractFileByPath_run p w)), Hfolder.
        rewrite (bind_noop get _ w w eq_refl).
        destruct (Hloop (filesBelow (vault w) p) (fun f H => H) w)
          as [HI Hv]; [now repeat split |].
        rewrite (bind_ok _ _ _ _ Hv).
        set (w2 := after (forEach _ _ w)) in *.
        destruct HI as (Hf & He & Hp & Hrest).
        rewrite (vaultTrash_ok (TFolder p) VFolder w2
                   (faulty_none w2 p Hf) Hp).
        exists w2. eexists. split; [now repeat split | reflexivity]. }
      destruct Hinner as (w2 & t & HI & Hrun).
      exists w2. split; [exact HI |].
      now rewrite (tryCatch_step _ _ _ _ _ _ Hrun). }
    destruct Hbody as (w2 & (Hf & He & Hp & Hrest) & Hrun).
    assert (Hall :
      bind (ret false)
        (fun wasRenamed : bool =>
           if wasRenamed then ret tt
           else bind (getAbstractFileByPath relativePath)
                  (fun existingDir =>
                     match existingDir with
                     | Some (TFolder _) => moveFolderToTrash relativePath
                     | _ => ret tt
                     end)) w
      = moveFolderToTrash p w).
    { rewrite Hhead.
      now rewrite (bind_noop _ _ _ _ (getAbstractFileByPath_run p w)), Hfolder. }
    rewrite Hrun in Hall. rewrite (tryCatch_step _ _ _ _ _ _ Hall).
    cbn [value after vault withVault extfs].
    split; [reflexivity |]. split; [| exact He].
    intros q. rewrite lookup_trashed.
    destruct (isUnder q p) eqn:E; [reflexivity | now apply Hrest].
  - intros Hnot. apply tryCatch_noop. rewrite Hhead.
    rewrite (bind_noop _ _ _ _ (getAbstractFileByPath_run relativePath w)).
    destruct (vault w !! relativePath) as [[d|]|]; try reflexivity.
    now destruct Hnot.
Qed.

End InboundDirectoryDeletion.

Lemma external_directory_deletion_trashes_the_folder_witness :
  let s := settingsAll [] in
  let w := worldOf {["a" := VFolder; "a/x.md" := VFile "hello";
                     "b.md" := VFile "bee"]} sampleStore in
  let r := handleExternalDirectoryDeletion s "a" w in
  vault (after r) !! "a" = None
  /\ vault (after r) !! "a/x.md" = None
  /\ vault (after r) !! "b.md" = Some (VFile "bee").
Proof.
  intros s w r.
  destruct (external_directory_deletion_trashes_the_folder s "a" w eq_refl)
    as [H _].
  destruct (H eq_refl eq_refl) as (_ & Hl & _). fold r in Hl.
  rewrite !Hl. repeat split.
Defined.

(** ** Deletions in the vault, mirrored outside after confirmation *)

Lemma openModal_run m w :
  openModal m w = Run (Ok tt) (withModals (modals w ++ [m]) w) [].
Proof. reflexivity. Qed.

Section OutboundDeletion.

Variable s : SyncRepSettings.

(** The deletion of a vault file or folder never changes the external
    store by itself: the handler issues no call and leaves the two stores
    as they are; it asks for one confirmation (of the external path of
    the item) when that path exists, and for none otherwise.  An answer
    of no leaves everything as it is. *)
Theorem outbound_deletions_ask_first (p : string) (w : world) :
  (let r := handleFileDeletion s p w in
   value r = Ok tt /\ issued r = []
   /\ after r
      = match resolved (getExternalPath s p) with
        | Some externalPath =>
            if exists_ (extfs w) externalPath
            then withModals (modals w ++ [ConfirmUnlink externalPath]) w
            else w
        | None => w
        end)
  /\ (let r := handleFolderDeletion s p w in
      value r = Ok tt /\ issued r = []
      /\ after r
         = match resolved (getExternalPath s p) with
           | Some externalPath =>
               if shouldSyncFile s p && exists_ (extfs w) externalPath
               then withModals (modals w ++ [ConfirmRmdir externalPath]) w
               else w
           | None => w
           end)
  /\ (forall m w', onConfirm m false w' = Run (Ok tt) w' []).
Proof.
  split; [| split].
  - unfold handleFileDeletion.
    destruct (resolved (getExternalPath s p)) as [ext|]; [| now repeat split].
    assert (H : bind (existsSync ext)
                  (fun fileExists => when fileExists (openModal (ConfirmUnlink ext))) w
                = Run (Ok tt)
                    (if exists_ (extfs w) ext
                     then withModals (modals w ++ [ConfirmUnlink ext]) w else w)
                    []).
    { rewrite (bind_noop _ _ _ _ (existsSync_run ext w)).
      now destruct (exists_ (extfs w) ext). }
    rewrite (tryCatch_step _ _ _ _ _ _ H). now repeat split.
  - unfold handleFolderDeletion.
    destruct (shouldSyncFile s p); cbn [negb andb].
    + destruct (resolved (getExternalPath s p)) as [ext|]; [| now repeat split].
      assert (H : bind (existsSync ext)
                    (fun dirExists => when dirExists (openModal (ConfirmRmdir ext))) w
                  = Run (Ok tt)
                      (if exists_ (extfs w) ext
                       then withModals (modals w ++ [ConfirmRmdir ext]) w else w)
                      []).
      { rewrite (bind_noop _ _ _ _ (existsSync_run ext w)).
        now destruct (exists_ (extfs w) ext). }
      rewrite (tryCatch_step _ _ _ _ _ _ H). now repeat split.
    + rewrite (tryCatch_noop (ret tt) _ w tt eq_refl).
      now destruct (resolved (getExternalPath s p)).
  - intros [ext|ext] w'; reflexivity.
Qed.

End OutboundDeletion.


Lemma outbound_deletion_round :
  let s := settingsAll [] in
  let w := worldOf ∅ sampleStore in
  let asked := after (handleFileDeletion s "b.md" w) in
  modals asked = [ConfirmUnlink "/ext/b.md"]
  /\ extfs asked = sampleStore
  /\ fsLookup (extfs (after (onConfirm (ConfirmUnlink "/ext/b.md") true asked)))
       "/ext/b.md" = None.
Proof. vm_compute. repeat split. Qed.

(** ** Folders towards the external store *)

Lemma mkdirAt_lookupAt segs root root' :
  mkdirAt segs root = Some root' ->
  exists n, lookupAt segs root' = Some n /\ isDirectory n = true.
Proof.
  revert root root'. induction segs as [|seg rest IH]; intros root root' H.
  - cbn [mkdirAt] in H. destruct (isDirectory root) eqn:E; [| discriminate H].
    injection H as <-. now exists root.
  - cbn [mkdirAt] in H. destruct (children root) as [l|]; [| discriminate H].
    destruct (mkdirAt rest (default (EDir (Some [])) (assoc seg l)))
      as [c'|] eqn:Hc; [| discriminate H].
    injection H as <-. cbn [lookupAt children].
    rewrite assoc_setEntry_eq. now apply IH in Hc.
Qed.

(** The outcome of [mkdirSync]: one call, and a directory at the path
    when it succeeds. *)
Lemma mkdirSync_spec p w :
  exists ok : bool,
    mkdirSync p w
    = Run (if ok then Ok tt else Throw "EIO: file system call failed")
          (after (mkdirSync p w)) [(FsMkdir p, ok)]
    /\ vault (after (mkdirSync p w)) = vault w
    /\ (ok = true ->
        exists n, fsLookup (extfs (after (mkdirSync p w))) p = Some n
                  /\ isDirectory n = true)
    /\ (ok = false -> after (mkdirSync p w) = w).
Proof.
  unfold mkdirSync.
  destruct (fsMutate_spec (FsMkdir p) p (mkdirAt (fsSegments p)) w)
    as [(fs' & Hp & Hfs & Hrun) | Hrun]; rewrite Hrun.
  - exists true. repeat split; [| discriminate].
    intros _. cbn [after extfs withExtfs]. unfold fsLookup. rewrite Hp.
    now apply mkdirAt_lookupAt in Hfs.
  - exists false. repeat split; discriminate.
Qed.

Section OutboundFolders.

Variable s : SyncRepSettings.

(** For a vault folder that the policy accepts, [syncFolder] leaves an
    external directory that exists alone and creates one that is missing,
    with its parents, by a single call; the failure of the call is
    caught.  After a success the external path is a directory and a
    second run does nothing.  The vault is not touched. *)
Theorem syncFolder_creates_the_directory (p dest : string) (w : world) :
  shouldSyncFile s p = true ->
  getExternalPath s p = Some dest ->
  let r := syncFolder s (TFolder p) w in
  value r = Ok tt
  /\ vault (after r) = vault w
  /\ (exists_ (extfs w) dest = true -> r = Run (Ok tt) w [])
  /\ (exists_ (extfs w) dest = false ->
      exists ok : bool,
        issued r = [(FsMkdir dest, ok)]
        /\ (ok = true ->
            (exists n, fsLookup (extfs (after r)) dest = Some n
                       /\ isDirectory n = true)
            /\ syncFolder s (TFolder p) (after r) = Run (Ok tt) (after r) [])
        /\ (ok = false -> after r = w)).
Proof.
  intros Hpol Hdest r.
  assert (Hunfold : forall w',
    syncFolder s (TFolder p) w'
    = tryCatch (fun w0 => if exists_ (extfs w0) dest
                          then Run (Ok tt) w0 [] else mkdirSync dest w0)
               (fun _ => ret tt) w').
  { intros w'. unfold syncFolder. cbn [pathOf].
    rewrite Hpol, (resolved_getExternalPath _ _ _ Hdest). cbn [negb].
    unfold tryCatch.
    rewrite (bind_noop _ _ _ _ (existsSync_run dest w')).
    now destruct (exists_ (extfs w') dest). }
  assert (Hsettled : forall w', exists_ (extfs w') dest = true ->
            syncFolder s (TFolder p) w' = Run (Ok tt) w' []).
  { intros w' He. rewrite Hunfold. unfold tryCatch. now rewrite He. }
  subst r. destruct (exists_ (extfs w) dest) eqn:He.
  - rewrite (Hsettled w He). repeat split. discriminate.
  - destruct (mkdirSync_spec dest w) as (ok & Hrun & Hv & Hdir & Hfail).
    set (w2 := after (mkdirSync dest w)) in *.
    assert (Hm : (if exists_ (extfs w) dest
                  then Run (Ok tt) w [] else mkdirSync dest w)
                 = Run (if ok then Ok tt
                        else Throw "EIO: file system call failed")
                       w2 [(FsMkdir dest, ok)])
      by now rewrite He.
    destruct ok.
    + rewrite Hunfold.
      rewrite (tryCatch_step
                 (fun w0 => if exists_ (extfs w0) dest
                            then Run (Ok tt) w0 [] else mkdirSync dest w0)
                 _ w _ _ _ Hm).
      cbn [value after issued].
      split; [reflexivity |]. split; [exact Hv |]. split; [discriminate |].
      intros _. exists true. split; [reflexivity |]. split; [| discriminate].
      intros _. split; [now apply Hdir |].
      apply Hsettled. destruct (Hdir eq_refl) as (n & Hn & _).
      unfold exists_. now rewrite Hn.
    + rewrite Hunfold.
      rewrite (tryCatch_throw_step
                 (fun w0 => if exists_ (extfs w0) dest
                            then Run (Ok tt) w0 [] else mkdirSync dest w0)
                 _ w _ _ _ Hm).
      cbn [value after issued ret app]. rewrite (Hfail eq_refl).
      split; [reflexivity |]. split; [reflexivity |]. split; [discriminate |].
      intros _. exists false. now repeat split.
Qed.

End OutboundFolders.

Lemma syncFolder_creates_the_directory_witness :
  let s := settingsAll [] in
  let w := worldOf {["new/sub" := VFolder]} sampleStore in
  let r := syncFolder s (TFolder "new/sub") w in
  exists ok : bool,
    issued r = [(FsMkdir "/ext/new/sub", ok)]
    /\ (ok = true ->
        (exists n, fsLookup (extfs (after r)) "/ext/new/sub" = Some n
                   /\ isDirectory n = true)
        /\ syncFolder s (TFolder "new/sub") (after r) = Run (Ok tt) (after r) [])
    /\ (ok = false -> after r = w).
Proof.
  intros s w r.
  apply (syncFolder_creates_the_directory s "new/sub" "/ext/new/sub" w).
  - reflexivity.
  - reflexivity.
  - reflexivity.
Defined.

(** ** The renaming of a folder ([handleFolderRename]) *)

Section FolderRename.

Variable s : SyncRepSettings.


End FolderRename.


(** ** Properties of the world that operations keep *)

Section Preserves.

Variable Inv : world -> Prop.

Lemma preserves_ret {A} (a : A) : preserves Inv (ret a).
Proof. intros w H. exact H. Qed.

Lemma preserves_throw {A} (e : string) : preserves Inv (@throw A e).
Proof. intros w H. exact H. Qed.

Lemma preserves_bind {A B} (m : M A) (f : A -> M B) :
  preserves Inv m -> (forall a, preserves Inv (f a)) ->
  preserves Inv (bind m f).
Proof.
  intros Hm Hf w H. unfold bind.
  destruct (value (m w)) as [a|e]; cbn [after]; [apply Hf |]; now apply Hm.
Qed.

Lemma preserves_tryCatch {A} (m : M A) (h : string -> M A) :
  preserves Inv m -> (forall e, preserves Inv (h e)) ->
  preserves Inv (tryCatch m h).
Proof.
  intros Hm Hh w H. unfold tryCatch.
  destruct (value (m w)) as [a|e]; cbn [after]; [| apply Hh]; now apply Hm.
Qed.

Lemma preserves_tryFinally {A} (m : M A) (f : M unit) :
  preserves Inv m -> preserves Inv f -> preserves Inv (tryFinally m f).
Proof. intros Hm Hf w H. unfold tryFinally. cbn [after]. now apply Hf, Hm. Qed.

Lemma preserves_state {A} (f : world -> M A) :
  (forall w, Inv w -> Inv (after (f w w))) -> preserves Inv (bind get f).
Proof. intros H w Hw. now apply H. Qed.

Lemma preserves_when (b : bool) (m : M unit) :
  preserves Inv m -> preserves Inv (when b m).
Proof. destruct b; [auto | intros _; apply preserves_ret]. Qed.

Lemma preserves_forEach {A} (body : A -> M unit) (l : list A) :
  (forall x, x ∈ l -> preserves Inv (body x)) ->
  preserves Inv (forEach body l).
Proof.
  induction l as [|x l IH]; intros H.
  - apply preserves_ret.
  - apply (preserves_bind (body x) (fun _ => forEach body l)).
    + apply H. constructor.
    + intros _. apply IH. intros y Hy. apply H. now constructor.
Qed.

End Preserves.

(** ** The watchers on the external store *)

Lemma issuesOnly_fsWatch Q p recursive : issuesOnly Q (fsWatch p recursive).
Proof.
  apply issuesOnly_state. intros w. destruct (_ && _); [auto with calls |].
  destruct (fsLookup _ _); auto with calls.
Qed.

Section Watchers.

(** A property of the world that the registration of one more watcher,
    of the kind [recursiveOnes], keeps. *)
Variable Inv : world -> Prop.
Variable recursiveOnes : bool.
Hypothesis Inv_watch :
  forall w p, Inv w -> Inv (withWatchers (fileWatchers w ++ [(p, recursiveOnes)]) w).

Lemma preserves_fsWatch p : preserves Inv (fsWatch p recursiveOnes).
Proof.
  apply preserves_state. intros w Hw.
  destruct (_ && _); [exact Hw |].
  destruct (fsLookup _ _); [now apply Inv_watch | exact Hw].
Qed.

End Watchers.

Section WatchDirectory.

Variable s : SyncRepSettings.
Variable Inv : world -> Prop.
Hypothesis Inv_watch :
  forall w p, Inv w -> Inv (withWatchers (fileWatchers w ++ [(p, false)]) w).

Lemma watchDirectory_unfold dir dirPath :
  watchDirectory s dir dirPath
  = tryCatch
      (bind (fsWatch dirPath false) (fun _ =>
         tryCatch
           (match dir with
            | EDir (Some entries) =>
                forEach
                  (fun '(name, entry) =>
                     if isDirectory entry then
                       let subDirPath := Path.join dirPath name in
                       let relativePath :=
                         Js.replaceBackslashes
                           (Path.relative (syncFolderPath s) subDirPath) in
                       if negb (isExcluded s relativePath)
                          && negb (isDirectoryWatched subDirPath)
                       then watchDirectory s entry subDirPath
                       else ret tt
                     else ret tt)
                  entries
            | _ => throw "readdir failed"
            end)
           (fun _ => ret tt)))
      (fun _ => ret tt).
Proof. destruct dir; reflexivity. Qed.

Lemma preserves_watchDirectory dir dirPath :
  preserves Inv (watchDirectory s dir dirPath).
Proof.
  revert dirPath.
  induction dir as [c| |l IH|] using enode_ind'; intros dirPath;
    rewrite watchDirectory_unfold;
    (apply preserves_tryCatch; [| intros; apply preserves_ret]);
    (apply preserves_bind; [now apply (preserves_fsWatch Inv false) |]);
    intros _;
    (apply preserves_tryCatch; [| intros; apply preserves_ret]);
    try apply preserves_throw.
  apply preserves_forEach. intros [name entry] Hin.
  rewrite Forall_forall in IH. specialize (IH _ Hin). cbn [snd] in IH.
  destruct (isDirectory entry); [| apply preserves_ret].
  cbv zeta. destruct (_ && _); [apply IH | apply preserves_ret].
Qed.

Lemma issuesOnly_watchDirectory Q dir dirPath :
  issuesOnly Q (watchDirectory s dir dirPath).
Proof.
  revert dirPath.
  induction dir as [c| |l IH|] using enode_ind'; intros dirPath;
    rewrite watchDirectory_unfold;
    (apply issuesOnly_tryCatch; [| auto with calls]);
    (apply issuesOnly_bind; [apply issuesOnly_fsWatch |]);
    intros _;
    (apply issuesOnly_tryCatch; [| auto with calls]);
    auto with calls.
  apply issuesOnly_forEach. intros [name entry] Hin.
  rewrite Forall_forall in IH. specialize (IH _ Hin). cbn [snd] in IH.
  destruct (isDirectory entry); [| auto with calls].
  cbv zeta. destruct (_ && _); [apply IH | auto with calls].
Qed.

Lemma preserves_setupFallbackWatcher : preserves Inv (setupFallbackWatcher s).
Proof.
  apply preserves_tryCatch; [| intros; apply preserves_ret].
  apply preserves_bind; [| intros dir; apply preserves_watchDirectory].
  apply preserves_state. now intros w.
Qed.

End WatchDirectory.

Section SetupWatcher.

Variable s : SyncRepSettings.

Lemma setupExternalWatcher_unfold w :
  setupExternalWatcher s w
  = let w0 := withWatchers [] w in
    if Js.truthy (syncFolderPath s) && exists_ (extfs w) (syncFolderPath s)
    then tryCatch (fsWatch (syncFolderPath s) true)
                  (fun _ => setupFallbackWatcher s) w0
    else Run (Ok tt) w0 [].
Proof.
  unfold setupExternalWatcher, closeFileWatchers.
  rewrite (bind_pure_step _ _ w (withWatchers [] w) tt eq_refl).
  destruct (Js.truthy (syncFolderPath s)); cbn [andb].
  - rewrite (bind_noop _ _ _ _ (existsSync_run _ (withWatchers [] w))).
    cbn [extfs withWatchers]. now destruct (exists_ (extfs w) _).
  - exact (bind_noop (ret false) _ _ false eq_refl).
Qed.

Lemma fsWatch_recursive_run p w :
  recursiveWatchSupported w = true ->
  exists_ (extfs w) p = true ->
  fsWatch p true w
  = Run (Ok tt) (withWatchers (fileWatchers w ++ [(p, true)]) w) [].
Proof.
  intros Hr He. unfold fsWatch, bind, get. cbn. rewrite Hr. cbn.
  unfold exists_ in He. now destruct (fsLookup (extfs w) p).
Qed.

Lemma fsWatch_recursive_fails p w :
  recursiveWatchSupported w = false ->
  fsWatch p true w = Run (Throw "ERR_FEATURE_UNAVAILABLE_ON_PLATFORM") w [].
Proof. intros Hr. unfold fsWatch, bind, get. cbn. now rewrite Hr. Qed.

(** Setting up the watch: the watchers in place are closed first, so
    that the watchers afterwards do not depend on those before and a
    second set-up leaves what the first left; nothing but the list of
    watchers changes and no call is issued.  Where recursive watching is
    available and the external root exists, the root gets the one
    recursive watcher; where it is not, every watcher registered is a
    plain one. *)
Theorem setupExternalWatcher_replaces_watchers (w : world) :
  let r := setupExternalWatcher s w in
  value r = Ok tt /\ issued r = []
  /\ after r = withWatchers (fileWatchers (after r)) w
  /\ (forall l, setupExternalWatcher s (withWatchers l w) = r)
  /\ setupExternalWatcher s (after r) = r
  /\ (recursiveWatchSupported w = true ->
      Js.truthy (syncFolderPath s) = true ->
      exists_ (extfs w) (syncFolderPath s) = true ->
      fileWatchers (after r) = [(syncFolderPath s, true)])
  /\ (recursiveWatchSupported w = false ->
      Forall (fun x => x.2 = false) (fileWatchers (after r))).
Proof.
  intros r.
  assert (Hreset : forall l, setupExternalWatcher s (withWatchers l w) = r)
    by (intros l; subst r; now rewrite !setupExternalWatcher_unfold).
  assert (Hframe : after r = withWatchers (fileWatchers (after r)) w).
  { subst r. rewrite setupExternalWatcher_unfold. cbv zeta.
    destruct (_ && _); [| reflexivity].
    set (Inv := fun w' : world => w' = withWatchers (fileWatchers w') w).
    assert (HI : forall b, forall w' p, Inv w' ->
              Inv (withWatchers (fileWatchers w' ++ [(p, b)]) w')).
    { intros b w' p H. unfold Inv in *. rewrite H at 2. reflexivity. }
    apply (preserves_tryCatch Inv); [| | reflexivity].
    - apply (preserves_fsWatch Inv true (HI true)).
    - intros e. apply (preserves_setupFallbackWatcher s Inv (HI false)). }
  assert (Hcalls : issued r = []).
  { assert (H : issuesOnly (fun _ => False) (setupExternalWatcher s)).
    { unfold setupExternalWatcher.
      apply issuesOnly_bind;
        [unfold closeFileWatchers; apply issuesOnly_state; auto with calls |].
      intros _. apply issuesOnly_bind;
        [destruct (Js.truthy _); auto with calls |].
      intros configured. destruct (negb configured); [auto with calls |].
      apply issuesOnly_tryCatch; [apply issuesOnly_fsWatch |].
      intros e. apply issuesOnly_tryCatch; [| auto with calls].
      apply issuesOnly_bind; [auto with calls |].
      intros dir. apply issuesOnly_watchDirectory. }
    specialize (H w). fold r in H. destruct (issued r) as [|c t];
      [reflexivity | now inversion H]. }
  assert (Hvalue : value r = Ok tt).
  { subst r. rewrite setupExternalWatcher_unfold. cbv zeta.
    destruct (_ && _); [| reflexivity].
    unfold tryCatch.
    destruct (value (fsWatch (syncFolderPath s) true (withWatchers [] w)))
      as [[]|e] eqn:E; [exact E |].
    cbn [value]. apply tryCatch_swallow_ok. }
  split; [exact Hvalue |]. split; [exact Hcalls |]. split; [exact Hframe |].
  split; [exact Hreset |]. split; [rewrite Hframe; apply Hreset |]. split.
  - intros Hrec Ht He. subst r. rewrite setupExternalWatcher_unfold. cbv zeta.
    rewrite Ht, He. cbn [andb].
    now rewrite (tryCatch_step _ _ _ _ _ _
                   (fsWatch_recursive_run _ (withWatchers [] w) Hrec He)).
  - intros Hrec. subst r. rewrite setupExternalWatcher_unfold. cbv zeta.
    destruct (_ && _); [| constructor].
    rewrite (tryCatch_throw_step _ _ _ _ _ _
               (fsWatch_recursive_fails _ (withWatchers [] w) Hrec)).
    cbn [after].
    apply (preserves_setupFallbackWatcher s
             (fun w' => Forall (fun x => x.2 = false) (fileWatchers w')));
      [| constructor].
    intros w' p H. cbn [fileWatchers withWatchers].
    apply Forall_app. split; [exact H | now repeat constructor].
Qed.

End SetupWatcher.

(** The sample store without recursive watching: a plain watcher on the
    root and on each directory below. *)
Example fallback_watchers_sample :
  fileWatchers
    (after (setupExternalWatcher (settingsAll [])
              {| vault := ∅; vaultFaults := []; extfs := sampleStore;
                 isProcessingExternalChange := false; timers := [];
                 modals := []; fileWatchers := [("/stale", true)];
                 recursiveWatchSupported := false |}))
  = [("/ext", false); ("/ext/a", false); ("/ext/a/e", false)].
Proof. reflexivity. Qed.

(** ** The inbound walks change the vault only *)

Lemma vaultOnly_existsSync p : vaultOnly (existsSync p).
Proof. apply vaultOnly_state. intros w. symmetry. apply withVault_id. Qed.

Lemma vaultOnly_nodeAt p : vaultOnly (nodeAt p).
Proof. apply vaultOnly_state. intros w. symmetry. apply withVault_id. Qed.

Lemma vaultOnly_readFileOf n enc : vaultOnly (readFileOf n enc).
Proof. destruct n as [[[]| |]|]; apply vaultOnly_ret || apply vaultOnly_throw. Qed.

Lemma vaultOnly_createIfMissing p : vaultOnly (createIfMissing p).
Proof.
  apply vaultOnly_bind; [auto with frame |]. intros existingDir.
  apply vaultOnly_when. auto with frame.
Qed.

#[local] Hint Resolve vaultOnly_existsSync vaultOnly_nodeAt
  vaultOnly_readFileOf vaultOnly_createIfMissing : frame.

Section WalksFrame.

Variable s : SyncRepSettings.

Lemma vaultOnly_syncFileEntry entry p : vaultOnly (syncFileEntry entry p).
Proof.
  unfold syncFileEntry. apply vaultOnly_tryCatch; [| auto with frame].
  apply vaultOnly_bind; [auto with frame |]. intros content.
  apply vaultOnly_bind; auto with frame.
Qed.

Lemma vaultOnly_scanAndCreateAllDirectories base rel :
  vaultOnly (scanAndCreateAllDirectories s base rel).
Proof.
  revert rel.
  induction base as [c| |l IH|] using enode_ind'; intros rel;
    rewrite scanAndCreateAllDirectories_unfold;
    (apply vaultOnly_tryCatch; [| auto with frame]);
    (apply vaultOnly_bind;
     [ unfold scanDirectoryItself; destruct (Js.truthy rel);
       [| auto with frame];
       destruct (shouldSyncFile _ _); [| auto with frame];
       apply vaultOnly_bind; auto with frame
     | intros [|]; auto with frame ]).
  apply vaultOnly_forEach. intros [name entry] Hin.
  rewrite Forall_forall in IH. specialize (IH _ Hin). cbn [snd] in IH.
  unfold scanEntry. destruct (isDirectory entry); [apply IH | auto with frame].
Qed.

Lemma vaultOnly_syncDirectoryFromExternal dir rel :
  vaultOnly (syncDirectoryFromExternal s dir rel).
Proof.
  revert rel.
  induction dir as [c| |l IH|] using enode_ind'; intros rel;
    rewrite syncDirectoryFromExternal_unfold;
    (apply vaultOnly_tryCatch; [| auto with frame]);
    (destruct (negb (shouldSyncFile s rel)); [auto with frame |]);
    (apply vaultOnly_bind; [auto with frame | intros _; auto with frame]).
  apply vaultOnly_forEach. intros [name entry] Hin.
  rewrite Forall_forall in IH. specialize (IH _ Hin). cbn [snd] in IH.
  unfold syncEntry. destruct (negb _); [auto with frame |].
  destruct entry as [c| |];
    [apply vaultOnly_syncFileEntry | apply IH | auto with frame].
Qed.

Lemma vaultOnly_scanAt basePath rel :
  vaultOnly (scanAndCreateAllDirectoriesAt s basePath rel).
Proof.
  apply vaultOnly_bind; [auto with frame |].
  intros [|]; [| auto with frame].
  apply vaultOnly_bind; [auto with frame |]. intros base.
  apply vaultOnly_scanAndCreateAllDirectories.
Qed.

Lemma vaultOnly_syncAt dirPath rel :
  vaultOnly (syncDirectoryFromExternalAt s dirPath rel).
Proof.
  apply vaultOnly_bind; [auto with frame |]. intros dir.
  apply vaultOnly_syncDirectoryFromExternal.
Qed.

Lemma vaultOnly_syncAllExternalDirectories :
  vaultOnly (syncAllExternalDirectories s).
Proof.
  unfold syncAllExternalDirectories. apply vaultOnly_bind.
  - destruct (Js.truthy _); auto with frame.
  - intros configured. destruct (negb configured); [auto with frame |].
    apply vaultOnly_tryCatch; [| auto with frame].
    apply vaultOnly_bind; [| intros _]; (apply vaultOnly_bind;
      [apply vaultOnly_scanAt || apply vaultOnly_syncAt |]); intros _;
      apply vaultOnly_forEach; intros externalFolder _;
      (apply vaultOnly_bind; [auto with frame |]);
      (intros [|]; [apply vaultOnly_scanAt || apply vaultOnly_syncAt
                   | auto with frame]).
Qed.

(** A full synchronisation from the external store changes the vault
    and nothing else (the external store, the watchers, the timers, the
    guard and the pending confirmations are as they were), and every call
    it issues is a creation or a modification in the vault: nothing is
    ever sent to the trash and no external file is written. *)
Theorem full_sync_changes_the_vault_only (w : world) :
  let r := syncAllExternalDirectories s w in
  value r = Ok tt
  /\ after r = withVault (vault (after r)) w
  /\ Forall (fun c => isVaultWrite c.1 = true) (issued r).
Proof.
  intros r. split; [| split].
  - apply syncAllExternalDirectories_ok.
  - apply vaultOnly_syncAllExternalDirectories.
  - assert (H : issuesOnly (fun c => isVaultWrite c.1 = true)
                  (syncAllExternalDirectories s)); [| apply H].
    unfold syncAllExternalDirectories. apply issuesOnly_bind.
    + destruct (Js.truthy _); auto with calls.
    + intros configured. destruct (negb configured); [auto with calls |].
      apply issuesOnly_tryCatch; [| auto with calls].
      apply issuesOnly_bind.
      * apply issuesOnly_createDirectoryStructure. reflexivity.
      * intros _.
        assert (Hat : forall p rel,
          issuesOnly (fun c => isVaultWrite c.1 = true)
            (syncDirectoryFromExternalAt s p rel)).
        { intros p rel. apply issuesOnly_bind; [auto with calls |].
          intros dir. revert rel.
          induction dir as [c| |l IH|] using enode_ind'; intros rel;
            rewrite syncDirectoryFromExternal_unfold;
            (apply issuesOnly_tryCatch; [| auto with calls]);
            (destruct (negb (shouldSyncFile s rel)); [auto with calls |]);
            (apply issuesOnly_bind;
             [apply issuesOnly_createIfMissing; reflexivity
             | intros _; auto with calls]).
          apply issuesOnly_forEach. intros [name entry] Hin.
          rewrite Forall_forall in IH. specialize (IH _ Hin). cbn [snd] in IH.
          unfold syncEntry. destruct (negb _); [auto with calls |].
          destruct entry as [c| |]; [| apply IH | auto with calls].
          apply issuesOnly_syncFileEntry; reflexivity. }
        apply issuesOnly_bind; [apply Hat |].
        intros _. apply issuesOnly_forEach. intros externalFolder _.
        apply issuesOnly_bind; [auto with calls |].
        intros [|]; [apply Hat | auto with calls].
Qed.


End WalksFrame.

Section GuardOfFullSync.

Variable s : SyncRepSettings.

(** The command that synchronises from the external store, with the
    external root configured and present: whatever happens during the
    full synchronisation, it returns normally with the guard set, one
    task pending that lowers it 500 ms later, and nothing else changed
    but the vault. *)
Theorem syncFromExternal_defers_the_guard (w : world) :
  Js.truthy (syncFolderPath s) = true ->
  exists_ (extfs w) (syncFolderPath s) = true ->
  let r := syncFromExternal s w in
  value r = Ok tt
  /\ after r
     = withTimers (timers w ++ [(500, TaskClearGuard)])
         (withGuard true (withVault (vault (after r)) w))
  /\ issued r = issued (syncAllExternalDirectories s (withGuard true w))
  /\ runTask s TaskClearGuard (after r)
     = Run (Ok tt) (withGuard false (after r)) [].
Proof.
  intros Ht He r.
  pose proof (syncAllExternalDirectories_ok s (withGuard true w)) as Hv.
  pose proof (vaultOnly_syncAllExternalDirectories s (withGuard true w)) as Hf.
  assert (Hr : r = tryCatch
                     (bind (setProcessingExternalChange true)
                        (fun _ => tryFinally (syncAllExternalDirectories s)
                                    (setTimeout TaskClearGuard 500)))
                     (fun _ => ret tt) w).
  { subst r. unfold syncFromExternal. rewrite Ht.
    rewrite (bind_noop _ _ _ _ (existsSync_run _ w)), He. reflexivity. }
  assert (Hbody :
    bind (setProcessingExternalChange true)
      (fun _ => tryFinally (syncAllExternalDirectories s)
                  (setTimeout TaskClearGuard 500)) w
    = tryFinally (syncAllExternalDirectories s)
        (setTimeout TaskClearGuard 500) (withGuard true w)).
  { exact (bind_pure_step _ _ w (withGuard true w) tt eq_refl). }
  unfold tryFinally in Hbody.
  revert Hv Hf Hbody.
  generalize (syncAllExternalDirectories s (withGuard true w)).
  intros [v wf t]. cbn [value after issued]. intros Hv Hf Hbody.
  rewrite setTimeout_run in Hbody. cbn [value after issued] in Hbody.
  rewrite Hv, app_nil_r in Hbody.
  rewrite Hr, (tryCatch_step _ _ _ _ _ _ Hbody). cbn [value after issued].
  split; [reflexivity |]. split; [| split; reflexivity].
  rewrite Hf. reflexivity.
Qed.

End GuardOfFullSync.

Lemma syncFromExternal_defers_the_guard_witness :
  let r := syncFromExternal (settingsAll []) (worldOf ∅ sampleStore) in
  value r = Ok tt
  /\ isProcessingExternalChange (after r) = true
  /\ timers (after r) = [(500, TaskClearGuard)].
Proof.
  intros r.
  destruct (syncFromExternal_defers_the_guard (settingsAll [])
              (worldOf ∅ sampleStore) eq_refl eq_refl)
    as (Hv & Ha & _).
  split; [exact Hv |].
  split.
  - exact (f_equal isProcessingExternalChange Ha).
  - exact (f_equal timers Ha).
Defined.

(** ** Every file of the vault towards the external store ([syncAllFiles]) *)

Lemma withExtfs_id w : withExtfs (extfs w) w = w.
Proof. now destruct w. Qed.

Section OutboundFullSync.

Variable s : SyncRepSettings.
Variable getFiles : gmap string vnode -> list TAbstractFile.
Variable w0 : world.

Lemma outside_fsMutate c p f :
  preserves (fun w => w = withExtfs (extfs w) w0) (fsMutate c p f).
Proof.
  intros w Hw.
  destruct (fsMutate_spec c p f w) as [(fs' & _ & _ & ->) | ->];
    cbn [after]; [| exact Hw].
  rewrite Hw. reflexivity.
Qed.

Lemma outside_existsSync p :
  preserves (fun w => w = withExtfs (extfs w) w0) (existsSync p).
Proof. apply preserves_state. intros w Hw. exact Hw. Qed.

Lemma outside_vaultReadBinary file :
  preserves (fun w => w = withExtfs (extfs w) w0) (vaultReadBinary file).
Proof.
  apply preserves_state. intros w Hw.
  destruct (vault w !! pathOf file) as [[|]|]; exact Hw.
Qed.

Lemma outside_vaultRead file :
  preserves (fun w => w = withExtfs (extfs w) w0) (vaultRead file).
Proof.
  apply preserves_bind; [apply outside_vaultReadBinary |].
  intros data. apply preserves_ret.
Qed.

Lemma outside_syncFile file :
  preserves (fun w => w = withExtfs (extfs w) w0) (syncFile s file).
Proof.
  unfold syncFile.
  apply preserves_tryCatch; [| intros e; apply preserves_ret].
  destruct (negb _); [apply preserves_ret |].
  destruct (resolved _) as [destPath|]; [| apply preserves_ret].
  apply preserves_bind; [apply outside_existsSync |]. intros dirExists.
  apply preserves_bind;
    [apply preserves_when, outside_fsMutate |]. intros _.
  destruct (isBinaryFileType _).
  - apply preserves_bind; [apply outside_vaultReadBinary |].
    intros content. apply outside_fsMutate.
  - apply preserves_bind; [apply outside_vaultRead |].
    intros content. apply outside_fsMutate.
Qed.

Lemma syncFile_unresolved file :
  resolved (getExternalPath s (pathOf file)) = None ->
  issuesOnly (fun _ => False) (syncFile s file).
Proof.
  intros Hn. unfold syncFile. rewrite Hn.
  apply issuesOnly_tryCatch; [| auto with calls].
  destruct (negb _); auto with calls.
Qed.

(** X16.  [syncAllFiles] changes nothing but the external store, never
    fails, and calls the file system only to create the external root, or
    to create the parent directory of, or to write, the external path of a
    file of the vault that passes the policy. *)
Theorem syncAllFiles_writes_outside_only :
  let r := syncAllFiles s getFiles w0 in
  value r = Ok tt
  /\ after r = withExtfs (extfs (after r)) w0
  /\ Forall (fun c =>
               c.1 = FsMkdir (syncFolderPath s)
               \/ exists file dest,
                    file ∈ getFiles (vault w0)
                    /\ shouldSyncFile s (pathOf file) = true
                    /\ getExternalPath s (pathOf file) = Some dest
                    /\ (c.1 = FsMkdir (Path.dirname dest)
                        \/ exists data enc, c.1 = FsWriteFile dest data enc))
            (issued r).
Proof.
  cbv zeta. unfold syncAllFiles.
  destruct (negb (Js.truthy (syncFolderPath s))) eqn:Hroot;
    [cbn [ret value after issued];
     split; [reflexivity |]; split; [symmetry; apply withExtfs_id | constructor] |].
  split; [apply tryCatch_swallow_ok |].
  split.
  - apply (preserves_tryCatch (fun w => w = withExtfs (extfs w) w0));
      [| intros e; apply preserves_ret | symmetry; apply withExtfs_id].
    apply preserves_bind; [apply outside_existsSync |]. intros rootExists.
    apply preserves_bind; [apply preserves_when, outside_fsMutate |].
    intros _. apply preserves_state. intros w Hw.
    apply preserves_forEach; [| exact Hw]. intros file _.
    destruct (shouldSyncFile _ _); [apply outside_syncFile | apply preserves_ret].
  - set (Q := fun c : call * bool => _ \/ _).
    assert (Hbody : forall file, file ∈ getFiles (vault w0) ->
              issuesOnly Q (if shouldSyncFile s (pathOf file)
                            then syncFile s file else ret tt)).
    { intros file Hin.
      destruct (shouldSyncFile s (pathOf file)) eqn:Hp; [| auto with calls].
      intros w.
      assert (Hd : exists dest, getExternalPath s (pathOf file) = Some dest)
        by (unfold getExternalPath; rewrite Hroot; eauto).
      destruct Hd as [dest Hd].
      eapply Forall_impl; [apply (syncFile_calls s file dest w Hd) |].
      intros c Hc. right. eauto 10. }
    destruct (tryCatch_swallow_after
                (rootExists <- existsSync (syncFolderPath s) ;;
                 when (negb rootExists) (mkdirSync (syncFolderPath s)) ;;;
                 w <- get ;;
                 forEach (fun file =>
                            if shouldSyncFile s (pathOf file)
                            then syncFile s file else ret tt)
                         (getFiles (vault w))) w0) as [_ ->].
    rewrite (bind_noop _ _ _ _ (existsSync_run _ _)).
    assert (Hloop : forall w, vault w = vault w0 ->
              Forall Q (issued ((w' <- get ;;
                 forEach (fun file =>
                            if shouldSyncFile s (pathOf file)
                            then syncFile s file else ret tt)
                         (getFiles (vault w'))) w))).
    { intros w Hv. unfold bind at 1, get. cbn [value after issued app].
      rewrite Hv. now apply issuesOnly_forEach. }
    destruct (negb (exists_ (extfs w0) (syncFolderPath s))); cbn [when].
    + unfold mkdirSync.
      destruct (fsMutate_spec (FsMkdir (syncFolderPath s)) (syncFolderPath s)
                  (mkdirAt (fsSegments (syncFolderPath s))) w0)
        as [(fs' & _ & _ & E) | E].
      * unfold bind at 1. rewrite E. cbn [value after issued].
        constructor; [now left |]. now apply Hloop.
      * unfold bind at 1. rewrite E. cbn [value after issued].
        constructor; [now left | constructor].
    + unfold bind at 1. cbn [ret value after issued app]. now apply Hloop.
Qed.

End OutboundFullSync.


(** With the folder [private] excluded, the note below it stays inside the
    vault and the other one is written out. *)
Example syncAllFiles_skips_excluded_files :
  issued (syncAllFiles (settingsAll ["private"]) vaultFiles
            (worldOf (<["private/p.md" := VFile "secret"]>
                        (<["a.md" := VFile "text"]> ∅))
                     (dirOf [("ext", dirOf [])])))
  = [(FsWriteFile "/ext/a.md" "text" Utf8, true)].
Proof. vm_compute. reflexivity. Qed.
